(** * Placement engine of the torus job allocator (tools/placement_lib.py,
    tools/place.py): a shallow embedding and its properties.

    Integers are [Z]; a numpy occupancy grid of shape (W, L, H) holding
    0 (free) or 1 (occupied) is a function [Z -> Z -> Z -> bool] (true =
    occupied); Python dicts keyed by computed integers or strings are
    stdpp [gmap]s; dicts whose keys are [0 .. n-1] in order (built with
    [mapping[i] = ...] for [i] in [range(n)]) are lists of their values. *)

From Stdlib Require Import ZArith Lia List Permutation Sorting Ascii.
From stdpp Require Import base gmap strings list sorting pretty.
Import ListNotations.
Open Scope Z_scope.

(* ===================================================================== *)
(** ** Python helpers *)
(* ===================================================================== *)

(** [zseq lo n] is [range(lo, lo + n)]. *)
Fixpoint zseq (lo : Z) (n : nat) : list Z :=
  match n with
  | O => []
  | S n' => lo :: zseq (lo + 1) n'
  end.

(** [range(n)]; empty when [n <= 0]. *)
Definition range (n : Z) : list Z := zseq 0 (Z.to_nat n).

(** [sum(l)] over integers. *)
Definition sum_list (l : list Z) : Z := fold_right Z.add 0 l.

(** A run of nested [for] loops that [return]s the first hit. *)
Fixpoint first_some {A B} (f : A -> option B) (l : list A) : option B :=
  match l with
  | [] => None
  | a :: l' => match f a with Some b => Some b | None => first_some f l' end
  end.

(** Occupancy grids: [grid x y z = true] iff the numpy cell holds 1. *)
Definition grid3 := Z -> Z -> Z -> bool.

Definition empty_grid : grid3 := fun _ _ _ => false.

(** [self.grid[px, py, pz] = 1] *)
Definition grid_set (g : grid3) (px py pz : Z) : grid3 :=
  fun x y z => if (x =? px) && (y =? py) && (z =? pz) then true else g x y z.

Definition in_box (W L H x y z : Z) : Prop :=
  0 <= x < W /\ 0 <= y < L /\ 0 <= z < H.

(* ===================================================================== *)
(** ** Coordinate mapper *)
(* ===================================================================== *)

(** [coord_to_linear_index(x, y, z, dims)] *)
Definition coord_to_linear_index (x y z : Z) (dims : Z * Z * Z) : Z :=
  let '(W_dim, L_dim, H_dim) := dims in
  z * L_dim * W_dim + y * W_dim + x.

(** Inverse of the plane-major convention: x fastest, z slowest. *)
Definition linear_index_to_coord (i : Z) (dims : Z * Z * Z) : Z * Z * Z :=
  let '(W_dim, L_dim, H_dim) := dims in
  (i mod W_dim, (i / W_dim) mod L_dim, i / (L_dim * W_dim)).

(** Per-axis wrap-around distance, as in
    [np.minimum(diff, self.dims - diff)] with [diff = np.abs(p - c)]. *)
Definition axis_distance (dim a b : Z) : Z :=
  Z.min (Z.abs (a - b)) (dim - Z.abs (a - b)).

(** One row of [L1Clustering._get_torus_distance]: the sum over the three
    axes of the per-axis distance between a coordinate and the center. *)
Definition torus_l1_distance (dims : Z * Z * Z) (a b : Z * Z * Z) : Z :=
  let '(W, L, H) := dims in
  let '(ax, ay, az) := a in
  let '(bx, by_, bz) := b in
  axis_distance W ax bx + axis_distance L ay by_ + axis_distance H az bz.

(* ===================================================================== *)
(** ** Errors of a run *)
(* ===================================================================== *)

(** The messages of the [ValueError]s raised by [place.py]. *)
Inductive value_error_msg :=
  | CapacityExceeded      (* total job nodes exceed torus capacity *)
  | BlockLargerThanJob    (* block size greater than a job's smallest dimension *)
  | BlockNotDividingTorus (* block size must divide each torus dimension *)
  | EmptyRandRange        (* [random.randrange(0)] *).

Inductive py_error :=
  | ValueError (m : value_error_msg)
  | RuntimeError          (* "Failed to place job ..." *)
  | IndexError            (* [list.pop] out of range *)
  | ZeroDivisionError     (* [dim % 0] *).

Inductive result (A : Type) :=
  | Ok (a : A)
  | Err (e : py_error).
Arguments Ok {A} a.
Arguments Err {A} e.

(* ===================================================================== *)
(** ** First-Fit (class FirstFit) *)
(* ===================================================================== *)

Record FirstFit := mkFirstFit {
  ff_W : Z; ff_L : Z; ff_H : Z;
  ff_grid : grid3
}.

(** [FirstFit(W, L, H)]: a zero grid. *)
Definition FirstFit_init (W L H : Z) : FirstFit := mkFirstFit W L H empty_grid.

(** One [cumsum] along an axis: entry [i] is the sum of entries [0..i]. *)
Definition prefix_sum (f : Z -> Z) (i : Z) : Z := sum_list (map f (range (i + 1))).

(** [self.grid.cumsum(axis=0).cumsum(axis=1).cumsum(axis=2)] *)
Definition get_integral_volume (g : grid3) : Z -> Z -> Z -> Z :=
  let g0 := fun x y z => Z.b2z (g x y z) in
  let c0 := fun i j k => prefix_sum (fun a => g0 a j k) i in
  let c1 := fun i j k => prefix_sum (fun b => c0 i b k) j in
  fun i j k => prefix_sum (fun c => c1 i j c) k.

(** [FirstFit._is_free]: inclusion-exclusion over the eight corners. *)
Definition is_free (integral : Z -> Z -> Z -> Z) (start size : Z * Z * Z) : bool :=
  let '(x, y, z) := start in
  let '(A, B, C) := size in
  let x1 := x + A - 1 in
  let y1 := y + B - 1 in
  let z1 := z + C - 1 in
  let get_val := fun i j k =>
    if (i <? 0) || (j <? 0) || (k <? 0) then 0 else integral i j k in
  let res :=
    get_val x1 y1 z1
    - get_val (x - 1) y1 z1
    - get_val x1 (y - 1) z1
    - get_val x1 y1 (z - 1)
    + get_val (x - 1) (y - 1) z1
    + get_val (x - 1) y1 (z - 1)
    + get_val x1 (y - 1) (z - 1)
    - get_val (x - 1) (y - 1) (z - 1) in
  res =? 0.

(** [FirstFit.find_placement]: the z / y / x loops with an early return. *)
Definition find_placement (st : FirstFit) (A B C : Z) : option (Z * Z * Z) :=
  let integral := get_integral_volume (ff_grid st) in
  first_some (fun z =>
    first_some (fun y =>
      first_some (fun x =>
        if is_free integral (x, y, z) (A, B, C) then Some (x, y, z) else None)
      (range (ff_W st - A + 1)))
    (range (ff_L st - B + 1)))
  (range (ff_H st - C + 1)).

(** Body of the innermost loop of [FirstFit.allocate]: mark the cell and
    record [mapping[job_idx] = torus_idx]. *)
Definition ff_alloc_cell (st : FirstFit) (A B C x0 y0 z0 a b c : Z)
    (acc : grid3 * gmap Z Z) : grid3 * gmap Z Z :=
  let '(g, mapping) := acc in
  let '(px, py, pz) := (x0 + a, y0 + b, z0 + c) in
  let g' := grid_set g px py pz in
  let job_idx := coord_to_linear_index a b c (A, B, C) in
  let torus_idx := coord_to_linear_index px py pz (ff_W st, ff_L st, ff_H st) in
  (g', <[job_idx := torus_idx]> mapping).

(** [FirstFit.allocate]: returns the mapping (if any) and the new object. *)
Definition FirstFit_allocate (st : FirstFit) (shape : Z * Z * Z)
    : option (gmap Z Z) * FirstFit :=
  let '(A, B, C) := shape in
  match find_placement st A B C with
  | None => (None, st)
  | Some (x0, y0, z0) =>
      let '(g', mapping) :=
        fold_left (fun acc c =>
          fold_left (fun acc b =>
            fold_left (fun acc a => ff_alloc_cell st A B C x0 y0 z0 a b c acc)
              (range A) acc)
            (range B) acc)
          (range C) (ff_grid st, ∅) in
      (Some mapping, mkFirstFit (ff_W st) (ff_L st) (ff_H st) g')
  end.

(** The placement key [f"{name}-{j_idx}"]. *)
Definition placement_key (name : string) (j_idx : Z) : string :=
  name +:+ "-" +:+ pretty j_idx.

(** [for j_idx in sorted(mapping.keys()): placement[...] = mapping[j_idx]] *)
Definition merge_job (name : string) (mapping : gmap Z Z)
    (placement : gmap string Z) : gmap string Z :=
  fold_left (fun p j_idx => <[placement_key name j_idx := mapping !!! j_idx]> p)
    (merge_sort Z.le (map_to_list mapping).*1) placement.

(** The loop over the jobs of [firstfit_placement]; [if not mapping]
    rejects both [None] and an empty dict. *)
Fixpoint firstfit_loop (FF : FirstFit) (jobs : list (string * (Z * Z * Z)))
    (placement : gmap string Z) : result (gmap string Z) :=
  match jobs with
  | [] => Ok placement
  | (name, shape) :: rest =>
      match FirstFit_allocate FF shape with
      | (Some mapping, FF') =>
          if decide (mapping = ∅) then Err RuntimeError
          else firstfit_loop FF' rest (merge_job name mapping placement)
      | (None, _) => Err RuntimeError
      end
  end.

(** [firstfit_placement(torus_dims, jobs)]; [jobs] lists the items of the
    jobs dict in its iteration order. *)
Definition firstfit_placement (torus_dims : Z * Z * Z)
    (jobs : list (string * (Z * Z * Z))) : result (gmap string Z) :=
  let '(W, L, H) := torus_dims in
  firstfit_loop (FirstFit_init W L H) jobs ∅.

(** [seq[:n]] for a Python slice with an integer bound. *)
Definition py_slice_to {A} (l : list A) (n : Z) : list A :=
  if 0 <=? n then firstn (Z.to_nat n) l
  else firstn (Z.to_nat (Z.of_nat (length l) + n)) l.

(* ===================================================================== *)
(** ** Space-Filling-Curve (class SpaceFillingCurve) *)
(* ===================================================================== *)

(** The Hilbert curve of the external [hilbertcurve] package is a
    parameter of the definitions below: [distance_from_point p pt] is
    [HilbertCurve(p, 3).distances_from_points] on one point and
    [point_from_distance p d] is [points_from_distances] on one distance. *)

Record SpaceFillingCurve := mkSFC {
  sfc_W : Z; sfc_L : Z; sfc_H : Z;
  sfc_grid : grid3
}.

Definition SpaceFillingCurve_init (W L H : Z) : SpaceFillingCurve :=
  mkSFC W L H empty_grid.

(** [P = math.ceil(math.log2(max(W, L, H)))] *)
Definition sfc_iterations (st : SpaceFillingCurve) : Z :=
  Z.log2_up (Z.max (sfc_W st) (Z.max (sfc_L st) (sfc_H st))).

(** [np.argwhere(self.grid == 0)]: free cells in C order (x slowest). *)
Definition argwhere_free (W L H : Z) (g : grid3) : list (Z * Z * Z) :=
  flat_map (fun x =>
    flat_map (fun y =>
      flat_map (fun z => if g x y z then [] else [(x, y, z)]) (range H))
    (range L))
  (range W).

(** [SpaceFillingCurve._fetch_availability] *)
Definition fetch_availability (distance_from_point : Z -> Z * Z * Z -> Z)
    (st : SpaceFillingCurve) : list Z :=
  let free_coords := argwhere_free (sfc_W st) (sfc_L st) (sfc_H st) (sfc_grid st) in
  let distances := map (distance_from_point (sfc_iterations st)) free_coords in
  merge_sort Z.le distances.

(** [SpaceFillingCurve.allocate]; the mapping [{i: ...}] for [i] in
    [range(N)] is the list of its values. *)
Definition SFC_allocate (distance_from_point : Z -> Z * Z * Z -> Z)
    (point_from_distance : Z -> Z -> Z * Z * Z)
    (st : SpaceFillingCurve) (shape : Z * Z * Z)
    : option (list Z) * SpaceFillingCurve :=
  let '(A, B, C) := shape in
  let N := A * B * C in
  let available_indices := fetch_availability distance_from_point st in
  if Z.of_nat (length available_indices) <? N then (None, st)
  else
    let alloc_coords :=
      map (point_from_distance (sfc_iterations st)) (py_slice_to available_indices N) in
    let '(g', mapping) :=
      fold_left (fun '(g, mapping) i =>
        let '(x, y, z) := nth (Z.to_nat i) alloc_coords (0, 0, 0) in
        (grid_set g x y z,
         mapping ++ [coord_to_linear_index x y z (sfc_W st, sfc_L st, sfc_H st)]))
        (range N) (sfc_grid st, []) in
    (Some mapping, mkSFC (sfc_W st) (sfc_L st) (sfc_H st) g').

(* ===================================================================== *)
(** ** L1-Clustering (class L1Clustering) *)
(* ===================================================================== *)

Record L1Clustering := mkL1 {
  l1_W : Z; l1_L : Z; l1_H : Z;
  l1_grid : grid3
}.

Definition L1Clustering_init (W L H : Z) : L1Clustering := mkL1 W L H empty_grid.

(** [self.coords[idx]]: [np.indices((W, L, H))] stacked and reshaped to
    [(-1, 3)] lists the cells in C order, so row [idx] is the cell of
    flat index [idx = x*L*H + y*H + z]. *)
Definition l1_coord (st : L1Clustering) (idx : Z) : Z * Z * Z :=
  (idx / (l1_L st * l1_H st), (idx / l1_H st) mod l1_L st, idx mod l1_H st).

Definition l1_ncells (st : L1Clustering) : Z := l1_W st * l1_L st * l1_H st.

(** [self.grid.flatten()] (as occupancy bits). *)
Definition l1_flatten (st : L1Clustering) : list bool :=
  map (fun idx => let '(x, y, z) := l1_coord st idx in l1_grid st x y z)
    (range (l1_ncells st)).

(** [np.where(l == 0)[0]] for a list starting at position [i]. *)
Fixpoint where_false_from (i : Z) (l : list bool) : list Z :=
  match l with
  | [] => []
  | b :: l' => if b then where_false_from (i + 1) l' else i :: where_false_from (i + 1) l'
  end.

(** [L1Clustering._get_torus_distance(center_coord)], one entry per row
    of [self.coords]. *)
Definition get_torus_distance (st : L1Clustering) (center : Z * Z * Z) : list Z :=
  map (fun idx => torus_l1_distance (l1_W st, l1_L st, l1_H st) (l1_coord st idx) center)
    (range (l1_ncells st)).

(** [l[::step]]: the elements at positions [0, step, 2*step, ...];
    [skip] counts the elements still to drop before the next kept one. *)
Fixpoint py_stride_from {A} (skip step : nat) (l : list A) : list A :=
  match l with
  | [] => []
  | a :: l' =>
      match skip with
      | O => a :: py_stride_from (step - 1)%nat step l'
      | S skip' => py_stride_from skip' step l'
      end
  end.

Definition py_stride {A} (l : list A) (step : Z) : list A :=
  py_stride_from 0 (Z.to_nat step) l.

(** [arr[idx_list]]: numpy fancy indexing. *)
Definition py_gather (arr : list Z) (idxs : list Z) : list Z :=
  map (fun i => nth (Z.to_nat i) arr 0) idxs.

(** Body of the loop over the sampled centers: [best] is
    [(best_cost, best_selection)], with [None] for [float("inf")] and
    [None] respectively.  [argpartition] is [np.argpartition] (a
    permutation of the positions of its argument that puts the [kth]
    smallest value in place); its choice among ties is numpy's. *)
Definition l1_eval_center (argpartition : list Z -> Z -> list Z)
    (st : L1Clustering) (k : Z) (idle_indices : list Z)
    (best : option Z * option (list Z)) (center_idx : Z)
    : option Z * option (list Z) :=
  let '(best_cost, best_selection) := best in
  let center_coord := l1_coord st center_idx in
  let distances := get_torus_distance st center_coord in
  let idle_distances := py_gather distances idle_indices in
  let k_closest_local_idx :=
    if Z.of_nat (length idle_distances) =? k then range k
    else py_slice_to (argpartition idle_distances (k - 1)) k in
  let current_cost := sum_list (py_gather idle_distances k_closest_local_idx) in
  let better := match best_cost with None => true | Some c => current_cost <? c end in
  if better then (Some current_cost, Some (py_gather idle_indices k_closest_local_idx))
  else (best_cost, best_selection).

(** [L1Clustering.allocate]; the mapping [{i: ...}] built with
    [enumerate] is the list of its values. *)
Definition L1_allocate (argpartition : list Z -> Z -> list Z)
    (st : L1Clustering) (shape : Z * Z * Z) : option (list Z) * L1Clustering :=
  let '(A, B, C) := shape in
  let k := A * B * C in
  let idle_indices := where_false_from 0 (l1_flatten st) in
  if Z.of_nat (length idle_indices) <? k then (None, st)
  else
    let step := Z.max 1 (Z.of_nat (length idle_indices) / 100) in
    let '(_, best_selection) :=
      fold_left (l1_eval_center argpartition st k idle_indices)
        (py_stride idle_indices step) (None, None) in
    match best_selection with
    | None => (None, st)
    | Some sel =>
        let sorted_sel := merge_sort Z.le sel in
        let '(g', mapping) :=
          fold_left (fun '(g, mapping) idx =>
            let '(x, y, z) := l1_coord st idx in
            (grid_set g x y z,
             mapping ++ [coord_to_linear_index x y z (l1_W st, l1_L st, l1_H st)]))
            sorted_sel (l1_grid st, []) in
        (Some mapping, mkL1 (l1_W st) (l1_L st) (l1_H st) g')
    end.

(* ===================================================================== *)
(** ** Block decomposition and the driver (tools/place.py) *)
(* ===================================================================== *)

(** [range(start, stop, step)] for a non-zero step (a zero block size
    never reaches a [range] call: [dim % 0] raises first). *)
Definition range_step (start stop step : Z) : list Z :=
  let n :=
    if 0 <? step then (stop - start + step - 1) / step
    else if step <? 0 then (start - stop - step - 1) / (- step)
    else 0 in
  map (fun i => start + i * step) (range n).

(** [itertools.product(l1, l2, l3)]: last factor fastest. *)
Definition product3 (l1 l2 l3 : list Z) : list (Z * Z * Z) :=
  flat_map (fun a => flat_map (fun b => map (fun c => (a, b, c)) l3) l2) l1.

(** [init_torus_blocks(dims, B)] *)
Definition init_torus_blocks (dims : Z * Z * Z) (B : Z) : result (list (list Z)) :=
  let '(W, L, H) := dims in
  if B =? 0 then Err ZeroDivisionError
  else if existsb (fun dim => negb (dim mod B =? 0)) [W; L; H]
  then Err (ValueError BlockNotDividingTorus)
  else Ok (map (fun '(z_start, y_start, x_start) =>
             map (fun '(z, y, x) => z * (L * W) + y * W + x)
               (product3 (range_step z_start (z_start + B) 1)
                         (range_step y_start (y_start + B) 1)
                         (range_step x_start (x_start + B) 1)))
           (product3 (range_step 0 H B) (range_step 0 L B) (range_step 0 W B))).

(** The blocks of one job of shape [(D, T, P)] in [init_job_blocks]. *)
Definition job_blocks_of (dims : Z * Z * Z) (B : Z) : list (list Z) :=
  let '(D, T, P) := dims in
  map (fun '(p_start, t_start, d_start) =>
         map (fun '(p, t, d) => p * (T * D) + t * D + d)
           (product3 (range_step p_start (p_start + B) 1)
                     (range_step t_start (t_start + B) 1)
                     (range_step d_start (d_start + B) 1)))
      (product3 (range_step 0 P B) (range_step 0 T B) (range_step 0 D B)).

(** [init_job_blocks(jobs, B)]: the dict as its list of items. *)
Definition init_job_blocks (jobs : list (string * (Z * Z * Z))) (B : Z)
    : list (string * list (list Z)) :=
  map (fun '(name, dims) => (name, job_blocks_of dims B)) jobs.

(** [list.pop(i)] *)
Definition py_pop {A} (l : list A) (i : Z) : result (A * list A) :=
  if (0 <=? i) && (i <? Z.of_nat (length l)) then
    match nth_error l (Z.to_nat i) with
    | Some a => Ok (a, firstn (Z.to_nat i) l ++ skipn (S (Z.to_nat i)) l)
    | None => Err IndexError
    end
  else Err IndexError.

(** The assignment of one job block in [block_placement]; [draws] are the
    successive values returned by [random.randrange] (used only when
    [is_random]). *)
Definition place_block (job_name : string) (is_random : bool)
    (acc : result (list (list Z) * list Z * gmap string Z)) (j_block : list Z)
    : result (list (list Z) * list Z * gmap string Z) :=
  match acc with
  | Err e => Err e
  | Ok (torus_blocks, draws, placement) =>
      let ptr_draws :=
        if is_random then
          if (length torus_blocks =? 0)%nat then Err (ValueError EmptyRandRange)
          else match draws with
               | d :: ds => Ok (d mod Z.of_nat (length torus_blocks), ds)
               | [] => Ok (0, [])
               end
        else Ok (0, draws) in
      match ptr_draws with
      | Err e => Err e
      | Ok (block_ptr, draws') =>
          match py_pop torus_blocks block_ptr with
          | Err e => Err e
          | Ok (t_block, torus_blocks') =>
              Ok (torus_blocks', draws',
                  fold_left (fun p '(j_node, t_node) =>
                               <[placement_key job_name j_node := t_node]> p)
                    (combine j_block t_block) placement)
          end
      end
  end.

(** Order of [sorted] on the items of the job-blocks dict (names are
    unique dict keys, so only they are compared). *)
Definition job_name_le (a b : string * list (list Z)) : Prop :=
  String.leb a.1 b.1 = true.

#[local] Instance job_name_le_dec : RelDecision job_name_le :=
  fun a b => decide (String.leb a.1 b.1 = true).

(** [block_placement(torus_blocks, job_blocks, is_random)]; the jobs are
    visited in name order ([dict(sorted(job_blocks.items()))]). *)
Definition block_placement (torus_blocks : list (list Z))
    (job_blocks : list (string * list (list Z))) (is_random : bool)
    (draws : list Z) : result (gmap string Z) :=
  let sorted_jobs :=
    merge_sort job_name_le job_blocks in
  match fold_left (fun acc '(job_name, j_blocks) =>
                     fold_left (place_block job_name is_random) j_blocks acc)
          sorted_jobs (Ok (torus_blocks, draws, ∅)) with
  | Ok (_, _, placement) => Ok placement
  | Err e => Err e
  end.

(** [math.prod] of a shape. *)
Definition volume (dims : Z * Z * Z) : Z :=
  let '(a, b, c) := dims in a * b * c.

(** The [__main__] block of [place.py] after parsing: the capacity check,
    then the chosen policy; [Ok placement] is what [dump] writes. *)
Definition place_main (torus_dims : Z * Z * Z) (block_size : Z)
    (jobs : list (string * (Z * Z * Z))) (policy : string) (is_random : bool)
    (draws : list Z) : result (gmap string Z) :=
  let total_job_size := sum_list (map (fun '(_, dims) => volume dims) jobs) in
  let torus_size := volume torus_dims in
  if torus_size <? total_job_size then Err (ValueError CapacityExceeded)
  else if String.eqb policy "firstfit" then firstfit_placement torus_dims jobs
  else if existsb (fun '(_, dims) =>
                     let '(a, b, c) := dims in Z.min (Z.min a b) c <? block_size) jobs
  then Err (ValueError BlockLargerThanJob)
  else match init_torus_blocks torus_dims block_size with
       | Err e => Err e
       | Ok torus_blocks =>
           block_placement torus_blocks (init_job_blocks jobs block_size) is_random draws
       end.

(* ===================================================================== *)
(** ** Specification predicates *)
(* ===================================================================== *)

(** Every cell of the [A x B x C] box at [(x, y, z)] is free. *)
Definition box_free (g : grid3) (x y z A B C : Z) : Prop :=
  forall a b c, x <= a < x + A -> y <= b < y + B -> z <= c < z + C -> g a b c = false.

(** An origin scanned by [find_placement]: the box lies inside the grid. *)
Definition valid_origin (st : FirstFit) (A B C x y z : Z) : Prop :=
  0 <= x <= ff_W st - A /\ 0 <= y <= ff_L st - B /\ 0 <= z <= ff_H st - C.

(** [(x', y', z')] comes before [(x, y, z)] in the (z, y, x) scan order. *)
Definition scan_before (x' y' z' x y z : Z) : Prop :=
  z' < z \/ (z' = z /\ (y' < y \/ (y' = y /\ x' < x))).

(** What the loop of [FirstFit.allocate] has built so far: the grid only
    gains occupied cells, and every entry of the mapping comes from a
    box cell [(a, b, c)] that is now occupied. *)
Definition ff_alloc_inv (st : FirstFit) (A B C x0 y0 z0 : Z)
    (s : grid3 * gmap Z Z) : Prop :=
  (forall x y z, ff_grid st x y z = true -> s.1 x y z = true) /\
  (forall j v, s.2 !! j = Some v ->
     exists a b c, 0 <= a < A /\ 0 <= b < B /\ 0 <= c < C /\
       j = coord_to_linear_index a b c (A, B, C) /\
       v = coord_to_linear_index (x0 + a) (y0 + b) (z0 + c) (ff_W st, ff_L st, ff_H st) /\
       s.1 (x0 + a) (y0 + b) (z0 + c) = true).

(** No value of the dict is stored under two keys. *)
Definition map_injective {K} `{Countable K} (t : gmap K Z) : Prop :=
  forall k1 k2 v, t !! k1 = Some v -> t !! k2 = Some v -> k1 = k2.

(** The placement table built so far: no value under two keys, and every
    value is the linear index of an occupied cell of the torus. *)
Definition table_inv (W L H : Z) (g : grid3) (t : gmap string Z) : Prop :=
  map_injective t /\
  forall k v, t !! k = Some v ->
    exists x y z, in_box W L H x y z /\ v = coord_to_linear_index x y z (W, L, H) /\
                  g x y z = true.

(** Row of [L1Clustering.coords] holding cell [(x, y, z)]: its numpy
    C-order flat index [x*L*H + y*H + z] (x slowest, z fastest), the
    index [grid.flatten()] gives it. *)
Definition flat_index (dims : Z * Z * Z) (c : Z * Z * Z) : Z :=
  let '(W, L, H) := dims in
  let '(x, y, z) := c in
  x * L * H + y * H + z.

(** The value [L1Clustering.allocate] stores for the flat index [idx]. *)
Definition l1_torus_index (st : L1Clustering) (idx : Z) : Z :=
  let '(x, y, z) := l1_coord st idx in
  coord_to_linear_index x y z (l1_W st, l1_L st, l1_H st).

(** The selection [idle_indices[k_closest_local_idx]] that
    [L1Clustering.allocate] computes for the center [center_idx]. *)
Definition l1_candidate (argpartition : list Z -> Z -> list Z) (st : L1Clustering)
    (k : Z) (idle_indices : list Z) (center_idx : Z) : list Z :=
  let idle_distances :=
    py_gather (get_torus_distance st (l1_coord st center_idx)) idle_indices in
  py_gather idle_indices
    (if Z.of_nat (length idle_distances) =? k then range k
     else py_slice_to (argpartition idle_distances (k - 1)) k).

(* ===================================================================== *)
(** ** Reading the jobspec file (tools/place.py) *)
(* ===================================================================== *)

(** [str.isspace] on an ASCII character: [\t \n \v \f \r], the
    separators [\x1c .. \x1f] and the space. *)
Definition py_isspace (c : Ascii.ascii) : bool :=
  let n := Ascii.nat_of_ascii c in
  ((9 <=? n) && (n <=? 13))%nat || ((28 <=? n) && (n <=? 32))%nat.

Fixpoint py_lstrip (s : string) : string :=
  match s with
  | EmptyString => EmptyString
  | String c s' => if py_isspace c then py_lstrip s' else s
  end.

Fixpoint py_rstrip (s : string) : string :=
  match s with
  | EmptyString => EmptyString
  | String c s' =>
      let r := py_rstrip s' in
      if String.eqb r EmptyString && py_isspace c then EmptyString else String c r
  end.

(** [str.strip()] *)
Definition py_strip (s : string) : string := py_rstrip (py_lstrip s).

(** [str.split(",")] *)
Fixpoint py_split_comma (s : string) : list string :=
  match s with
  | EmptyString => [EmptyString]
  | String c s' =>
      match py_split_comma s' with
      | [] => []
      | w :: ws => if Ascii.eqb c ","%char then EmptyString :: w :: ws else String c w :: ws
      end
  end.

(** [d[k] = v] on a dict kept as its items in insertion order: an
    existing key keeps its position. *)
Fixpoint dict_set {V} (k : string) (v : V) (d : list (string * V)) : list (string * V) :=
  match d with
  | [] => [(k, v)]
  | (k', v') :: d' => if String.eqb k k' then (k, v) :: d' else (k', v') :: dict_set k v d'
  end.

(** [d.get(k)] *)
Fixpoint dict_get {V} (k : string) (d : list (string * V)) : option V :=
  match d with
  | [] => None
  | (k', v) :: d' => if String.eqb k k' then Some v else dict_get k d'
  end.

(** The exceptions [parse_jobspec] raises. *)
Inductive jobspec_error :=
  | ColumnCount (line : string)  (* RuntimeError "Incorrect number of columns" *)
  | IntParse                     (* ValueError of [int()] *).

(** The loop of [parse_jobspec] over the lines of the file; [py_int] is
    [int()] on one column ([None] when it raises). *)
Fixpoint parse_lines (py_int : string -> option Z) (lines : list string)
    (jobs : list (string * (Z * Z * Z))) : list (string * (Z * Z * Z)) + jobspec_error :=
  match lines with
  | [] => inl jobs
  | raw :: rest =>
      let line := py_strip raw in
      if String.eqb line EmptyString || String.prefix "#" line then parse_lines py_int rest jobs
      else
        match py_split_comma line with
        | [name; a; b; c] =>
            match py_int a, py_int b, py_int c with
            | Some x, Some y, Some z => parse_lines py_int rest (dict_set name (x, y, z) jobs)
            | _, _, _ => inr IntParse
            end
        | _ => inr (ColumnCount line)
        end
  end.

(** [parse_jobspec(file_path)] on the lines of the file. *)
Definition parse_jobspec (py_int : string -> option Z) (lines : list string)
    : list (string * (Z * Z * Z)) + jobspec_error :=
  parse_lines py_int lines [].

(* ===================================================================== *)
(** ** Auxiliary predicates of the further properties *)
(* ===================================================================== *)

(** What [block_placement] keeps along its loop, [tb0] being the initial
    torus blocks. *)
Definition block_inv (tb0 : list (list Z))
    (acc : result (list (list Z) * list Z * gmap string Z)) : Prop :=
  match acc with
  | Err _ => True
  | Ok (tb, _, p) =>
      List.NoDup (concat tb) /\ (forall v, In v (concat tb) -> In v (concat tb0)) /\
      map_injective p /\
      (forall k v, p !! k = Some v -> In v (concat tb0) /\ ~ In v (concat tb))
  end.

(** [current_cost] of a candidate center in [L1Clustering.allocate]. *)
Definition l1_cost (argpartition : list Z -> Z -> list Z) (st : L1Clustering)
    (k : Z) (idle_indices : list Z) (center_idx : Z) : Z :=
  let idle_distances :=
    py_gather (get_torus_distance st (l1_coord st center_idx)) idle_indices in
  sum_list (py_gather idle_distances
    (if Z.of_nat (length idle_distances) =? k then range k
     else py_slice_to (argpartition idle_distances (k - 1)) k)).

(** What the loop over the sampled centers keeps: the best pair is the
    cost and selection of a cheapest center seen so far. *)
Definition l1_best_inv (argpartition : list Z -> Z -> list Z) (st : L1Clustering)
    (k : Z) (idle : list Z) (seen : list Z) (best : option Z * option (list Z)) : Prop :=
  (seen = [] /\ best = (None, None)) \/
  exists c, In c seen /\
    best = (Some (l1_cost argpartition st k idle c), Some (l1_candidate argpartition st k idle c)) /\
    forall c', In c' seen -> l1_cost argpartition st k idle c <= l1_cost argpartition st k idle c'.

(** The characters of [pretty x] for [x : N] are decimal digits. *)
Definition no_dash (s : string) : Prop := forall s1 s2, s <> s1 +:+ "-" +:+ s2.


(* ===================================================================== *)
(** * Properties *)
(* ===================================================================== *)

(* --------------------------------------------------------------------- *)
(** ** Lists, ranges and loops *)
(* --------------------------------------------------------------------- *)

Lemma In_zseq (lo i : Z) (n : nat) : In i (zseq lo n) <-> lo <= i < lo + Z.of_nat n.
Proof.
  revert lo. induction n as [|n IH]; intros lo; simpl.
  - lia.
  - rewrite IH. lia.
Qed.

Lemma In_range (i n : Z) : In i (range n) <-> 0 <= i < n.
Proof. unfold range. rewrite In_zseq. lia. Qed.

Lemma range_nonpos (n : Z) : n <= 0 -> range n = [].
Proof. intros Hn. unfold range. now replace (Z.to_nat n) with 0%nat by lia. Qed.

Lemma first_some_all_none {A B} (f : A -> option B) (l : list A) :
  (forall a, In a l -> f a = None) -> first_some f l = None.
Proof.
  induction l as [|a l IH]; intros Hall; simpl; [reflexivity|].
  rewrite (Hall a) by (left; reflexivity). apply IH. intros a' Ha'. apply Hall. now right.
Qed.

Lemma first_some_none_inv {A B} (f : A -> option B) (l : list A) :
  first_some f l = None -> forall a, In a l -> f a = None.
Proof.
  induction l as [|a l IH]; simpl; [tauto|].
  destruct (f a) eqn:E; [discriminate|].
  intros H a' [<-|Ha']; auto.
Qed.

(** The first hit of a loop over [range(lo, lo + n)]. *)
Lemma first_some_zseq {B} (f : Z -> option B) (lo : Z) (n : nat) (b : B) :
  first_some f (zseq lo n) = Some b ->
  exists i, lo <= i < lo + Z.of_nat n /\ f i = Some b /\
            forall i', lo <= i' < i -> f i' = None.
Proof.
  revert lo. induction n as [|n IH]; intros lo; simpl; [discriminate|].
  destruct (f lo) eqn:E.
  - intros [= <-]. exists lo. split; [lia|]. split; [exact E|]. intros; lia.
  - intros H. destruct (IH (lo + 1) H) as (i & Hi & Hfi & Hmin).
    exists i. split; [lia|]. split; [exact Hfi|].
    intros i' Hi'. destruct (Z.eq_dec i' lo) as [->|Hne]; [exact E|]. apply Hmin. lia.
Qed.

Lemma first_some_range {B} (f : Z -> option B) (n : Z) (b : B) :
  first_some f (range n) = Some b ->
  exists i, 0 <= i < n /\ f i = Some b /\ forall i', 0 <= i' < i -> f i' = None.
Proof.
  unfold range. intros H. destruct (first_some_zseq f 0 _ b H) as (i & Hi & Hf & Hm).
  exists i. split; [lia|]. auto.
Qed.

(* --------------------------------------------------------------------- *)
(** ** Coordinate mapper *)
(* --------------------------------------------------------------------- *)

Lemma linear_index_decode (W L H x y z : Z) :
  0 < W -> 0 < L -> in_box W L H x y z ->
  linear_index_to_coord (z * L * W + y * W + x) (W, L, H) = (x, y, z).
Proof.
  intros HW HL (Hx & Hy & Hz). unfold linear_index_to_coord.
  assert (Hq : (z * L * W + y * W + x) / W = z * L + y)
    by (symmetry; apply Z.div_unique with x; lia).
  assert (Hr : (z * L * W + y * W + x) mod W = x)
    by (symmetry; apply Z.mod_unique with (z * L + y); lia).
  assert (Hy' : (z * L + y) mod L = y)
    by (symmetry; apply Z.mod_unique with z; lia).
  assert (Hz' : (z * L * W + y * W + x) / (L * W) = z)
    by (symmetry; apply Z.div_unique with (y * W + x);
        [left; split; [nia|]; assert (y * W <= (L - 1) * W) by nia; nia | ring]).
  rewrite Hq, Hr, Hy', Hz'. reflexivity.
Qed.

(** Distinct cells of the torus have distinct linear indices. *)
Lemma linear_index_inj (W L H x y z x' y' z' : Z) :
  0 < W -> 0 < L -> in_box W L H x y z -> in_box W L H x' y' z' ->
  coord_to_linear_index x y z (W, L, H) = coord_to_linear_index x' y' z' (W, L, H) ->
  x = x' /\ y = y' /\ z = z'.
Proof.
  intros HW HL Hb Hb' Heq. simpl in Heq.
  pose proof (linear_index_decode W L H x y z HW HL Hb) as D.
  pose proof (linear_index_decode W L H x' y' z' HW HL Hb') as D'.
  rewrite Heq in D. rewrite D in D'. injection D'. intros; subst; auto.
Qed.

Lemma linear_index_bounds (W L H x y z : Z) :
  in_box W L H x y z -> 0 <= coord_to_linear_index x y z (W, L, H) < W * L * H.
Proof.
  intros (Hx & Hy & Hz). simpl.
  assert (y * W <= (L - 1) * W) by nia.
  assert (0 <= L * W) by nia.
  assert (z * (L * W) <= (H - 1) * (L * W)) by (apply Z.mul_le_mono_nonneg_r; lia).
  assert (0 <= z * (L * W)) by nia. assert (0 <= y * W) by nia.
  replace (z * L * W) with (z * (L * W)) by ring.
  replace (W * L * H) with (H * (L * W)) by ring. nia.
Qed.

(** Claim C8: for positive dimensions (W, L, H) and a coordinate inside
    the torus, [coord_to_linear_index] returns [z*(L*W) + y*W + x], and
    decoding that index with x fastest and z slowest gives back
    [(x, y, z)]. *)
Theorem coord_to_linear_index_roundtrip (W L H x y z : Z) :
  0 < W -> 0 < L -> 0 < H -> 0 <= x < W -> 0 <= y < L -> 0 <= z < H ->
  coord_to_linear_index x y z (W, L, H) = z * (L * W) + y * W + x /\
  linear_index_to_coord (coord_to_linear_index x y z (W, L, H)) (W, L, H) = (x, y, z).
Proof.
  intros HW HL HH Hx Hy Hz. split.
  - simpl. ring.
  - apply linear_index_decode; try assumption. repeat split; lia.
Qed.

(** Claim C9: the wrap-around L1 distance between two cells of a torus
    with positive dimensions is symmetric, is 0 from a cell to itself,
    and an axis of size 1 contributes 0 to it. *)
Theorem torus_l1_distance_sym_refl (W L H ax ay az bx by_ bz : Z) :
  0 < W -> 0 < L -> 0 < H ->
  in_box W L H ax ay az -> in_box W L H bx by_ bz ->
  torus_l1_distance (W, L, H) (ax, ay, az) (bx, by_, bz)
    = torus_l1_distance (W, L, H) (bx, by_, bz) (ax, ay, az) /\
  torus_l1_distance (W, L, H) (ax, ay, az) (ax, ay, az) = 0 /\
  (W = 1 -> axis_distance W ax bx = 0) /\
  (L = 1 -> axis_distance L ay by_ = 0) /\
  (H = 1 -> axis_distance H az bz = 0).
Proof.
  intros HW HL HH (Hax & Hay & Haz) (Hbx & Hby & Hbz).
  unfold torus_l1_distance, axis_distance.
  repeat split; intros; lia.
Qed.

(* --------------------------------------------------------------------- *)
(** ** The driver *)
(* --------------------------------------------------------------------- *)

(** Claim C5: when the summed volume of the jobs exceeds the torus
    volume, the run stops with the capacity error, whatever the policy,
    block size or random draws: no policy runs and no placement is
    produced. *)
Theorem place_main_capacity_error (torus_dims : Z * Z * Z) (block_size : Z)
    (jobs : list (string * (Z * Z * Z))) (policy : string) (is_random : bool)
    (draws : list Z) :
  volume torus_dims < sum_list (map (fun '(_, dims) => volume dims) jobs) ->
  place_main torus_dims block_size jobs policy is_random draws
    = Err (ValueError CapacityExceeded).
Proof.
  intros Hcap. unfold place_main.
  replace (volume torus_dims <? sum_list (map (fun '(_, dims) => volume dims) jobs))
    with true by (symmetry; apply Z.ltb_lt; exact Hcap).
  reflexivity.
Qed.

Lemma place_main_capacity_error_witness :
  volume (4, 4, 4) < sum_list (map (fun '(_, dims) => volume dims)
                                 [("a", (5, 13, 1))]) /\
  place_main (4, 4, 4) 2 [("a", (5, 13, 1))] "firstfit" false []
    = Err (ValueError CapacityExceeded).
Proof.
  split.
  - vm_compute. reflexivity.
  - apply place_main_capacity_error. vm_compute. reflexivity.
Defined.

(** Claim C3 (code_bug): the block path checks that the block size
    divides the torus dimensions and does not exceed a job's smallest
    dimension, but never that it divides the job dimensions.  A job of
    shape (3, 2, 2) with blocks of size 2 on a 4x4x4 torus is placed
    without error, and the placement has the key "a-12", outside the
    job's local range 0..11. *)
Theorem place_main_block_nondivisible_job :
  3 mod 2 <> 0 /\
  match place_main (4, 4, 4) 2 [("a", (3, 2, 2))] "block" false [] with
  | Ok placement => placement !! "a-12" = Some 23
  | Err _ => False
  end.
Proof. split; vm_compute; [discriminate | reflexivity]. Qed.

(* --------------------------------------------------------------------- *)
(** ** First-Fit: no wrap-around *)
(* --------------------------------------------------------------------- *)

Lemma find_placement_too_big (st : FirstFit) (A B C : Z) :
  ff_W st < A \/ ff_L st < B \/ ff_H st < C -> find_placement st A B C = None.
Proof.
  intros Hbig. unfold find_placement.
  apply first_some_all_none. intros z Hz.
  apply first_some_all_none. intros y Hy.
  apply first_some_all_none. intros x Hx.
  apply In_range in Hx, Hy, Hz. lia.
Qed.

(** Claim C10: First-Fit does not wrap around the torus: a shape longer
    than the torus along some axis is refused ([None]) whatever the
    grid, and a refused allocation leaves the object (and its grid)
    unchanged. *)
Theorem FirstFit_allocate_no_wrap :
  (forall (st : FirstFit) (A B C : Z),
     ff_W st < A \/ ff_L st < B \/ ff_H st < C ->
     fst (FirstFit_allocate st (A, B, C)) = None) /\
  (forall (st : FirstFit) (shape : Z * Z * Z),
     fst (FirstFit_allocate st shape) = None -> snd (FirstFit_allocate st shape) = st).
Proof.
  split.
  - intros st A B C Hbig. simpl. rewrite find_placement_too_big by exact Hbig.
    reflexivity.
  - intros st [[A B] C]. simpl.
    destruct (find_placement st A B C) as [[[x0 y0] z0]|]; simpl; [|reflexivity].
    destruct (fold_left _ _ _). discriminate.
Qed.

Lemma FirstFit_allocate_no_wrap_witness :
  fst (FirstFit_allocate (FirstFit_init 2 2 2) (3, 1, 1)) = None.
Proof.
  apply (proj1 FirstFit_allocate_no_wrap). simpl. lia.
Defined.

Lemma torus_l1_distance_sym_refl_witness :
  torus_l1_distance (4, 1, 2) (3, 0, 1) (0, 0, 0)
    = torus_l1_distance (4, 1, 2) (0, 0, 0) (3, 0, 1) /\
  torus_l1_distance (4, 1, 2) (3, 0, 1) (3, 0, 1) = 0 /\
  (4 = 1 -> axis_distance 4 3 0 = 0) /\
  (1 = 1 -> axis_distance 1 0 0 = 0) /\
  (2 = 1 -> axis_distance 2 1 0 = 0).
Proof.
  apply (torus_l1_distance_sym_refl 4 1 2 3 0 1 0 0 0);
    try (unfold in_box; lia); lia.
Defined.

(* --------------------------------------------------------------------- *)
(** ** First-Fit: the prefix-sum box test *)
(* --------------------------------------------------------------------- *)

Lemma zseq_app (lo : Z) (n m : nat) :
  zseq lo (n + m) = zseq lo n ++ zseq (lo + Z.of_nat n) m.
Proof.
  revert lo. induction n as [|n IH]; intros lo; simpl.
  - now rewrite Z.add_0_r.
  - rewrite IH. do 3 f_equal. lia.
Qed.

Lemma sum_list_app (l1 l2 : list Z) : sum_list (l1 ++ l2) = sum_list l1 + sum_list l2.
Proof. induction l1 as [|a l1 IH]; simpl; lia. Qed.

Lemma sum_sub (f g : Z -> Z) (l : list Z) :
  sum_list (map f l) - sum_list (map g l) = sum_list (map (fun c => f c - g c) l).
Proof. induction l as [|a l IH]; simpl; lia. Qed.

Lemma sum_ext (f g : Z -> Z) (l : list Z) :
  (forall c, In c l -> f c = g c) -> sum_list (map f l) = sum_list (map g l).
Proof. intros H. f_equal. now apply map_ext_in. Qed.

Lemma sum_nonneg (f : Z -> Z) (l : list Z) :
  (forall c, In c l -> 0 <= f c) -> 0 <= sum_list (map f l).
Proof.
  induction l as [|a l IH]; simpl; intros Hpos; [lia|].
  assert (0 <= f a) by auto. assert (0 <= sum_list (map f l)) by auto. lia.
Qed.

Lemma sum_zero_iff (f : Z -> Z) (l : list Z) :
  (forall c, In c l -> 0 <= f c) ->
  (sum_list (map f l) = 0 <-> forall c, In c l -> f c = 0).
Proof.
  induction l as [|a l IH]; simpl; intros Hpos; [tauto|].
  assert (Hl : forall c, In c l -> 0 <= f c) by auto.
  pose proof (sum_nonneg f l Hl).
  specialize (IH Hl). assert (0 <= f a) by auto.
  split.
  - intros Hs c [<-|Hc]; [lia|]. apply IH; [lia|exact Hc].
  - intros Hall. rewrite (Hall a (or_introl eq_refl)).
    rewrite (proj2 IH (fun c Hc => Hall c (or_intror Hc))). lia.
Qed.

Lemma sum_zero (f : Z -> Z) (l : list Z) :
  (forall c, In c l -> f c = 0) -> sum_list (map f l) = 0.
Proof.
  induction l as [|a l IH]; simpl; intros H; [reflexivity|].
  rewrite H by auto. rewrite IH by auto. reflexivity.
Qed.

Lemma prefix_sum_neg (f : Z -> Z) (i : Z) : i < 0 -> prefix_sum f i = 0.
Proof. intros Hi. unfold prefix_sum. now rewrite range_nonpos by lia. Qed.

(** Difference of two [cumsum] entries: the sum over [lo..hi]. *)
Lemma prefix_diff (f : Z -> Z) (lo hi : Z) :
  0 <= lo <= hi + 1 ->
  prefix_sum f hi - prefix_sum f (lo - 1)
    = sum_list (map f (zseq lo (Z.to_nat (hi - lo + 1)))).
Proof.
  intros Hlo. unfold prefix_sum, range.
  replace (Z.to_nat (hi + 1)) with (Z.to_nat (lo - 1 + 1) + Z.to_nat (hi - lo + 1))%nat
    by lia.
  rewrite zseq_app, map_app, sum_list_app.
  replace (0 + Z.of_nat (Z.to_nat (lo - 1 + 1))) with lo by lia. lia.
Qed.

Lemma get_integral_volume_eq (g : grid3) (i j k : Z) :
  get_integral_volume g i j k =
  prefix_sum (fun c => prefix_sum (fun b => prefix_sum (fun a => Z.b2z (g a b c)) i) j) k.
Proof. reflexivity. Qed.

(** Out-of-range (negative) prefix indices read 0 from the integral
    itself, so the guard in [get_val] changes nothing. *)
Lemma get_val_integral (g : grid3) (i j k : Z) :
  (if (i <? 0) || (j <? 0) || (k <? 0) then 0 else get_integral_volume g i j k)
  = get_integral_volume g i j k.
Proof.
  rewrite get_integral_volume_eq.
  destruct (i <? 0) eqn:Ei; [|destruct (j <? 0) eqn:Ej; [|destruct (k <? 0) eqn:Ek]];
    simpl; try reflexivity.
  - apply Z.ltb_lt in Ei. symmetry. apply sum_zero. intros c _.
    apply sum_zero. intros b _. now apply prefix_sum_neg.
  - apply Z.ltb_lt in Ej. symmetry. apply sum_zero. intros c _.
    now apply prefix_sum_neg.
  - apply Z.ltb_lt in Ek. symmetry. now apply prefix_sum_neg.
Qed.

Lemma prefix_diff2 (f g : Z -> Z) (lo hi : Z) :
  0 <= lo <= hi + 1 ->
  (prefix_sum f hi - prefix_sum g hi) - (prefix_sum f (lo - 1) - prefix_sum g (lo - 1))
    = sum_list (map (fun c => f c - g c) (zseq lo (Z.to_nat (hi - lo + 1)))).
Proof.
  intros H. rewrite <- sum_sub, <- !prefix_diff by exact H. lia.
Qed.

(** The eight-corner test computes the number of occupied cells of the box. *)
Lemma is_free_box_sum (g : grid3) (x y z A B C : Z) :
  0 <= x -> 0 <= y -> 0 <= z -> 0 <= A -> 0 <= B -> 0 <= C ->
  is_free (get_integral_volume g) (x, y, z) (A, B, C) =
  (sum_list (map (fun c =>
     sum_list (map (fun b =>
       sum_list (map (fun a => Z.b2z (g a b c)) (zseq x (Z.to_nat A))))
     (zseq y (Z.to_nat B))))
   (zseq z (Z.to_nat C))) =? 0).
Proof.
  intros Hx Hy Hz HA HB HC.
  cbv beta iota zeta delta [is_free]. rewrite !get_val_integral. f_equal.
  set (I := get_integral_volume g).
  transitivity
    (((I (x + A - 1) (y + B - 1) (z + C - 1) - I (x - 1) (y + B - 1) (z + C - 1))
      - (I (x + A - 1) (y + B - 1) (z - 1) - I (x - 1) (y + B - 1) (z - 1)))
     - ((I (x + A - 1) (y - 1) (z + C - 1) - I (x - 1) (y - 1) (z + C - 1))
      - (I (x + A - 1) (y - 1) (z - 1) - I (x - 1) (y - 1) (z - 1)))).
  { ring. }
  unfold I. rewrite !get_integral_volume_eq.
  rewrite 2!(prefix_diff2 _ _ z (z + C - 1)) by lia.
  rewrite sum_sub. replace (z + C - 1 - z + 1) with C by ring.
  apply sum_ext. intros c _.
  rewrite (prefix_diff2 _ _ y (y + B - 1)) by lia.
  replace (y + B - 1 - y + 1) with B by ring.
  apply sum_ext. intros b _.
  rewrite (prefix_diff _ x (x + A - 1)) by lia.
  replace (x + A - 1 - x + 1) with A by ring. reflexivity.
Qed.

Lemma is_free_iff (g : grid3) (x y z A B C : Z) :
  0 <= x -> 0 <= y -> 0 <= z -> 0 <= A -> 0 <= B -> 0 <= C ->
  is_free (get_integral_volume g) (x, y, z) (A, B, C) = true <-> box_free g x y z A B C.
Proof.
  intros Hx Hy Hz HA HB HC. rewrite is_free_box_sum by assumption.
  rewrite Z.eqb_eq.
  rewrite sum_zero_iff; cycle 1.
  { intros c _. apply sum_nonneg. intros b _. apply sum_nonneg. intros a _.
    destruct (g a b c); simpl; lia. }
  unfold box_free. split.
  - intros Hall a b c Ha Hb Hc.
    assert (Hc' : In c (zseq z (Z.to_nat C))) by (apply In_zseq; lia).
    specialize (Hall c Hc').
    rewrite sum_zero_iff in Hall; cycle 1.
    { intros b' _. apply sum_nonneg. intros a' _. destruct (g a' b' c); simpl; lia. }
    assert (Hb' : In b (zseq y (Z.to_nat B))) by (apply In_zseq; lia).
    specialize (Hall b Hb').
    rewrite sum_zero_iff in Hall; cycle 1.
    { intros a' _. destruct (g a' b c); simpl; lia. }
    assert (Ha' : In a (zseq x (Z.to_nat A))) by (apply In_zseq; lia).
    specialize (Hall a Ha'). destruct (g a b c); simpl in Hall; congruence.
  - intros Hfree c Hc. apply In_zseq in Hc. apply sum_zero. intros b Hb.
    apply In_zseq in Hb. apply sum_zero. intros a Ha. apply In_zseq in Ha.
    rewrite Hfree by lia. reflexivity.
Qed.

Lemma find_placement_some (st : FirstFit) (A B C x y z : Z) :
  find_placement st A B C = Some (x, y, z) ->
  valid_origin st A B C x y z /\
  is_free (get_integral_volume (ff_grid st)) (x, y, z) (A, B, C) = true /\
  forall x' y' z', valid_origin st A B C x' y' z' -> scan_before x' y' z' x y z ->
    is_free (get_integral_volume (ff_grid st)) (x', y', z') (A, B, C) = false.
Proof.
  unfold find_placement. set (integral := get_integral_volume (ff_grid st)).
  intros Hf.
  apply first_some_range in Hf as (z0 & Hz0 & Hfz & Hminz).
  apply first_some_range in Hfz as (y0 & Hy0 & Hfy & Hminy).
  apply first_some_range in Hfy as (x0 & Hx0 & Hfx & Hminx).
  cbv beta in Hfx.
  destruct (is_free integral (x0, y0, z0) (A, B, C)) eqn:Efree; [|discriminate].
  injection Hfx as -> -> ->.
  split; [unfold valid_origin; lia|]. split; [exact Efree|].
  intros x' y' z' Hv Hbefore. unfold valid_origin in Hv.
  assert (Hx : forall x'', In x'' (range (ff_W st - A + 1)) ->
             forall yy zz,
             first_some (fun x =>
               if is_free integral (x, yy, zz) (A, B, C) then Some (x, yy, zz) else None)
               (range (ff_W st - A + 1)) = None ->
             is_free integral (x'', yy, zz) (A, B, C) = false).
  { intros x'' Hin yy zz Hnone.
    pose proof (first_some_none_inv _ _ Hnone x'' Hin) as Hn. cbv beta in Hn.
    destruct (is_free integral (x'', yy, zz) (A, B, C)); [discriminate|reflexivity]. }
  destruct Hbefore as [Hlt|[-> [Hlt|[-> Hlt]]]].
  - specialize (Hminz z' ltac:(lia)).
    pose proof (first_some_none_inv _ _ Hminz y' ltac:(apply In_range; lia)) as Hn.
    apply (Hx x' ltac:(apply In_range; lia) y' z' Hn).
  - specialize (Hminy y' ltac:(lia)).
    apply (Hx x' ltac:(apply In_range; lia) y' z Hminy).
  - specialize (Hminx x' ltac:(lia)). cbv beta in Hminx.
    destruct (is_free integral (x', y, z) (A, B, C)); [discriminate|reflexivity].
Qed.

Lemma find_placement_none (st : FirstFit) (A B C : Z) :
  find_placement st A B C = None ->
  forall x y z, valid_origin st A B C x y z ->
    is_free (get_integral_volume (ff_grid st)) (x, y, z) (A, B, C) = false.
Proof.
  unfold find_placement. intros Hn x y z Hv. unfold valid_origin in Hv.
  pose proof (first_some_none_inv _ _ Hn z ltac:(apply In_range; lia)) as Hz.
  pose proof (first_some_none_inv _ _ Hz y ltac:(apply In_range; lia)) as Hy.
  pose proof (first_some_none_inv _ _ Hy x ltac:(apply In_range; lia)) as Hx.
  cbv beta in Hx. destruct (is_free _ _ _); [discriminate|reflexivity].
Qed.

Lemma scan_before_total (x y z x' y' z' : Z) :
  (x, y, z) = (x', y', z') \/ scan_before x y z x' y' z' \/ scan_before x' y' z' x y z.
Proof.
  unfold scan_before.
  destruct (Z.lt_trichotomy z z') as [?|[->|?]]; [tauto| |tauto].
  destruct (Z.lt_trichotomy y y') as [?|[->|?]]; [tauto| |tauto].
  destruct (Z.lt_trichotomy x x') as [?|[->|?]]; [tauto| |tauto].
  left. reflexivity.
Qed.

(** Claim C4: for every grid and every shape with non-negative sides,
    the prefix-sum test [_is_free] answers "free" exactly when every
    cell of the box is free (negative corner indices reading 0), and
    [find_placement] returns the first origin in (z, y, x) scan order
    whose box is free, or [None] when no scanned origin has a free box. *)
Theorem find_placement_first_free (st : FirstFit) (A B C : Z) :
  0 <= A -> 0 <= B -> 0 <= C ->
  (forall x y z, 0 <= x -> 0 <= y -> 0 <= z ->
     is_free (get_integral_volume (ff_grid st)) (x, y, z) (A, B, C) = true
     <-> box_free (ff_grid st) x y z A B C) /\
  (forall x y z,
     find_placement st A B C = Some (x, y, z) <->
     valid_origin st A B C x y z /\ box_free (ff_grid st) x y z A B C /\
     forall x' y' z', valid_origin st A B C x' y' z' -> scan_before x' y' z' x y z ->
       ~ box_free (ff_grid st) x' y' z' A B C) /\
  (find_placement st A B C = None <->
     forall x y z, valid_origin st A B C x y z -> ~ box_free (ff_grid st) x y z A B C).
Proof.
  intros HA HB HC.
  assert (Hiff : forall x y z, 0 <= x -> 0 <= y -> 0 <= z ->
     is_free (get_integral_volume (ff_grid st)) (x, y, z) (A, B, C) = true
     <-> box_free (ff_grid st) x y z A B C)
    by (intros; apply is_free_iff; assumption).
  assert (Hsome : forall x y z, find_placement st A B C = Some (x, y, z) ->
     valid_origin st A B C x y z /\ box_free (ff_grid st) x y z A B C /\
     forall x' y' z', valid_origin st A B C x' y' z' -> scan_before x' y' z' x y z ->
       ~ box_free (ff_grid st) x' y' z' A B C).
  { intros x y z Hf. destruct (find_placement_some st A B C x y z Hf) as (Hv & Hfree & Hmin).
    pose proof Hv as Hv'. unfold valid_origin in Hv'.
    split; [exact Hv|]. split; [apply Hiff; (lia || exact Hfree)|].
    intros x' y' z' Hv2 Hb Hbox. pose proof Hv2 as Hv2'. unfold valid_origin in Hv2'.
    apply Hiff in Hbox; [|lia..]. rewrite (Hmin x' y' z' Hv2 Hb) in Hbox. discriminate. }
  assert (Hnone : find_placement st A B C = None ->
     forall x y z, valid_origin st A B C x y z -> ~ box_free (ff_grid st) x y z A B C).
  { intros Hn x y z Hv Hbox. pose proof Hv as Hv'. unfold valid_origin in Hv'.
    apply Hiff in Hbox; [|lia..]. rewrite (find_placement_none st A B C Hn x y z Hv) in Hbox.
    discriminate. }
  split; [exact Hiff|]. split.
  - intros x y z. split; [apply Hsome|].
    intros (Hv & Hbox & Hmin).
    destruct (find_placement st A B C) as [[[x0 y0] z0]|] eqn:Ef.
    + destruct (Hsome x0 y0 z0 eq_refl) as (Hv0 & Hbox0 & Hmin0).
      destruct (scan_before_total x0 y0 z0 x y z) as [Heq|[Hb|Hb]].
      * now rewrite Heq.
      * exfalso. exact (Hmin x0 y0 z0 Hv0 Hb Hbox0).
      * exfalso. exact (Hmin0 x y z Hv Hb Hbox).
    + exfalso. exact (Hnone eq_refl x y z Hv Hbox).
  - split; [exact Hnone|].
    intros Hall. destruct (find_placement st A B C) as [[[x0 y0] z0]|] eqn:Ef; [|reflexivity].
    destruct (Hsome x0 y0 z0 eq_refl) as (Hv0 & Hbox0 & _).
    exfalso. exact (Hall x0 y0 z0 Hv0 Hbox0).
Qed.

Lemma find_placement_first_free_witness :
  0 <= 2 /\ 0 <= 2 /\ 0 <= 2 /\
  find_placement (FirstFit_init 4 4 4) 2 2 2 = Some (0, 0, 0).
Proof.
  split; [lia|]. split; [lia|]. split; [lia|].
  apply (proj2 (find_placement_first_free (FirstFit_init 4 4 4) 2 2 2
                  ltac:(lia) ltac:(lia) ltac:(lia))).
  split; [unfold valid_origin; simpl; lia|]. split.
  - intros a b c _ _ _. reflexivity.
  - intros x' y' z' Hv Hb. unfold valid_origin in Hv. unfold scan_before in Hb. lia.
Defined.

Lemma coord_to_linear_index_roundtrip_witness :
  coord_to_linear_index 3 1 2 (4, 2, 3) = 2 * (2 * 4) + 1 * 4 + 3 /\
  linear_index_to_coord (coord_to_linear_index 3 1 2 (4, 2, 3)) (4, 2, 3) = (3, 1, 2).
Proof. apply coord_to_linear_index_roundtrip; lia. Defined.

(* --------------------------------------------------------------------- *)
(** ** First-Fit: allocation and the placement table *)
(* --------------------------------------------------------------------- *)

Lemma fold_left_inv {S X} (P : S -> Prop) (f : S -> X -> S) (l : list X) (s : S) :
  P s -> (forall s x, In x l -> P s -> P (f s x)) -> P (fold_left f l s).
Proof.
  revert s. induction l as [|x l IH]; intros s Hs Hstep; simpl; [exact Hs|].
  apply IH; [apply Hstep; [left; reflexivity | exact Hs]|].
  intros s' x' Hx'. apply Hstep. right. exact Hx'.
Qed.

Lemma grid_set_mono (g : grid3) (px py pz x y z : Z) :
  g x y z = true -> grid_set g px py pz x y z = true.
Proof. unfold grid_set. intros H. destruct (_ && _ && _); auto. Qed.

Lemma grid_set_hit (g : grid3) (px py pz : Z) : grid_set g px py pz px py pz = true.
Proof. unfold grid_set. now rewrite !Z.eqb_refl. Qed.

Lemma ff_alloc_cell_inv (st : FirstFit) (A B C x0 y0 z0 a b c : Z) s :
  0 <= a < A -> 0 <= b < B -> 0 <= c < C ->
  ff_alloc_inv st A B C x0 y0 z0 s ->
  ff_alloc_inv st A B C x0 y0 z0 (ff_alloc_cell st A B C x0 y0 z0 a b c s).
Proof.
  destruct s as [g m]. intros Ha Hb Hc (Hmono & Hmap). unfold ff_alloc_cell; simpl.
  split; simpl.
  - intros x y z Hg. apply grid_set_mono. auto.
  - intros j v Hj. rewrite lookup_insert in Hj. case_decide as Hjk.
    + injection Hj as <-. exists a, b, c.
      refine (conj Ha (conj Hb (conj Hc (conj _ (conj eq_refl _))))).
      * now subst j.
      * apply grid_set_hit.
    + destruct (Hmap j v Hj) as (a' & b' & c' & Ha' & Hb' & Hc' & Hj' & Hv & Hg).
      exists a', b', c'.
      refine (conj Ha' (conj Hb' (conj Hc' (conj Hj' (conj Hv _))))).
      apply grid_set_mono. exact Hg.
Qed.

Lemma FirstFit_allocate_spec (st st' : FirstFit) (A B C : Z) (m : gmap Z Z) :
  FirstFit_allocate st (A, B, C) = (Some m, st') -> m <> ∅ ->
  ff_W st' = ff_W st /\ ff_L st' = ff_L st /\ ff_H st' = ff_H st /\
  (forall x y z, ff_grid st x y z = true -> ff_grid st' x y z = true) /\
  (forall j v, m !! j = Some v ->
     exists x y z, in_box (ff_W st) (ff_L st) (ff_H st) x y z /\
       v = coord_to_linear_index x y z (ff_W st, ff_L st, ff_H st) /\
       ff_grid st x y z = false /\ ff_grid st' x y z = true) /\
  (forall j1 j2 v, m !! j1 = Some v -> m !! j2 = Some v -> j1 = j2).
Proof.
  intros Halloc Hne. unfold FirstFit_allocate in Halloc.
  destruct (find_placement st A B C) as [[[x0 y0] z0]|] eqn:Ef; [|discriminate].
  match type of Halloc with
  | (let '(_, _) := ?F in _) = _ => destruct F as [g' m'] eqn:Efold
  end.
  injection Halloc as -> <-.
  assert (Hinv : ff_alloc_inv st A B C x0 y0 z0 (g', m)).
  { rewrite <- Efold. apply fold_left_inv.
    - split; simpl; [auto|]. intros j v Hj. rewrite lookup_empty in Hj. discriminate.
    - intros s c Hc Hs. apply In_range in Hc. apply fold_left_inv; [exact Hs|].
      intros s' b Hb Hs'. apply In_range in Hb. apply fold_left_inv; [exact Hs'|].
      intros s'' a Ha Hs''. apply In_range in Ha. apply ff_alloc_cell_inv; auto. }
  destruct Hinv as (Hmono & Hmap). simpl in Hmono, Hmap.
  destruct (map_choose m Hne) as (j0 & v0 & Hj0).
  destruct (Hmap j0 v0 Hj0) as (a0 & b0 & c0 & Ha0 & Hb0 & Hc0 & _).
  destruct (find_placement_some st A B C x0 y0 z0 Ef) as (Hv & Hfree & _).
  pose proof Hv as (HvX & HvY & HvZ).
  apply is_free_iff in Hfree; try lia.
  assert (Hcell : forall a b c, 0 <= a < A -> 0 <= b < B -> 0 <= c < C ->
            in_box (ff_W st) (ff_L st) (ff_H st) (x0 + a) (y0 + b) (z0 + c))
    by (intros; unfold in_box; lia).
  simpl. split; [reflexivity|]. split; [reflexivity|]. split; [reflexivity|].
  split; [exact Hmono|]. split.
  - intros j v Hj. destruct (Hmap j v Hj) as (a & b & c & Ha & Hb & Hc & _ & Hv' & Hg).
    exists (x0 + a), (y0 + b), (z0 + c).
    split; [apply Hcell; auto|]. split; [exact Hv'|].
    split; [apply Hfree; lia | exact Hg].
  - intros j1 j2 v H1 H2.
    destruct (Hmap j1 v H1) as (a1 & b1 & c1 & Ha1 & Hb1 & Hc1 & -> & Hv1 & _).
    destruct (Hmap j2 v H2) as (a2 & b2 & c2 & Ha2 & Hb2 & Hc2 & -> & Hv2 & _).
    rewrite Hv1 in Hv2.
    destruct (linear_index_inj (ff_W st) (ff_L st) (ff_H st) _ _ _ _ _ _ ltac:(lia) ltac:(lia)
                (Hcell a1 b1 c1 Ha1 Hb1 Hc1) (Hcell a2 b2 c2 Ha2 Hb2 Hc2) Hv2)
      as (E1 & E2 & E3).
    assert (a1 = a2) by lia. assert (b1 = b2) by lia. assert (c1 = c2) by lia.
    subst. reflexivity.
Qed.

Lemma merge_fold_spec (name : string) (m : gmap Z Z) (ks : list Z) (t : gmap string Z) :
  NoDup ks -> (forall j, In j ks -> is_Some (m !! j)) -> map_injective m ->
  map_injective t -> (forall k v j, t !! k = Some v -> In j ks -> m !! j <> Some v) ->
  map_injective (fold_left (fun p j => <[placement_key name j := m !!! j]> p) ks t) /\
  (forall k v, fold_left (fun p j => <[placement_key name j := m !!! j]> p) ks t !! k = Some v ->
     t !! k = Some v \/ exists j, m !! j = Some v).
Proof.
  revert t. induction ks as [|j ks IH]; intros t Hnd Hdom Hm Ht Hfresh; simpl.
  - split; [exact Ht|]. intros k v H. left. exact H.
  - apply NoDup_cons in Hnd as [Hj Hnd].
    assert (Hmj : m !! j = Some (m !!! j))
      by (apply lookup_lookup_total; apply Hdom; left; reflexivity).
    set (t1 := <[placement_key name j := m !!! j]> t).
    assert (Hlook : forall k v, t1 !! k = Some v ->
              (k = placement_key name j /\ v = m !!! j) \/
              (k <> placement_key name j /\ t !! k = Some v)).
    { intros k v Hk. unfold t1 in Hk. rewrite lookup_insert in Hk.
      case_decide as E; [left; split; [auto|congruence] | right; auto]. }
    destruct (IH t1) as [Hinj Hfrom].
    + exact Hnd.
    + intros j' Hj'. apply Hdom. right. exact Hj'.
    + exact Hm.
    + intros k1 k2 v H1 H2.
      destruct (Hlook k1 v H1) as [[Ek1 Ev1]|[Hn1 H1']];
      destruct (Hlook k2 v H2) as [[Ek2 Ev2]|[Hn2 H2']].
      * congruence.
      * exfalso. rewrite Ev1 in H2'. apply (Hfresh k2 (m !!! j) j H2' (or_introl eq_refl)). exact Hmj.
      * exfalso. rewrite Ev2 in H1'. apply (Hfresh k1 (m !!! j) j H1' (or_introl eq_refl)). exact Hmj.
      * exact (Ht k1 k2 v H1' H2').
    + intros k v j' Hk Hj' Hmj'.
      destruct (Hlook k v Hk) as [[-> ->]|[_ Hk']].
      * assert (j' = j) by (exact (Hm j' j _ Hmj' Hmj)). subst j'.
        apply Hj. apply list_elem_of_In. exact Hj'.
      * exact (Hfresh k v j' Hk' (or_intror Hj') Hmj').
    + split; [exact Hinj|]. intros k v Hk.
      destruct (Hfrom k v Hk) as [Hk1|Hex]; [|right; exact Hex].
      destruct (Hlook k v Hk1) as [[_ ->]|[_ Hk']]; [right; exists j; exact Hmj|left; exact Hk'].
Qed.

Lemma merge_job_spec (name : string) (m : gmap Z Z) (t : gmap string Z) :
  map_injective m -> map_injective t ->
  (forall k v j, t !! k = Some v -> m !! j <> Some v) ->
  map_injective (merge_job name m t) /\
  (forall k v, merge_job name m t !! k = Some v -> t !! k = Some v \/ exists j, m !! j = Some v).
Proof.
  intros Hm Ht Hfresh. unfold merge_job.
  pose proof (merge_sort_Permutation Z.le (map_to_list m).*1) as Hperm.
  apply merge_fold_spec; auto.
  - rewrite Hperm. apply NoDup_fst_map_to_list.
  - intros j Hj. apply (Permutation_in _ Hperm) in Hj.
    apply list_elem_of_In in Hj. apply list_elem_of_fmap in Hj as ([j' v] & -> & Hin).
    apply elem_of_map_to_list in Hin. simpl. rewrite Hin. eexists; reflexivity.
  - intros k v j Hk _. exact (Hfresh k v j Hk).
Qed.

Lemma firstfit_loop_inv (jobs : list (string * (Z * Z * Z))) :
  forall (FF : FirstFit) (t t' : gmap string Z),
  table_inv (ff_W FF) (ff_L FF) (ff_H FF) (ff_grid FF) t ->
  firstfit_loop FF jobs t = Ok t' ->
  exists g, table_inv (ff_W FF) (ff_L FF) (ff_H FF) g t'.
Proof.
  induction jobs as [|[name [[A B] C]] rest IH]; intros FF t t' Hinv Hrun; cbn [firstfit_loop] in Hrun.
  - injection Hrun as <-. exists (ff_grid FF). exact Hinv.
  - destruct (FirstFit_allocate FF (A, B, C)) as [[m|] FF'] eqn:Ealloc; [|discriminate].
    destruct (decide (m = ∅)) as [_|Hne]; [discriminate|].
    destruct (FirstFit_allocate_spec FF FF' A B C m Ealloc Hne)
      as (EW & EL & EH & Hmono & Hcells & Hminj).
    destruct Hinv as (Htinj & Htcells).
    assert (Hfresh : forall k v j, t !! k = Some v -> m !! j <> Some v).
    { intros k v j Hk Hj.
      destruct (Htcells k v Hk) as (x & y & z & Hb & Hv & Hg).
      destruct (Hcells j v Hj) as (x' & y' & z' & Hb' & Hv' & Hg' & _).
      rewrite Hv in Hv'.
      pose proof Hb as (HbX & HbY & HbZ).
      destruct (linear_index_inj (ff_W FF) (ff_L FF) (ff_H FF) x y z x' y' z'
                  ltac:(lia) ltac:(lia) Hb Hb' Hv') as (-> & -> & ->).
      congruence. }
    destruct (merge_job_spec name m t Hminj Htinj Hfresh) as (Hinj' & Hfrom).
    destruct (IH FF' (merge_job name m t) t') as (g & Hg).
    + split; [exact Hinj'|]. rewrite EW, EL, EH.
      intros k v Hk. destruct (Hfrom k v Hk) as [Hk'|(j & Hj)].
      * destruct (Htcells k v Hk') as (x & y & z & Hb & Hv & Hgr).
        exists x, y, z. split; [exact Hb|]. split; [exact Hv|]. apply Hmono. exact Hgr.
      * destruct (Hcells j v Hj) as (x & y & z & Hb & Hv & _ & Hgr).
        exists x, y, z. split; [exact Hb|]. split; [exact Hv|]. exact Hgr.
    + exact Hrun.
    + exists g. rewrite <- EW, <- EL, <- EH. exact Hg.
Qed.

(** Claim C1 (as amended): whenever First-Fit placement of a job sequence
    completes (no job hits a placement failure), every value of the
    placement table is a torus linear index in [0, W*L*H), and no value
    is stored under two distinct keys. *)
Theorem firstfit_placement_disjoint (W L H : Z) (jobs : list (string * (Z * Z * Z)))
    (table : gmap string Z) :
  firstfit_placement (W, L, H) jobs = Ok table ->
  (forall k v, table !! k = Some v -> 0 <= v < W * L * H) /\
  (forall k1 k2 v, table !! k1 = Some v -> table !! k2 = Some v -> k1 = k2).
Proof.
  intros Hrun. unfold firstfit_placement in Hrun.
  destruct (firstfit_loop_inv jobs (FirstFit_init W L H) ∅ table) as (g & Hinj & Hcells).
  - split.
    + intros k1 k2 v H1. rewrite lookup_empty in H1. discriminate.
    + intros k v Hk. rewrite lookup_empty in Hk. discriminate.
  - exact Hrun.
  - simpl in Hcells. split; [|exact Hinj].
    intros k v Hk. destruct (Hcells k v Hk) as (x & y & z & Hb & -> & _).
    apply linear_index_bounds. exact Hb.
Qed.

Lemma firstfit_placement_disjoint_witness :
  match firstfit_placement (4, 4, 4) [("A", (2, 2, 2)); ("B", (2, 2, 2))] with
  | Ok table =>
      (forall k v, table !! k = Some v -> 0 <= v < 4 * 4 * 4) /\
      (forall k1 k2 v, table !! k1 = Some v -> table !! k2 = Some v -> k1 = k2)
  | Err _ => False
  end.
Proof.
  destruct (firstfit_placement (4, 4, 4) [("A", (2, 2, 2)); ("B", (2, 2, 2))])
    as [table|e] eqn:E.
  - exact (firstfit_placement_disjoint 4 4 4 _ table E).
  - vm_compute in E. discriminate.
Defined.

(** Claim C1 as stated fails: a job sequence whose total volume fits
    the torus can still end in a placement failure, so no table is
    produced (here a 3x1x1 job on a 2x2x2 torus: no box fits without
    wrapping around). *)
Lemma firstfit_placement_fails_within_capacity :
  sum_list (map (fun '(_, dims) => volume dims) [("a", (3, 1, 1))]) <= volume (2, 2, 2) /\
  firstfit_placement (2, 2, 2) [("a", (3, 1, 1))] = Err RuntimeError.
Proof. split; vm_compute; [discriminate | reflexivity]. Qed.

(* --------------------------------------------------------------------- *)
(** ** Space-Filling-Curve allocation *)
(* --------------------------------------------------------------------- *)

Lemma NoDup_zseq (lo : Z) (n : nat) : NoDup (zseq lo n).
Proof.
  revert lo. induction n as [|n IH]; intros lo; simpl; constructor.
  - rewrite list_elem_of_In, In_zseq. lia.
  - apply IH.
Qed.

Lemma NoDup_range (n : Z) : NoDup (range n).
Proof. apply NoDup_zseq. Qed.

Lemma NoDup_flat_map {A B} (f : A -> list B) (l : list A) :
  NoDup l -> (forall a, NoDup (f a)) ->
  (forall a a' b, In b (f a) -> In b (f a') -> a = a') ->
  NoDup (flat_map f l).
Proof.
  induction l as [|a l IH]; intros Hl Hf Hdis; simpl; [constructor|].
  inversion Hl as [|? ? Ha Hl']; subst.
  apply NoDup_app. split; [apply Hf|]. split; [|apply IH; auto].
  intros b Hb Hb'. apply list_elem_of_In in Hb, Hb'.
  apply in_flat_map in Hb' as (a' & Ha' & Hb').
  assert (a = a') by (exact (Hdis a a' b Hb Hb')). subst a'.
  apply Ha, list_elem_of_In. exact Ha'.
Qed.

Lemma argwhere_free_In (W L H : Z) (g : grid3) (x y z : Z) :
  In (x, y, z) (argwhere_free W L H g) <-> in_box W L H x y z /\ g x y z = false.
Proof.
  unfold argwhere_free, in_box. rewrite in_flat_map. split.
  - intros (x' & Hx & Hin). apply in_flat_map in Hin as (y' & Hy & Hin).
    apply in_flat_map in Hin as (z' & Hz & Hin).
    apply In_range in Hx, Hy, Hz.
    destruct (g x' y' z') eqn:E; [contradiction|].
    destruct Hin as [Heq|[]]. injection Heq as <- <- <-. auto.
  - intros ((Hx & Hy & Hz) & Hg). exists x. split; [apply In_range; lia|].
    apply in_flat_map. exists y. split; [apply In_range; lia|].
    apply in_flat_map. exists z. split; [apply In_range; lia|].
    rewrite Hg. left. reflexivity.
Qed.

Lemma argwhere_free_NoDup (W L H : Z) (g : grid3) : NoDup (argwhere_free W L H g).
Proof.
  unfold argwhere_free.
  apply NoDup_flat_map; [apply NoDup_range| |].
  2:{ intros x x' [[a b] c] H1 H2.
      apply in_flat_map in H1 as (y1 & _ & H1). apply in_flat_map in H1 as (z1 & _ & H1).
      apply in_flat_map in H2 as (y2 & _ & H2). apply in_flat_map in H2 as (z2 & _ & H2).
      destruct (g x y1 z1); [contradiction|]. destruct (g x' y2 z2); [contradiction|].
      destruct H1 as [H1|[]]; destruct H2 as [H2|[]]. congruence. }
  intros x. apply NoDup_flat_map; [apply NoDup_range| |].
  2:{ intros y y' [[a b] c] H1 H2.
      apply in_flat_map in H1 as (z1 & _ & H1). apply in_flat_map in H2 as (z2 & _ & H2).
      destruct (g x y z1); [contradiction|]. destruct (g x y' z2); [contradiction|].
      destruct H1 as [H1|[]]; destruct H2 as [H2|[]]. congruence. }
  intros y. apply NoDup_flat_map; [apply NoDup_range| |].
  - intros z. destruct (g x y z); [constructor|]. constructor; [intros Hin; apply list_elem_of_In in Hin; destruct Hin|constructor].
  - intros z z' [[a b] c] H1 H2.
    destruct (g x y z); [contradiction|]. destruct (g x y z'); [contradiction|].
    destruct H1 as [H1|[]]; destruct H2 as [H2|[]]. congruence.
Qed.

Lemma pow2_log2_up (a : Z) : 1 <= a -> a <= 2 ^ Z.log2_up a.
Proof.
  intros Ha. destruct (Z.eq_dec a 1) as [->|Hne]; [reflexivity|].
  apply Z.log2_up_spec. lia.
Qed.

Lemma In_py_slice_to {A} (l : list A) (n : Z) (a : A) : In a (py_slice_to l n) -> In a l.
Proof.
  unfold py_slice_to. intros Hin.
  destruct (0 <=? n);
    [rewrite <- (firstn_skipn (Z.to_nat n) l) | rewrite <- (firstn_skipn (Z.to_nat (Z.of_nat (length l) + n)) l)];
    apply in_or_app; left; exact Hin.
Qed.

Lemma length_py_slice_to {A} (l : list A) (n : Z) :
  0 <= n <= Z.of_nat (length l) -> length (py_slice_to l n) = Z.to_nat n.
Proof.
  intros Hn. unfold py_slice_to. destruct (0 <=? n) eqn:E; [|lia].
  rewrite length_firstn. lia.
Qed.

Section SFC.

Variable distance_from_point : Z -> Z * Z * Z -> Z.
Variable point_from_distance : Z -> Z -> Z * Z * Z.

(** The Hilbert curve of order [p] in three dimensions is a bijection
    between the cube [[0, 2^p)^3] and its distances: decoding the
    distance of a point of the cube gives the point back. *)
Hypothesis hilbert_roundtrip : forall p x y z,
  0 <= p -> 0 <= x < 2 ^ p -> 0 <= y < 2 ^ p -> 0 <= z < 2 ^ p ->
  point_from_distance p (distance_from_point p (x, y, z)) = (x, y, z).

(** Claim C6: for every grid state and shape (A, B, C), with
    [N = A*B*C]: [np.argwhere(grid == 0)] lists each free cell of the
    torus exactly once; [SpaceFillingCurve.allocate] returns [None]
    exactly when this list has fewer than [N] entries; and every value
    of a returned mapping is the torus linear index of a cell that was
    free when the call began (so no cell occupied by an earlier
    allocation is handed out again). *)
Theorem SFC_allocate_free_cells (st : SpaceFillingCurve) (A B C : Z) :
  (forall x y z,
     In (x, y, z) (argwhere_free (sfc_W st) (sfc_L st) (sfc_H st) (sfc_grid st)) <->
     in_box (sfc_W st) (sfc_L st) (sfc_H st) x y z /\ sfc_grid st x y z = false) /\
  NoDup (argwhere_free (sfc_W st) (sfc_L st) (sfc_H st) (sfc_grid st)) /\
  (fst (SFC_allocate distance_from_point point_from_distance st (A, B, C)) = None <->
   Z.of_nat (length (argwhere_free (sfc_W st) (sfc_L st) (sfc_H st) (sfc_grid st)))
     < A * B * C) /\
  (forall m st',
     SFC_allocate distance_from_point point_from_distance st (A, B, C) = (Some m, st') ->
     forall v, In v m ->
     exists x y z, in_box (sfc_W st) (sfc_L st) (sfc_H st) x y z /\
                   sfc_grid st x y z = false /\
                   v = coord_to_linear_index x y z (sfc_W st, sfc_L st, sfc_H st)).
Proof.
  set (free := argwhere_free (sfc_W st) (sfc_L st) (sfc_H st) (sfc_grid st)).
  set (P := sfc_iterations st).
  assert (Hperm : fetch_availability distance_from_point st
                  ≡ₚ map (distance_from_point P) free)
    by apply merge_sort_Permutation.
  assert (Hlen : length (fetch_availability distance_from_point st) = length free)
    by (rewrite Hperm; apply length_map).
  (* Every point decoded from an available distance is a free cell. *)
  assert (Hdec : forall d, In d (fetch_availability distance_from_point st) ->
            In (point_from_distance P d) free).
  { intros d Hd. apply (Permutation_in _ Hperm) in Hd.
    apply in_map_iff in Hd as ([[x y] z] & <- & Hin).
    pose proof Hin as Hin'. apply argwhere_free_In in Hin' as ((Hx & Hy & Hz) & _).
    assert (HP : 0 <= P) by apply Z.log2_up_nonneg.
    assert (Hm : Z.max (sfc_W st) (Z.max (sfc_L st) (sfc_H st)) <= 2 ^ P)
      by (apply pow2_log2_up; lia).
    rewrite hilbert_roundtrip by lia. exact Hin. }
  split; [intros; apply argwhere_free_In|].
  split; [apply argwhere_free_NoDup|].
  split.
  - unfold SFC_allocate. fold free. rewrite Hlen.
    destruct (Z.of_nat (length free) <? A * B * C) eqn:E.
    + simpl. split; [intros _; lia|reflexivity].
    + destruct (fold_left _ _ _) as [g' mp]. simpl. split; [discriminate|lia].
  - intros m st' Hrun v Hv. unfold SFC_allocate in Hrun.
    rewrite Hlen in Hrun.
    destruct (Z.of_nat (length free) <? A * B * C) eqn:E; [discriminate|].
    apply Z.ltb_ge in E.
    set (alloc := map (point_from_distance (sfc_iterations st))
                    (py_slice_to (fetch_availability distance_from_point st) (A * B * C)))
      in Hrun.
    destruct (fold_left _ _ _) as [g' mp] eqn:Ef in Hrun.
    injection Hrun as <- _.
    set (Q := fun (s : grid3 * list Z) =>
                forall v, In v (snd s) -> exists c, In c alloc /\
                  v = let '(x, y, z) := c in
                      coord_to_linear_index x y z (sfc_W st, sfc_L st, sfc_H st)).
    assert (HQ : Q (g', mp)).
    { rewrite <- Ef. apply fold_left_inv.
      - intros v' []. 
      - intros [g0 mp0] i Hi HQ0. apply In_range in Hi.
        destruct (nth (Z.to_nat i) alloc (0, 0, 0)) as [[x y] z] eqn:En.
        intros v' Hv'. simpl in Hv'. apply in_app_or in Hv' as [Hv'|[<-|[]]].
        + exact (HQ0 v' Hv').
        + exists (x, y, z). split; [|reflexivity]. rewrite <- En. apply nth_In.
          unfold alloc. rewrite length_map, length_py_slice_to by (rewrite Hlen; lia). lia. }
    destruct (HQ v Hv) as ([[x y] z] & Hc & ->).
    unfold alloc in Hc. apply in_map_iff in Hc as (d & Hd & Hin).
    apply In_py_slice_to, Hdec in Hin. fold P in Hd. rewrite Hd in Hin.
    apply argwhere_free_In in Hin as (Hb & Hg).
    exists x, y, z. auto.
Qed.

End SFC.

Lemma SFC_allocate_free_cells_witness :
  (forall p x y z, 0 <= p -> 0 <= x < 2 ^ p -> 0 <= y < 2 ^ p -> 0 <= z < 2 ^ p ->
     linear_index_to_coord (coord_to_linear_index x y z (2 ^ p, 2 ^ p, 2 ^ p))
       (2 ^ p, 2 ^ p, 2 ^ p) = (x, y, z)) /\
  (fst (SFC_allocate
          (fun p '(x, y, z) => coord_to_linear_index x y z (2 ^ p, 2 ^ p, 2 ^ p))
          (fun p d => linear_index_to_coord d (2 ^ p, 2 ^ p, 2 ^ p))
          (mkSFC 2 2 2 (grid_set empty_grid 0 0 0)) (2, 2, 1)) = None <->
   Z.of_nat (length (argwhere_free 2 2 2 (grid_set empty_grid 0 0 0))) < 2 * 2 * 1) /\
  (forall m st',
     SFC_allocate
       (fun p '(x, y, z) => coord_to_linear_index x y z (2 ^ p, 2 ^ p, 2 ^ p))
       (fun p d => linear_index_to_coord d (2 ^ p, 2 ^ p, 2 ^ p))
       (mkSFC 2 2 2 (grid_set empty_grid 0 0 0)) (2, 2, 1) = (Some m, st') ->
     forall v, In v m ->
     exists x y z, in_box 2 2 2 x y z /\ grid_set empty_grid 0 0 0 x y z = false /\
                   v = coord_to_linear_index x y z (2, 2, 2)).
Proof.
  assert (Hrt : forall p x y z, 0 <= p -> 0 <= x < 2 ^ p -> 0 <= y < 2 ^ p -> 0 <= z < 2 ^ p ->
     linear_index_to_coord (coord_to_linear_index x y z (2 ^ p, 2 ^ p, 2 ^ p))
       (2 ^ p, 2 ^ p, 2 ^ p) = (x, y, z)).
  { intros p x y z Hp Hx Hy Hz.
    assert (0 < 2 ^ p) by (apply Z.pow_pos_nonneg; lia).
    apply linear_index_decode; unfold in_box; lia. }
  split; [exact Hrt|].
  destruct (SFC_allocate_free_cells
              (fun p '(x, y, z) => coord_to_linear_index x y z (2 ^ p, 2 ^ p, 2 ^ p))
              (fun p d => linear_index_to_coord d (2 ^ p, 2 ^ p, 2 ^ p))
              Hrt (mkSFC 2 2 2 (grid_set empty_grid 0 0 0)) 2 2 1)
    as (_ & _ & H3 & H4).
  split; [exact H3 | exact H4].
Defined.

(* --------------------------------------------------------------------- *)
(** ** L1-Clustering allocation *)
(* --------------------------------------------------------------------- *)

Lemma NoDup_map_inj {A B} (f : A -> B) (l : list A) :
  (forall a b, In a l -> In b l -> f a = f b -> a = b) -> NoDup l -> NoDup (map f l).
Proof.
  induction l as [|a l IH]; intros Hinj Hnd; simpl; [constructor|].
  inversion Hnd as [|? ? Ha Hnd']; subst. constructor.
  - intros Hin. apply list_elem_of_In, in_map_iff in Hin as (b & Hfb & Hb).
    assert (b = a) by (apply Hinj; [right | left | ]; auto).
    subst b. apply Ha, list_elem_of_In. exact Hb.
  - apply IH; [|exact Hnd']. intros a' b' Ha' Hb'. apply Hinj; right; auto.
Qed.

Lemma NoDup_firstn {A} (n : nat) (l : list A) : NoDup l -> NoDup (firstn n l).
Proof.
  intros Hnd. rewrite <- (firstn_skipn n l) in Hnd. apply NoDup_app in Hnd as [H _]. exact H.
Qed.

Lemma NoDup_py_slice_to {A} (l : list A) (n : Z) : NoDup l -> NoDup (py_slice_to l n).
Proof. unfold py_slice_to. destruct (0 <=? n); apply NoDup_firstn. Qed.

Lemma StronglySorted_lt_NoDup (l : list Z) : StronglySorted Z.lt l -> NoDup l.
Proof.
  induction l as [|a l IH]; intros Hs; [constructor|].
  apply StronglySorted_inv in Hs as [Hs Hf]. constructor; [|apply IH, Hs].
  intros Hin. rewrite Forall_forall in Hf. specialize (Hf a Hin). lia.
Qed.

Lemma StronglySorted_le_lt (l : list Z) :
  StronglySorted Z.le l -> NoDup l -> StronglySorted Z.lt l.
Proof.
  induction l as [|a l IH]; intros Hs Hnd; [constructor|].
  apply StronglySorted_inv in Hs as [Hs Hf]. inversion Hnd as [|? ? Ha Hnd']; subst.
  constructor; [apply IH; auto|].
  rewrite Forall_forall in *. intros b Hb.
  assert (a <> b) by (intros ->; apply Ha, Hb).
  specialize (Hf b Hb). lia.
Qed.

Lemma StronglySorted_nth (l : list Z) (i j : nat) (d : Z) :
  StronglySorted Z.lt l -> (i < j < length l)%nat -> nth i l d < nth j l d.
Proof.
  revert i j. induction l as [|a l IH]; intros i j Hs Hij; simpl in *; [lia|].
  apply StronglySorted_inv in Hs as [Hs Hf]. rewrite Forall_forall in Hf.
  destruct i as [|i], j as [|j]; try lia.
  - apply Hf, list_elem_of_In, nth_In. lia.
  - apply IH; auto. lia.
Qed.

Lemma nth_zseq (lo : Z) (n i : nat) (d : Z) : (i < n)%nat -> nth i (zseq lo n) d = lo + Z.of_nat i.
Proof.
  revert lo i. induction n as [|n IH]; intros lo i Hi; [lia|].
  destruct i as [|i]; simpl; [lia|]. rewrite IH by lia. lia.
Qed.

Lemma length_zseq (lo : Z) (n : nat) : length (zseq lo n) = n.
Proof. revert lo. induction n; intros; simpl; auto. Qed.

Lemma py_gather_range (l : list Z) : py_gather l (range (Z.of_nat (length l))) = l.
Proof.
  unfold py_gather, range. rewrite Nat2Z.id.
  apply nth_ext with (d := 0) (d' := 0).
  - rewrite length_map, length_zseq. reflexivity.
  - intros n Hn. rewrite length_map, length_zseq in Hn.
    rewrite (nth_indep _ 0 ((fun i => nth (Z.to_nat i) l 0) 0))
      by (rewrite length_map, length_zseq; exact Hn).
    rewrite (map_nth (fun i => nth (Z.to_nat i) l 0) (zseq 0 (length l)) 0 n).
    rewrite nth_zseq by exact Hn. f_equal. lia.
Qed.

(** Coordinates of the rows of [self.coords]. *)
Lemma flat_index_eq (W L H x y z : Z) :
  flat_index (W, L, H) (x, y, z) = coord_to_linear_index z y x (H, L, W).
Proof. reflexivity. Qed.

Lemma l1_coord_of_flat (st : L1Clustering) (x y z : Z) :
  0 < l1_L st -> 0 < l1_H st -> in_box (l1_W st) (l1_L st) (l1_H st) x y z ->
  l1_coord st (flat_index (l1_W st, l1_L st, l1_H st) (x, y, z)) = (x, y, z).
Proof.
  intros HL HH (Hx & Hy & Hz). rewrite flat_index_eq.
  pose proof (linear_index_decode (l1_H st) (l1_L st) (l1_W st) z y x HH HL) as D.
  unfold in_box in D. specialize (D ltac:(lia)).
  unfold linear_index_to_coord in D. unfold l1_coord. simpl.
  injection D as D1 D2 D3. simpl in D1, D2, D3. rewrite D1, D2, D3. reflexivity.
Qed.

Lemma flat_index_bounds (W L H x y z : Z) :
  in_box W L H x y z -> 0 <= flat_index (W, L, H) (x, y, z) < W * L * H.
Proof.
  intros (Hx & Hy & Hz). rewrite flat_index_eq.
  replace (W * L * H) with (H * L * W) by ring.
  apply linear_index_bounds. unfold in_box. lia.
Qed.

Lemma l1_coord_flat (st : L1Clustering) (idx : Z) :
  0 < l1_L st -> 0 < l1_H st -> 0 <= idx ->
  flat_index (l1_W st, l1_L st, l1_H st) (l1_coord st idx) = idx.
Proof.
  intros HL HH Hi. unfold flat_index, l1_coord.
  rewrite (Z.mul_comm (l1_L st) (l1_H st)), <- Z.div_div by lia.
  pose proof (Z.div_mod idx (l1_H st) ltac:(lia)) as E1.
  pose proof (Z.div_mod (idx / l1_H st) (l1_L st) ltac:(lia)) as E2.
  set (q := idx / l1_H st) in *. set (a := q / l1_L st) in *.
  set (b := q mod l1_L st) in *. set (r := idx mod l1_H st) in *.
  rewrite E1 at 1. rewrite E2. ring.
Qed.

Lemma l1_coord_bounds (st : L1Clustering) (idx : Z) :
  0 < l1_W st -> 0 < l1_L st -> 0 < l1_H st -> 0 <= idx < l1_ncells st ->
  let '(x, y, z) := l1_coord st idx in in_box (l1_W st) (l1_L st) (l1_H st) x y z.
Proof.
  intros HW HL HH Hi. unfold l1_ncells in Hi. unfold l1_coord, in_box.
  assert (0 < l1_L st * l1_H st) by lia.
  split; [split|split; apply Z.mod_pos_bound; lia].
  - apply Z.div_pos; lia.
  - apply Z.div_lt_upper_bound; lia.
Qed.

Lemma l1_torus_index_decode (st : L1Clustering) (idx : Z) :
  0 < l1_W st -> 0 < l1_L st -> 0 < l1_H st -> 0 <= idx < l1_ncells st ->
  linear_index_to_coord (l1_torus_index st idx) (l1_W st, l1_L st, l1_H st) = l1_coord st idx.
Proof.
  intros HW HL HH Hi. pose proof (l1_coord_bounds st idx HW HL HH Hi) as Hb.
  unfold l1_torus_index. destruct (l1_coord st idx) as [[x y] z].
  apply linear_index_decode; auto.
Qed.

Lemma l1_torus_index_inj (st : L1Clustering) (a b : Z) :
  0 < l1_W st -> 0 < l1_L st -> 0 < l1_H st ->
  0 <= a < l1_ncells st -> 0 <= b < l1_ncells st ->
  l1_torus_index st a = l1_torus_index st b -> a = b.
Proof.
  intros HW HL HH Ha Hb E.
  rewrite <- (l1_coord_flat st a), <- (l1_coord_flat st b) by lia.
  rewrite <- (l1_torus_index_decode st a), <- (l1_torus_index_decode st b) by auto.
  rewrite E. reflexivity.
Qed.

Lemma where_false_map_zseq (f : Z -> bool) (n : nat) :
  forall (s i : Z), In i (where_false_from s (map f (zseq s n))) <->
                    s <= i < s + Z.of_nat n /\ f i = false.
Proof.
  induction n as [|n IH]; intros s i; simpl.
  - split; [intros []|lia].
  - destruct (f s) eqn:E; simpl; rewrite IH.
    + split; [intros [? ?]; split; [lia|auto]|].
      intros [Hr Hf]. destruct (Z.eq_dec i s) as [->|Hne]; [congruence|]. split; [lia|auto].
    + split.
      * intros [<-|[? ?]]; [split; [lia|auto]|split; [lia|auto]].
      * intros [Hr Hf]. destruct (Z.eq_dec i s) as [->|Hne]; [left; reflexivity|].
        right. split; [lia|auto].
Qed.

Lemma where_false_ge (l : list bool) : forall s i, In i (where_false_from s l) -> s <= i.
Proof.
  induction l as [|b l IH]; intros s i Hi; simpl in Hi; [contradiction|].
  destruct b; [apply IH in Hi; lia|].
  destruct Hi as [<-|Hi]; [lia|]. apply IH in Hi. lia.
Qed.

Lemma where_false_sorted (l : list bool) : forall s, StronglySorted Z.lt (where_false_from s l).
Proof.
  induction l as [|b l IH]; intros s; simpl; [constructor|].
  destruct b; [apply IH|]. constructor; [apply IH|].
  apply Forall_forall. intros i Hi. apply list_elem_of_In, where_false_ge in Hi. lia.
Qed.

(** [np.where(self.grid.flatten() == 0)[0]] lists the flat indices of
    the free cells, increasing. *)
Lemma l1_idle_In (st : L1Clustering) (i : Z) :
  In i (where_false_from 0 (l1_flatten st)) <->
  0 <= i < l1_ncells st /\
  (let '(x, y, z) := l1_coord st i in l1_grid st x y z) = false.
Proof.
  unfold l1_flatten, range. rewrite where_false_map_zseq.
  split; intros [Hr Hg]; split; auto; lia.
Qed.

Lemma l1_idle_NoDup (st : L1Clustering) : NoDup (where_false_from 0 (l1_flatten st)).
Proof. apply StronglySorted_lt_NoDup, where_false_sorted. Qed.

Lemma l1_idle_count (st : L1Clustering) :
  0 < l1_W st -> 0 < l1_L st -> 0 < l1_H st ->
  length (where_false_from 0 (l1_flatten st)) =
  length (argwhere_free (l1_W st) (l1_L st) (l1_H st) (l1_grid st)).
Proof.
  intros HW HL HH.
  assert (Hperm : map (l1_coord st) (where_false_from 0 (l1_flatten st))
                  ≡ₚ argwhere_free (l1_W st) (l1_L st) (l1_H st) (l1_grid st)).
  { apply NoDup_Permutation.
    - apply NoDup_map_inj; [|apply l1_idle_NoDup].
      intros a b Ha Hb E. apply l1_idle_In in Ha, Hb.
      rewrite <- (l1_coord_flat st a), <- (l1_coord_flat st b) by lia.
      rewrite E. reflexivity.
    - apply argwhere_free_NoDup.
    - intros [[x y] z]. rewrite !list_elem_of_In, argwhere_free_In, in_map_iff. split.
      + intros (i & Hc & Hi). apply l1_idle_In in Hi as (Hr & Hg).
        pose proof (l1_coord_bounds st i HW HL HH Hr) as Hb.
        rewrite Hc in Hb, Hg. auto.
      + intros (Hb & Hg). exists (flat_index (l1_W st, l1_L st, l1_H st) (x, y, z)).
        split; [apply l1_coord_of_flat; auto|].
        apply l1_idle_In. rewrite l1_coord_of_flat by auto.
        split; [apply flat_index_bounds; exact Hb|exact Hg]. }
  apply Permutation_length in Hperm. rewrite length_map in Hperm. exact Hperm.
Qed.

Lemma l1_eval_center_sel (argpartition : list Z -> Z -> list Z) (st : L1Clustering)
    (k : Z) (idle : list Z) (best : option Z * option (list Z)) (c : Z) (s : list Z) :
  snd (l1_eval_center argpartition st k idle best c) = Some s ->
  snd best = Some s \/
  s = py_gather idle
        (if Z.of_nat (length (py_gather (get_torus_distance st (l1_coord st c)) idle)) =? k
         then range k
         else py_slice_to (argpartition (py_gather (get_torus_distance st (l1_coord st c)) idle)
                                        (k - 1)) k).
Proof.
  destruct best as [bc bs]. unfold l1_eval_center.
  match goal with |- context [if ?b then _ else _] =>
    match b with context [Z.ltb] => destruct b end end;
  simpl; intros H; [right; congruence|left; exact H].
Qed.

Lemma l1_fold_sel (argpartition : list Z -> Z -> list Z) (st : L1Clustering)
    (k : Z) (idle : list Z) (centers : list Z) :
  forall best s,
  snd (fold_left (l1_eval_center argpartition st k idle) centers best) = Some s ->
  snd best = Some s \/ exists c, s = l1_candidate argpartition st k idle c.
Proof.
  induction centers as [|c centers IH]; intros best s H; simpl in H; [left; exact H|].
  destruct (IH _ s H) as [H'|H']; [|right; exact H'].
  destruct (l1_eval_center_sel argpartition st k idle best c s H') as [H''|H''].
  - left. exact H''.
  - right. exists c. exact H''.
Qed.

Lemma l1_eval_center_keeps (argpartition : list Z -> Z -> list Z) (st : L1Clustering)
    (k : Z) (idle : list Z) (best : option Z * option (list Z)) (c : Z) :
  (snd best <> None \/ best = (None, None)) ->
  snd (l1_eval_center argpartition st k idle best c) <> None.
Proof.
  destruct best as [bc bs]. unfold l1_eval_center. intros Hb.
  match goal with |- context [if ?b then _ else _] =>
    match b with context [Z.ltb] => destruct b eqn:E end end;
  simpl; [discriminate|].
  destruct Hb as [Hb|Hb]; [exact Hb|]. injection Hb as -> ->. discriminate.
Qed.

Lemma l1_fold_keeps (argpartition : list Z -> Z -> list Z) (st : L1Clustering)
    (k : Z) (idle : list Z) (centers : list Z) :
  forall best, snd best <> None ->
  snd (fold_left (l1_eval_center argpartition st k idle) centers best) <> None.
Proof.
  induction centers as [|c centers IH]; intros best Hb; simpl; [exact Hb|].
  apply IH, l1_eval_center_keeps. left. exact Hb.
Qed.

Lemma l1_mapping_fold (st : L1Clustering) (l : list Z) :
  forall (g : grid3) (acc : list Z),
  snd (fold_left (fun '(g, mapping) idx =>
            let '(x, y, z) := l1_coord st idx in
            (grid_set g x y z,
             mapping ++ [coord_to_linear_index x y z (l1_W st, l1_L st, l1_H st)]))
          l (g, acc)) = acc ++ map (l1_torus_index st) l.
Proof.
  induction l as [|a l IH]; intros g acc; cbn [fold_left map];
    [rewrite app_nil_r; reflexivity|].
  assert (Ea : l1_torus_index st a =
               let '(x, y, z) := l1_coord st a in
               coord_to_linear_index x y z (l1_W st, l1_L st, l1_H st)) by reflexivity.
  rewrite Ea. destruct (l1_coord st a) as [[x y] z].
  rewrite IH, <- app_assoc. reflexivity.
Qed.

Lemma L1_allocate_some_inv (argpartition : list Z -> Z -> list Z) (st st' : L1Clustering)
    (A B C : Z) (m : list Z) :
  L1_allocate argpartition st (A, B, C) = (Some m, st') ->
  A * B * C <= Z.of_nat (length (where_false_from 0 (l1_flatten st))) /\
  exists c, m = map (l1_torus_index st)
                 (merge_sort Z.le
                    (l1_candidate argpartition st (A * B * C)
                       (where_false_from 0 (l1_flatten st)) c)).
Proof.
  unfold L1_allocate. intros H.
  destruct (_ <? A * B * C) eqn:E; [discriminate|]. apply Z.ltb_ge in E.
  split; [exact E|].
  destruct (fold_left (l1_eval_center argpartition st _ _) _ _) as [bc [sel|]] eqn:Ef;
    [|discriminate].
  pose proof (l1_mapping_fold st (merge_sort Z.le sel) (l1_grid st) []) as HM.
  destruct (fold_left _ (merge_sort Z.le sel) _) as [g' mp] eqn:Em.
  injection H as Hm _. subst mp. simpl in HM. subst m.
  assert (Hs : snd (bc, Some sel) = Some sel) by reflexivity. rewrite <- Ef in Hs.
  destruct (l1_fold_sel _ _ _ _ _ _ _ Hs) as [Hn|(c & Hc)]; [discriminate|].
  exists c. rewrite Hc. reflexivity.
Qed.

Lemma L1_allocate_some_exists (argpartition : list Z -> Z -> list Z) (st : L1Clustering)
    (A B C : Z) :
  A * B * C <= Z.of_nat (length (where_false_from 0 (l1_flatten st))) ->
  where_false_from 0 (l1_flatten st) <> [] ->
  exists m st', L1_allocate argpartition st (A, B, C) = (Some m, st').
Proof.
  intros Hk Hne. unfold L1_allocate.
  destruct (_ <? A * B * C) eqn:E; [apply Z.ltb_lt in E; lia|].
  destruct (where_false_from 0 (l1_flatten st)) as [|c idle] eqn:Ei; [congruence|].
  unfold py_stride. simpl py_stride_from. cbn [fold_left].
  pose proof (l1_fold_keeps argpartition st (A * B * C) (c :: idle)
                (py_stride_from (Z.to_nat (Z.max 1 (Z.of_nat (length (c :: idle)) / 100)) - 1)
                   (Z.to_nat (Z.max 1 (Z.of_nat (length (c :: idle)) / 100))) idle)
                (l1_eval_center argpartition st (A * B * C) (c :: idle) (None, None) c)
                ltac:(apply l1_eval_center_keeps; right; reflexivity)) as Hk'.
  destruct (fold_left _ _ _) as [bc [sel|]]; [|simpl in Hk'; congruence].
  destruct (fold_left _ _ _) as [g' mp]. eauto.
Qed.

(** Claim C7: for every grid state of a torus with positive dimensions,
    when [L1Clustering.allocate] is called with a shape whose volume
    [k = A*B*C] equals the number of free cells, it returns a mapping
    as soon as [k > 0], and any mapping it returns lists the torus
    linear indices of all the free cells, each exactly once.  This holds
    for every [np.argpartition] tie-breaking and every center-sampling
    stride. *)
Theorem L1_allocate_all_free (argpartition : list Z -> Z -> list Z)
    (st : L1Clustering) (A B C : Z) :
  0 < l1_W st -> 0 < l1_L st -> 0 < l1_H st ->
  A * B * C = Z.of_nat (length (argwhere_free (l1_W st) (l1_L st) (l1_H st) (l1_grid st))) ->
  (0 < A * B * C -> exists m st', L1_allocate argpartition st (A, B, C) = (Some m, st')) /\
  (forall m st', L1_allocate argpartition st (A, B, C) = (Some m, st') ->
     NoDup m /\
     (forall v, In v m <->
        exists x y z, in_box (l1_W st) (l1_L st) (l1_H st) x y z /\
                      l1_grid st x y z = false /\
                      v = coord_to_linear_index x y z (l1_W st, l1_L st, l1_H st))).
Proof.
  intros HW HL HH Hk. rewrite <- l1_idle_count in Hk by auto.
  split.
  - intros Hpos. apply L1_allocate_some_exists; [lia|].
    intros E. rewrite E in Hk. simpl in Hk. lia.
  - intros m st' Hrun.
    destruct (L1_allocate_some_inv _ _ _ _ _ _ _ Hrun) as (_ & c & Hm).
    set (idle := where_false_from 0 (l1_flatten st)) in *.
    assert (Hsel : l1_candidate argpartition st (A * B * C) idle c = idle).
    { unfold l1_candidate.
      assert (Hl : length (py_gather (get_torus_distance st (l1_coord st c)) idle) = length idle)
        by (unfold py_gather; apply length_map).
      rewrite Hl, <- Hk, Z.eqb_refl, Hk. apply py_gather_range. }
    rewrite Hsel in Hm. subst m.
    pose proof (merge_sort_Permutation Z.le idle) as Hperm.
    split.
    + apply NoDup_map_inj.
      * intros a b Ha Hb E.
        apply (Permutation_in _ Hperm), l1_idle_In in Ha, Hb.
        apply (l1_torus_index_inj st a b); tauto.
      * rewrite Hperm. apply l1_idle_NoDup.
    + intros v. rewrite in_map_iff. split.
      * intros (idx & <- & Hin).
        apply (Permutation_in _ Hperm), l1_idle_In in Hin as (Hr & Hg).
        pose proof (l1_coord_bounds st idx HW HL HH Hr) as Hb.
        unfold l1_torus_index. destruct (l1_coord st idx) as [[x y] z].
        exists x, y, z. auto.
      * intros (x & y & z & Hb & Hg & ->).
        exists (flat_index (l1_W st, l1_L st, l1_H st) (x, y, z)). split.
        -- unfold l1_torus_index. rewrite l1_coord_of_flat by auto. reflexivity.
        -- apply (Permutation_in _ (Permutation_sym Hperm)), l1_idle_In.
           rewrite l1_coord_of_flat by auto.
           split; [apply flat_index_bounds; exact Hb | exact Hg].
Qed.

Lemma L1_allocate_all_free_witness :
  (0 < 3 * 1 * 1 ->
   exists m st', L1_allocate (fun l _ => range (Z.of_nat (length l)))
                   (mkL1 2 1 2 (grid_set empty_grid 1 0 0)) (3, 1, 1) = (Some m, st')) /\
  (forall m st', L1_allocate (fun l _ => range (Z.of_nat (length l)))
                   (mkL1 2 1 2 (grid_set empty_grid 1 0 0)) (3, 1, 1) = (Some m, st') ->
     NoDup m /\
     (forall v, In v m <->
        exists x y z, in_box 2 1 2 x y z /\ grid_set empty_grid 1 0 0 x y z = false /\
                      v = coord_to_linear_index x y z (2, 1, 2))).
Proof.
  apply (L1_allocate_all_free (fun l _ => range (Z.of_nat (length l)))
           (mkL1 2 1 2 (grid_set empty_grid 1 0 0)) 3 1 1); simpl; try lia.
  all: vm_compute; reflexivity.
Defined.

Lemma l1_candidate_ok (argpartition : list Z -> Z -> list Z)
    (Hperm : forall l kth, argpartition l kth ≡ₚ range (Z.of_nat (length l)))
    (st : L1Clustering) (k : Z) (idle : list Z) (c : Z) :
  NoDup idle ->
  NoDup (l1_candidate argpartition st k idle c) /\
  (forall idx, In idx (l1_candidate argpartition st k idle c) -> In idx idle).
Proof.
  intros Hnd. unfold l1_candidate.
  set (d := py_gather (get_torus_distance st (l1_coord st c)) idle).
  assert (Hd : length d = length idle) by (unfold d, py_gather; apply length_map).
  set (pos := if Z.of_nat (length d) =? k then range k
              else py_slice_to (argpartition d (k - 1)) k).
  assert (Hpos : NoDup pos /\ forall p, In p pos -> 0 <= p < Z.of_nat (length idle)).
  { unfold pos. destruct (Z.of_nat (length d) =? k) eqn:E.
    - apply Z.eqb_eq in E. split; [apply NoDup_range|].
      intros p Hp. apply In_range in Hp. lia.
    - split.
      + apply NoDup_py_slice_to. rewrite Hperm. apply NoDup_range.
      + intros p Hp. apply In_py_slice_to in Hp.
        apply (Permutation_in _ (Hperm d (k - 1))), In_range in Hp. lia. }
  destruct Hpos as (Hpnd & Hpin). unfold py_gather. split.
  - apply NoDup_map_inj; [|exact Hpnd].
    intros p q Hp Hq E. apply Hpin in Hp, Hq.
    apply NoDup_ListNoDup in Hnd.
    assert (Z.to_nat p = Z.to_nat q) by (apply (proj1 (NoDup_nth idle 0) Hnd); auto; lia).
    lia.
  - intros idx Hidx. apply in_map_iff in Hidx as (p & <- & Hp).
    apply Hpin in Hp. apply nth_In. lia.
Qed.

Section L1_order.

Variable argpartition : list Z -> Z -> list Z.

(** [np.argpartition(a, kth)] returns a permutation of the positions
    [0 .. len(a) - 1] of its argument. *)
Hypothesis argpartition_perm :
  forall l kth, argpartition l kth ≡ₚ range (Z.of_nat (length l)).

(** Claim C2 (as amended): for every grid state of a torus with
    positive dimensions and every shape, if [L1Clustering.allocate]
    returns a mapping then its entries follow the numpy C-order flat
    index of their cells ([x*L*H + y*H + z], x slowest, z fastest, the
    order of [grid.flatten()]): for [i < j], the cell of [mapping[i]]
    has a smaller flat index than the cell of [mapping[j]].  The values
    themselves are torus linear indices [z*L*W + y*W + x] and need not
    increase. *)
Theorem L1_allocate_sorted_by_flat_index (st st' : L1Clustering) (A B C : Z) (m : list Z) :
  0 < l1_W st -> 0 < l1_L st -> 0 < l1_H st ->
  L1_allocate argpartition st (A, B, C) = (Some m, st') ->
  forall i j, (i < j < length m)%nat ->
  flat_index (l1_W st, l1_L st, l1_H st)
    (linear_index_to_coord (nth i m 0) (l1_W st, l1_L st, l1_H st)) <
  flat_index (l1_W st, l1_L st, l1_H st)
    (linear_index_to_coord (nth j m 0) (l1_W st, l1_L st, l1_H st)).
Proof.
  intros HW HL HH Hrun.
  destruct (L1_allocate_some_inv _ _ _ _ _ _ _ Hrun) as (_ & c & Hm).
  set (idle := where_false_from 0 (l1_flatten st)) in *.
  set (sel := l1_candidate argpartition st (A * B * C) idle c) in *.
  destruct (l1_candidate_ok argpartition argpartition_perm st (A * B * C) idle c
              (l1_idle_NoDup st)) as (Hsnd & Hsin).
  fold sel in Hsnd, Hsin.
  pose proof (merge_sort_Permutation Z.le sel) as Hperm.
  set (sorted := merge_sort Z.le sel) in *.
  assert (Hss : StronglySorted Z.lt sorted).
  { apply StronglySorted_le_lt.
    - apply StronglySorted_merge_sort; [intros ? ? ?; lia | intros ? ?; lia].
    - unfold sorted. rewrite (merge_sort_Permutation Z.le sel). exact Hsnd. }
  assert (Hel : forall n, (n < length sorted)%nat ->
            flat_index (l1_W st, l1_L st, l1_H st)
              (linear_index_to_coord (nth n m 0) (l1_W st, l1_L st, l1_H st)) = nth n sorted 0).
  { intros n Hn.
    assert (Hin : In (nth n sorted 0) idle)
      by (apply Hsin, (Permutation_in _ Hperm), nth_In; exact Hn).
    apply l1_idle_In in Hin as (Hr & _).
    rewrite Hm, (nth_indep _ 0 (l1_torus_index st 0)) by (rewrite length_map; exact Hn).
    rewrite map_nth, l1_torus_index_decode by auto.
    apply l1_coord_flat; lia. }
  intros i j Hij. rewrite Hm, length_map in Hij.
  rewrite !Hel by lia. apply StronglySorted_nth; auto.
Qed.

End L1_order.

Lemma L1_allocate_sorted_by_flat_index_witness :
  flat_index (2, 1, 2) (linear_index_to_coord (nth 1 [0; 2; 1; 3] 0) (2, 1, 2)) <
  flat_index (2, 1, 2) (linear_index_to_coord (nth 2 [0; 2; 1; 3] 0) (2, 1, 2)).
Proof.
  apply (L1_allocate_sorted_by_flat_index (fun l _ => range (Z.of_nat (length l)))
           ltac:(intros; reflexivity)
           (L1Clustering_init 2 1 2)
           (snd (L1_allocate (fun l _ => range (Z.of_nat (length l)))
                   (L1Clustering_init 2 1 2) (2, 1, 2)))
           2 1 2 [0; 2; 1; 3]); simpl; try lia.
  apply injective_projections; [vm_compute; reflexivity | reflexivity].
Defined.

(** Claim C2 as stated fails: on an empty 2x1x2 torus a 2x1x2 job gets
    every cell (that branch never calls [np.argpartition], so the
    permutation chosen here plays no part), and the mapping is
    [[0; 2; 1; 3]]: its entries follow the numpy flat index of the
    cells, not their torus linear index ([mapping[1] = 2 > 1 =
    mapping[2]]). *)
Lemma L1_allocate_not_sorted_by_torus_index :
  fst (L1_allocate (fun l _ => range (Z.of_nat (length l)))
         (L1Clustering_init 2 1 2) (2, 1, 2)) = Some [0; 2; 1; 3] /\
  nth 2 [0; 2; 1; 3] 0 < nth 1 [0; 2; 1; 3] 0.
Proof. split; [vm_compute; reflexivity | simpl; lia]. Qed.

(* ===================================================================== *)
(** * Further properties *)
(* ===================================================================== *)

(* --------------------------------------------------------------------- *)
(** ** Block decomposition, placement loops and allocators *)
(* --------------------------------------------------------------------- *)

Lemma length_range (n : Z) : length (range n) = Z.to_nat n.
Proof. apply length_zseq. Qed.

Lemma range_step_pos (s e step : Z) :
  0 < step -> range_step s e step = map (fun i => s + i * step) (range ((e - s + step - 1) / step)).
Proof.
  intros H. unfold range_step. destruct (0 <? step) eqn:E; [reflexivity|].
  apply Z.ltb_ge in E. lia.
Qed.

Lemma range_step_neg_empty (n step : Z) : step < 0 -> 0 <= n -> range_step 0 n step = [].
Proof.
  intros Hs Hn. unfold range_step.
  destruct (0 <? step) eqn:E; [apply Z.ltb_lt in E; lia|].
  destruct (step <? 0) eqn:E'; [|apply Z.ltb_ge in E'; lia].
  rewrite range_nonpos; [reflexivity|].
  assert ((0 - n - step - 1) / - step < 1) by (apply Z.div_lt_upper_bound; lia). lia.
Qed.

Lemma In_range_step_unit (s B v : Z) : In v (range_step s (s + B) 1) <-> s <= v < s + B.
Proof.
  rewrite range_step_pos by lia. rewrite in_map_iff. split.
  - intros (i & <- & Hi). apply In_range in Hi. rewrite Z.div_1_r in Hi. lia.
  - intros Hv. exists (v - s). split; [lia|]. apply In_range. rewrite Z.div_1_r. lia.
Qed.

Lemma length_range_step_unit (s B : Z) : length (range_step s (s + B) 1) = Z.to_nat B.
Proof.
  rewrite range_step_pos, length_map, length_range by lia. f_equal.
  rewrite Z.div_1_r. lia.
Qed.

Lemma range_step_div_count (dim B : Z) :
  0 < B -> dim mod B = 0 -> (dim - 0 + B - 1) / B = dim / B.
Proof.
  intros HB Hm. pose proof (Z.div_mod dim B ltac:(lia)) as E.
  symmetry. apply Z.div_unique with (B - 1); lia.
Qed.

Lemma In_range_step_div (dim B v : Z) :
  0 < B -> dim mod B = 0 ->
  In v (range_step 0 dim B) <-> exists i, 0 <= i < dim / B /\ v = i * B.
Proof.
  intros HB Hm. rewrite range_step_pos, range_step_div_count, in_map_iff by auto.
  split.
  - intros (i & <- & Hi). apply In_range in Hi. exists i. split; [lia|ring].
  - intros (i & Hi & ->). exists i. split; [ring|]. apply In_range. lia.
Qed.

Lemma length_range_step_div (dim B : Z) :
  0 < B -> dim mod B = 0 -> length (range_step 0 dim B) = Z.to_nat (dim / B).
Proof.
  intros HB Hm. rewrite range_step_pos, range_step_div_count, length_map, length_range by auto.
  reflexivity.
Qed.

Lemma In_product3 (l1 l2 l3 : list Z) (a b c : Z) :
  In (a, b, c) (product3 l1 l2 l3) <-> In a l1 /\ In b l2 /\ In c l3.
Proof.
  unfold product3. rewrite in_flat_map. split.
  - intros (a' & Ha & H). apply in_flat_map in H as (b' & Hb & H).
    apply in_map_iff in H as (c' & E & Hc). injection E as -> -> ->. auto.
  - intros (Ha & Hb & Hc). exists a. split; [exact Ha|].
    apply in_flat_map. exists b. split; [exact Hb|].
    apply in_map_iff. exists c. auto.
Qed.

Lemma length_flat_map_const {A B} (f : A -> list B) (l : list A) (k : nat) :
  (forall a, In a l -> length (f a) = k) -> length (flat_map f l) = (length l * k)%nat.
Proof.
  induction l as [|a l IH]; intros Hk; simpl; [reflexivity|].
  rewrite length_app, Hk by (left; reflexivity).
  rewrite IH by (intros; apply Hk; right; auto). lia.
Qed.

Lemma length_product3 (l1 l2 l3 : list Z) :
  length (product3 l1 l2 l3) = (length l1 * length l2 * length l3)%nat.
Proof.
  unfold product3. rewrite (length_flat_map_const _ _ (length l2 * length l3)); [lia|].
  intros a _. rewrite (length_flat_map_const _ _ (length l3)); [lia|].
  intros b _. apply length_map.
Qed.

Lemma length_concat_const {A} (l : list (list A)) (k : nat) :
  (forall x, In x l -> length x = k) -> length (concat l) = (length l * k)%nat.
Proof.
  induction l as [|x l IH]; intros Hk; simpl; [reflexivity|].
  rewrite length_app, Hk by (left; reflexivity).
  rewrite IH by (intros; apply Hk; right; auto). lia.
Qed.

(** Decoding a linear index inside the torus and encoding it again. *)
Lemma linear_index_encode_decode (W L H i : Z) :
  0 < W -> 0 < L -> 0 <= i < W * L * H ->
  let '(x, y, z) := linear_index_to_coord i (W, L, H) in
  in_box W L H x y z /\ coord_to_linear_index x y z (W, L, H) = i.
Proof.
  intros HW HL Hi. simpl. unfold in_box.
  assert (HLW : 0 < L * W) by lia.
  split; [split; [|split]|].
  - apply Z.mod_pos_bound. lia.
  - apply Z.mod_pos_bound. lia.
  - split; [apply Z.div_pos; lia|]. apply Z.div_lt_upper_bound; lia.
  - rewrite (Z.mul_comm L W), <- Z.div_div by lia.
    pose proof (Z.div_mod i W ltac:(lia)) as E1.
    pose proof (Z.div_mod (i / W) L ltac:(lia)) as E2.
    set (q := i / W) in *. set (a := q / L) in *.
    set (b := q mod L) in *. set (r := i mod W) in *.
    transitivity (W * q + r); [rewrite E2; ring | symmetry; exact E1].
Qed.

Lemma In_job_blocks (D T P B n : Z) :
  0 < B -> D mod B = 0 -> T mod B = 0 -> P mod B = 0 ->
  In n (concat (job_blocks_of (D, T, P) B)) <->
  exists p t d, 0 <= p < P /\ 0 <= t < T /\ 0 <= d < D /\ n = p * (T * D) + t * D + d.
Proof.
  intros HB HD HT HP. unfold job_blocks_of. rewrite in_concat. split.
  - intros (blk & Hblk & Hn). apply in_map_iff in Hblk as ([[ps ts] ds] & <- & Hs).
    apply In_product3 in Hs as (Hps & Hts & Hds).
    apply In_range_step_div in Hps as (ip & Hip & ->), Hts as (it & Hit & ->),
      Hds as (id & Hid & ->); auto.
    apply in_map_iff in Hn as ([[p t] d] & <- & Hc).
    apply In_product3 in Hc as (Hp & Ht & Hd).
    apply In_range_step_unit in Hp, Ht, Hd.
    pose proof (Z.div_mod P B ltac:(lia)). pose proof (Z.div_mod T B ltac:(lia)).
    pose proof (Z.div_mod D B ltac:(lia)).
    exists p, t, d. split; [nia|]. split; [nia|]. split; [nia|]. reflexivity.
  - intros (p & t & d & Hp & Ht & Hd & ->).
    exists (map (fun '(p, t, d) => p * (T * D) + t * D + d)
              (product3 (range_step (p / B * B) (p / B * B + B) 1)
                        (range_step (t / B * B) (t / B * B + B) 1)
                        (range_step (d / B * B) (d / B * B + B) 1))).
    pose proof (Z.div_mod P B ltac:(lia)). pose proof (Z.div_mod T B ltac:(lia)).
    pose proof (Z.div_mod D B ltac:(lia)).
    pose proof (Z.div_mod p B ltac:(lia)). pose proof (Z.div_mod t B ltac:(lia)).
    pose proof (Z.div_mod d B ltac:(lia)).
    pose proof (Z.mod_pos_bound p B HB). pose proof (Z.mod_pos_bound t B HB).
    pose proof (Z.mod_pos_bound d B HB).
    split.
    + apply in_map_iff. exists (p / B * B, t / B * B, d / B * B). split; [reflexivity|].
      apply In_product3.
      split; [|split]; apply In_range_step_div; auto.
      * exists (p / B). split; [|reflexivity]. split; [apply Z.div_pos; lia|].
        apply Z.div_lt_upper_bound; lia.
      * exists (t / B). split; [|reflexivity]. split; [apply Z.div_pos; lia|].
        apply Z.div_lt_upper_bound; lia.
      * exists (d / B). split; [|reflexivity]. split; [apply Z.div_pos; lia|].
        apply Z.div_lt_upper_bound; lia.
    + apply in_map_iff. exists (p, t, d). split; [reflexivity|].
      apply In_product3. rewrite !In_range_step_unit. lia.
Qed.

Lemma job_blocks_shape (D T P B : Z) :
  0 < B -> 0 <= D -> 0 <= T -> 0 <= P -> D mod B = 0 -> T mod B = 0 -> P mod B = 0 ->
  (forall blk, In blk (job_blocks_of (D, T, P) B) -> length blk = Z.to_nat (B * B * B)) /\
  length (job_blocks_of (D, T, P) B) = Z.to_nat ((P / B) * (T / B) * (D / B)).
Proof.
  intros HB HD0 HT0 HP0 HD HT HP. unfold job_blocks_of. split.
  - intros blk Hblk. apply in_map_iff in Hblk as ([[ps ts] ds] & <- & _).
    rewrite length_map, length_product3, !length_range_step_unit.
    rewrite !Z2Nat.inj_mul by lia. reflexivity.
  - rewrite length_map, length_product3, !length_range_step_div by auto.
    assert (0 <= P / B) by (apply Z.div_pos; lia).
    assert (0 <= T / B) by (apply Z.div_pos; lia).
    assert (0 <= D / B) by (apply Z.div_pos; lia).
    rewrite !Z2Nat.inj_mul by lia. reflexivity.
Qed.

Lemma job_blocks_partition (D T P B : Z) :
  0 < B -> 0 <= D -> 0 <= T -> 0 <= P -> D mod B = 0 -> T mod B = 0 -> P mod B = 0 ->
  concat (job_blocks_of (D, T, P) B) ≡ₚ range (D * T * P).
Proof.
  intros HB HD0 HT0 HP0 HD HT HP.
  destruct (job_blocks_shape D T P B) as (Hlen & Hcount); auto.
  assert (Hin : forall n, In n (concat (job_blocks_of (D, T, P) B)) <-> In n (range (D * T * P))).
  { intros n. rewrite In_job_blocks, In_range by auto. split.
    - intros (p & t & d & Hp & Ht & Hd & ->).
      pose proof (linear_index_bounds D T P d t p) as Hb. unfold in_box in Hb.
      simpl in Hb. replace (p * T * D) with (p * (T * D)) in Hb by ring. apply Hb. lia.
    - intros Hn.
      assert (0 < D /\ 0 < T) as [HDp HTp].
      { destruct (Z.eq_dec D 0) as [->|]; [lia|]. destruct (Z.eq_dec T 0) as [->|]; [lia|]. lia. }
      pose proof (linear_index_encode_decode D T P n HDp HTp Hn) as Hdec.
      destruct (linear_index_to_coord n (D, T, P)) as [[d t] p].
      destruct Hdec as ((Hd & Ht & Hp) & Henc). simpl in Henc.
      exists p, t, d. split; [lia|]. split; [lia|]. split; [lia|].
      rewrite <- Henc. ring. }
  apply NoDup_Permutation.
  - apply NoDup_ListNoDup.
    apply NoDup_incl_NoDup with (l := range (D * T * P)).
    + apply NoDup_ListNoDup, NoDup_range.
    + rewrite (length_concat_const _ (Z.to_nat (B * B * B))) by exact Hlen.
      rewrite Hcount, length_range.
      pose proof (Z.div_mod P B ltac:(lia)). pose proof (Z.div_mod T B ltac:(lia)).
      pose proof (Z.div_mod D B ltac:(lia)).
      assert (0 <= P / B) by (apply Z.div_pos; lia).
      assert (0 <= T / B) by (apply Z.div_pos; lia).
      assert (0 <= D / B) by (apply Z.div_pos; lia).
      rewrite <- Z2Nat.inj_mul by nia. apply Z2Nat.inj_le; [nia|nia|].
      apply Z.eq_le_incl. nia.
    + intros n Hn. apply Hin. exact Hn.
  - apply NoDup_range.
  - intros n. rewrite !list_elem_of_In. apply Hin.
Qed.

Lemma init_torus_blocks_ok (W L H B : Z) :
  B <> 0 -> W mod B = 0 -> L mod B = 0 -> H mod B = 0 ->
  init_torus_blocks (W, L, H) B = Ok (job_blocks_of (W, L, H) B).
Proof.
  intros HB HW HL HH. unfold init_torus_blocks, job_blocks_of.
  rewrite (proj2 (Z.eqb_neq B 0) HB). simpl.
  rewrite HW, HL, HH. simpl. reflexivity.
Qed.

Lemma firstn_skipn_middle {A} (l1 l2 : list A) (a : A) :
  firstn (length l1) (l1 ++ a :: l2) ++ skipn (S (length l1)) (l1 ++ a :: l2) = l1 ++ l2.
Proof. induction l1 as [|x l1 IH]; simpl; [reflexivity|]. rewrite IH. reflexivity. Qed.

Lemma py_pop_ok {A} (l : list A) (i : Z) :
  0 <= i < Z.of_nat (length l) ->
  exists a l', py_pop l i = Ok (a, l') /\ Permutation l (a :: l') /\
               length l' = pred (length l).
Proof.
  intros Hi. unfold py_pop.
  rewrite (proj2 (Z.leb_le 0 i)) by lia. rewrite (proj2 (Z.ltb_lt _ _)) by lia. simpl.
  destruct (nth_error l (Z.to_nat i)) as [a|] eqn:E.
  - destruct (nth_error_split l (Z.to_nat i) E) as (l1 & l2 & -> & Hl1).
    exists a, (l1 ++ l2). split; [rewrite <- Hl1, firstn_skipn_middle; reflexivity|].
    split.
    + symmetry. apply Permutation_middle.
    + rewrite !length_app. simpl. lia.
  - apply nth_error_None in E. lia.
Qed.

Lemma py_pop_err {A} (l : list A) (i : Z) :
  (i < 0 \/ Z.of_nat (length l) <= i) -> py_pop l i = Err IndexError.
Proof.
  intros Hi. unfold py_pop.
  destruct (0 <=? i) eqn:E1, (i <? Z.of_nat (length l)) eqn:E2; simpl; try reflexivity.
  apply Z.leb_le in E1. apply Z.ltb_lt in E2. lia.
Qed.

(** One step of [place_block] from an [Ok] state. *)
Lemma place_block_step (name : string) (r : bool) (tb : list (list Z)) (ds : list Z)
    (p : gmap string Z) (jb : list Z) :
  (tb = [] -> place_block name r (Ok (tb, ds, p)) jb =
              Err (if r then ValueError EmptyRandRange else IndexError)) /\
  (tb <> [] -> exists t tb' ds',
     place_block name r (Ok (tb, ds, p)) jb =
       Ok (tb', ds', fold_left (fun p '(j_node, t_node) =>
                                  <[placement_key name j_node := t_node]> p)
                       (combine jb t) p) /\
     Permutation tb (t :: tb')).
Proof.
  split.
  - intros ->. destruct r; reflexivity.
  - intros Hne. unfold place_block.
    assert (Hlen : (length tb <> 0)%nat) by (destruct tb; simpl; congruence).
    assert (Hptr : exists ptr ds', 0 <= ptr < Z.of_nat (length tb) /\
              (if r then if (length tb =? 0)%nat then Err (ValueError EmptyRandRange)
                         else match ds with
                              | d :: ds0 => Ok (d mod Z.of_nat (length tb), ds0)
                              | [] => Ok (0, [])
                              end
               else Ok (0, ds)) = Ok (ptr, ds')).
    { destruct r.
      - rewrite (proj2 (Nat.eqb_neq _ _) Hlen).
        destruct ds as [|d ds0].
        + exists 0, []. split; [lia|reflexivity].
        + exists (d mod Z.of_nat (length tb)), ds0. split; [|reflexivity].
          apply Z.mod_pos_bound. lia.
      - exists 0, ds. split; [lia|reflexivity]. }
    destruct Hptr as (ptr & ds' & Hb & ->).
    destruct (py_pop_ok tb ptr Hb) as (t & tb' & -> & Hperm & _).
    exists t, tb', ds'. split; [reflexivity|exact Hperm].
Qed.

Lemma fold_place_block_err (name : string) (r : bool) bs e :
  fold_left (place_block name r) bs (Err e) = Err e.
Proof. induction bs; simpl; auto. Qed.

Lemma fold_jobs_err (r : bool) (jobs : list (string * list (list Z))) e :
  fold_left (fun acc '(job_name, j_blocks) =>
               fold_left (place_block job_name r) j_blocks acc) jobs (Err e) = Err e.
Proof.
  induction jobs as [|[n bs] jobs IH]; simpl; auto.
  rewrite fold_place_block_err. exact IH.
Qed.

(** The blocks of one job: [Ok] exactly when enough torus blocks remain. *)
Lemma fold_place_block_count (name : string) (r : bool) bs :
  forall tb ds p,
    ((length bs <= length tb)%nat ->
     exists tb' ds' p', fold_left (place_block name r) bs (Ok (tb, ds, p)) = Ok (tb', ds', p') /\
                        length tb' = (length tb - length bs)%nat) /\
    ((length tb < length bs)%nat ->
     fold_left (place_block name r) bs (Ok (tb, ds, p)) =
       Err (if r then ValueError EmptyRandRange else IndexError)).
Proof.
  induction bs as [|jb bs IH]; intros tb ds p; cbn [fold_left length].
  - split; [intros _; exists tb, ds, p; split; [reflexivity|lia]|lia].
  - destruct tb as [|t0 tb0].
    + destruct (place_block_step name r [] ds p jb) as [Hnil _].
      rewrite (Hnil eq_refl), fold_place_block_err. split; [simpl; lia|reflexivity].
    + destruct (place_block_step name r (t0 :: tb0) ds p jb) as [_ Hcons].
      destruct (Hcons ltac:(discriminate)) as (t & tb' & ds' & -> & Hperm).
      apply Permutation_length in Hperm. simpl in Hperm.
      destruct (IH tb' ds' (fold_left (fun p '(j_node, t_node) =>
                                  <[placement_key name j_node := t_node]> p)
                       (combine jb t) p)) as [Hok Herr].
      split.
      * intros Hle. destruct (Hok ltac:(simpl in Hle; lia)) as (tb'' & ds'' & p'' & Heq & Hl).
        exists tb'', ds'', p''. split; [exact Heq|]. simpl. lia.
      * intros Hlt. apply Herr. simpl in Hlt. lia.
Qed.

Lemma fold_jobs_count (r : bool) (jobs : list (string * list (list Z))) :
  forall tb ds p,
    ((length (flat_map snd jobs) <= length tb)%nat ->
     exists tb' ds' p', fold_left (fun acc '(job_name, j_blocks) =>
               fold_left (place_block job_name r) j_blocks acc) jobs (Ok (tb, ds, p))
                        = Ok (tb', ds', p')) /\
    ((length tb < length (flat_map snd jobs))%nat ->
     fold_left (fun acc '(job_name, j_blocks) =>
               fold_left (place_block job_name r) j_blocks acc) jobs (Ok (tb, ds, p)) =
       Err (if r then ValueError EmptyRandRange else IndexError)).
Proof.
  induction jobs as [|[n bs] jobs IH]; intros tb ds p; simpl.
  - split; [intros _; eauto|lia].
  - rewrite length_app.
    destruct (fold_place_block_count n r bs tb ds p) as [Hok Herr].
    destruct (Nat.le_gt_cases (length bs) (length tb)) as [Hle|Hlt].
    + destruct (Hok Hle) as (tb' & ds' & p' & -> & Hl).
      destruct (IH tb' ds' p') as [Hok' Herr']. split.
      * intros Hle'. apply Hok'. lia.
      * intros Hlt'. apply Herr'. lia.
    + rewrite (Herr Hlt), fold_jobs_err. split; [lia|reflexivity].
Qed.

Lemma length_flat_map_perm {A B} (f : A -> list B) (l l' : list A) :
  Permutation l l' -> length (flat_map f l) = length (flat_map f l').
Proof. induction 1; simpl; rewrite ?length_app in *; lia. Qed.

(** [block_placement] succeeds exactly when there are at least as many
    torus blocks as job blocks; otherwise popping from the exhausted list
    raises [IndexError], or [ValueError] from [random.randrange] in the
    random mode. *)
Lemma block_placement_count (tb : list (list Z)) (jbs : list (string * list (list Z)))
    (r : bool) (ds : list Z) :
  ((length (flat_map snd jbs) <= length tb)%nat ->
   exists p, block_placement tb jbs r ds = Ok p) /\
  ((length tb < length (flat_map snd jbs))%nat ->
   block_placement tb jbs r ds = Err (if r then ValueError EmptyRandRange else IndexError)).
Proof.
  unfold block_placement.
  match goal with |- context [@merge_sort _ _ ?D jbs] => set (sj := @merge_sort _ _ D jbs) end.
  rewrite (length_flat_map_perm snd jbs sj)
    by (symmetry; apply merge_sort_Permutation).
  destruct (fold_jobs_count r sj tb ds ∅) as [Hok Herr].
  split.
  - intros Hle. destruct (Hok Hle) as (tb' & ds' & p' & ->). eauto.
  - intros Hlt. rewrite (Herr Hlt). reflexivity.
Qed.

Lemma concat_Permutation {A} (l l' : list (list A)) :
  Permutation l l' -> Permutation (concat l) (concat l').
Proof.
  induction 1; simpl.
  - constructor.
  - apply Permutation_app_head. assumption.
  - rewrite !app_assoc. apply Permutation_app_tail, Permutation_app_comm.
  - etransitivity; eassumption.
Qed.

Lemma map_injective_insert_fresh (p : gmap string Z) (k : string) (v : Z) :
  map_injective p -> (forall k', p !! k' <> Some v) -> map_injective (<[k := v]> p).
Proof.
  intros Hinj Hfresh k1 k2 w H1 H2.
  apply lookup_insert_Some in H1, H2.
  destruct H1 as [[<- <-]|[Hne1 H1]], H2 as [[<- E]|[Hne2 H2]]; try reflexivity.
  - exfalso. subst. exact (Hfresh k2 H2).
  - exfalso. subst. exact (Hfresh k1 H1).
  - exact (Hinj k1 k2 w H1 H2).
Qed.

Lemma combine_snd_In {A B} (l1 : list A) (l2 : list B) v :
  In v (map snd (combine l1 l2)) -> In v l2.
Proof.
  revert l2. induction l1 as [|a l1 IH]; intros [|b l2]; simpl; try tauto.
  intros [->|H]; [left; reflexivity|right; apply IH, H].
Qed.

Lemma combine_snd_NoDup {A B} (l1 : list A) (l2 : list B) :
  List.NoDup l2 -> List.NoDup (map snd (combine l1 l2)).
Proof.
  revert l2. induction l1 as [|a l1 IH]; intros [|b l2] Hnd; simpl; [constructor..|].
  inversion Hnd as [|? ? Hb Hnd']; subst. constructor.
  - intros Hin. apply Hb, (combine_snd_In l1), Hin.
  - apply IH, Hnd'.
Qed.

(** The inserts of one block into the placement keep it injective when
    the new values are fresh. *)
Lemma insert_pairs_spec (name : string) (pairs : list (Z * Z)) :
  forall p : gmap string Z,
    List.NoDup (map snd pairs) -> map_injective p ->
    (forall k v, p !! k = Some v -> ~ In v (map snd pairs)) ->
    map_injective (fold_left (fun p '(j_node, t_node) =>
                                <[placement_key name j_node := t_node]> p) pairs p) /\
    (forall k v, fold_left (fun p '(j_node, t_node) =>
                              <[placement_key name j_node := t_node]> p) pairs p !! k = Some v ->
                 p !! k = Some v \/ In v (map snd pairs)).
Proof.
  induction pairs as [|[j t] pairs IH]; intros p Hnd Hinj Hfresh; cbn [fold_left map snd] in *.
  - split; [exact Hinj|]. intros k v H. left. exact H.
  - inversion Hnd as [|? ? Ht Hnd']; subst.
    destruct (IH (<[placement_key name j := t]> p) Hnd') as [Hinj' Hvals].
    + apply map_injective_insert_fresh; [exact Hinj|].
      intros k' Hk'. apply (Hfresh k' t Hk'). left. reflexivity.
    + intros k v Hk. apply lookup_insert_Some in Hk.
      destruct Hk as [[_ <-]|[_ Hk]]; [exact Ht|].
      intros Hin. apply (Hfresh k v Hk). right. exact Hin.
    + split; [exact Hinj'|]. intros k v Hk.
      destruct (Hvals k v Hk) as [H|H]; [|right; right; exact H].
      apply lookup_insert_Some in H. destruct H as [[_ <-]|[_ H]].
      * right. left. reflexivity.
      * left. exact H.
Qed.

Lemma place_block_inv (tb0 : list (list Z)) (name : string) (r : bool) acc jb :
  block_inv tb0 acc -> block_inv tb0 (place_block name r acc jb).
Proof.
  destruct acc as [[[tb ds] p]|e]; [|intros _; exact I].
  intros (Hnd & Hsub & Hinj & Hvals).
  destruct tb as [|t0 tb0'].
  { rewrite (proj1 (place_block_step name r [] ds p jb) eq_refl). exact I. }
  destruct (proj2 (place_block_step name r (t0 :: tb0') ds p jb) ltac:(discriminate))
    as (t & tb' & ds' & -> & Hperm).
  apply concat_Permutation in Hperm. simpl in Hperm.
  assert (Hnd2 : List.NoDup (t ++ concat tb')) by (eapply Permutation_NoDup; eassumption).
  assert (Hin2 : forall v, In v (t ++ concat tb') -> In v (concat (t0 :: tb0'))).
  { intros v Hv. apply Permutation_in with (l := t ++ concat tb'); [symmetry; exact Hperm|exact Hv]. }
  pose proof (NoDup_app_remove_r _ _ Hnd2) as Hndt.
  pose proof (NoDup_app_remove_l _ _ Hnd2) as Hndr.
  destruct (insert_pairs_spec name (combine jb t) p (combine_snd_NoDup jb t Hndt) Hinj)
    as [Hinj' Hvals'].
  { intros k v Hk Hv. apply (proj2 (Hvals k v Hk)), Hin2, in_or_app. left.
    exact (combine_snd_In _ _ _ Hv). }
  cbn. split; [exact Hndr|]. split.
  { intros v Hv. apply Hsub, Hin2, in_or_app. right. exact Hv. }
  split; [exact Hinj'|].
  intros k v Hk. destruct (Hvals' k v Hk) as [H|H].
  - destruct (Hvals k v H) as [H1 H2]. split; [exact H1|].
    intros Hv. apply H2, Hin2, in_or_app. right. exact Hv.
  - apply combine_snd_In in H. split.
    + apply Hsub, Hin2, in_or_app. left. exact H.
    + intros Hv. apply NoDup_ListNoDup, NoDup_app in Hnd2 as (_ & Hdis & _).
      apply (Hdis v); apply list_elem_of_In; assumption.
Qed.

Lemma block_placement_injective_aux (tb : list (list Z)) (jbs : list (string * list (list Z)))
    (r : bool) (ds : list Z) (p : gmap string Z) :
  NoDup (concat tb) -> block_placement tb jbs r ds = Ok p ->
  map_injective p /\ forall k v, p !! k = Some v -> In v (concat tb).
Proof.
  intros Hnd Hrun. unfold block_placement in Hrun.
  match type of Hrun with context [@merge_sort _ _ ?D jbs] => set (sj := @merge_sort _ _ D jbs) in Hrun end.
  assert (Hinv : block_inv tb (fold_left (fun acc '(job_name, j_blocks) =>
                     fold_left (place_block job_name r) j_blocks acc)
                    sj (Ok (tb, ds, ∅)))).
  { apply fold_left_inv.
    - cbn. split; [apply NoDup_ListNoDup, Hnd|]. split; [tauto|].
      split; [intros k1 k2 v H; rewrite lookup_empty in H; discriminate|].
      intros k v H. rewrite lookup_empty in H. discriminate.
    - intros acc [n bs] _ Hacc. apply fold_left_inv; [exact Hacc|].
      intros acc' jb _ H. apply place_block_inv, H. }
  destruct (fold_left _ _ _) as [[[tb' ds'] p']|e]; [|discriminate].
  injection Hrun as <-. destruct Hinv as (_ & _ & Hinj & Hvals).
  split; [exact Hinj|]. intros k v Hk. apply (Hvals k v Hk).
Qed.

Lemma job_blocks_neg (D T P B : Z) :
  B < 0 -> 0 <= P -> job_blocks_of (D, T, P) B = [].
Proof.
  intros HB HP. unfold job_blocks_of. rewrite (range_step_neg_empty P B HB HP). reflexivity.
Qed.

(** On the block path, a successful [place_main] puts distinct torus
    nodes, all in [0, W*L*H), under its keys. *)
Lemma place_main_block_values (W L H B : Z) (jobs : list (string * (Z * Z * Z)))
    (policy : string) (r : bool) (ds : list Z) (p : gmap string Z) :
  0 <= W -> 0 <= L -> 0 <= H -> policy <> "firstfit"%string ->
  place_main (W, L, H) B jobs policy r ds = Ok p ->
  map_injective p /\ forall k v, p !! k = Some v -> 0 <= v < W * L * H.
Proof.
  intros HW HL HH Hpol Hrun. unfold place_main in Hrun.
  destruct (_ <? _); [discriminate|].
  rewrite (proj2 (String.eqb_neq _ _) Hpol) in Hrun.
  destruct (existsb _ jobs); [discriminate|].
  destruct (init_torus_blocks (W, L, H) B) as [tb|e] eqn:Ei; [|discriminate].
  assert (HB : B <> 0 /\ W mod B = 0 /\ L mod B = 0 /\ H mod B = 0).
  { unfold init_torus_blocks in Ei.
    destruct (B =? 0) eqn:EB; [discriminate|]. apply Z.eqb_neq in EB.
    destruct (existsb _ _) eqn:Ex; [discriminate|]. simpl in Ex.
    apply orb_false_iff in Ex as [E1 Ex]. apply orb_false_iff in Ex as [E2 Ex].
    apply orb_false_iff in Ex as [E3 _].
    apply negb_false_iff, Z.eqb_eq in E1, E2, E3. auto. }
  destruct HB as (HB & HmW & HmL & HmH).
  rewrite init_torus_blocks_ok in Ei by auto.
  assert (Htb : tb = job_blocks_of (W, L, H) B) by congruence. subst tb.
  destruct (Z_lt_le_dec B 0) as [Hneg|Hpos].
  - rewrite job_blocks_neg in Hrun by auto.
    destruct (block_placement_injective_aux [] _ r ds p ltac:(constructor) Hrun) as [Hinj Hv].
    split; [exact Hinj|]. intros k v Hk. destruct (Hv k v Hk).
  - pose proof (job_blocks_partition W L H B ltac:(lia) HW HL HH HmW HmL HmH) as Hperm.
    assert (Hnd : NoDup (concat (job_blocks_of (W, L, H) B))).
    { rewrite Hperm. apply NoDup_range. }
    destruct (block_placement_injective_aux _ _ r ds p Hnd Hrun) as [Hinj Hv].
    split; [exact Hinj|]. intros k v Hk.
    apply In_range. apply (Permutation_in _ Hperm), (Hv k v Hk).
Qed.

Lemma min_dim_check_nonpos (jobs : list (string * (Z * Z * Z))) (B : Z) :
  B <= 0 ->
  Forall (fun '(_, dims) => let '(a, b, c) := dims in 0 <= a /\ 0 <= b /\ 0 <= c) jobs ->
  existsb (fun '(_, dims) =>
             let '(a, b, c) := dims in Z.min (Z.min a b) c <? B) jobs = false.
Proof.
  intros HB Hjobs. induction Hjobs as [|[n [[a b] c]] jobs Hj _ IH]; [reflexivity|].
  simpl. rewrite IH, orb_false_r. apply Z.ltb_ge. lia.
Qed.

Lemma block_placement_no_blocks (jbs : list (string * list (list Z))) (r : bool) (ds : list Z) :
  Forall (fun nb => snd nb = []) jbs -> block_placement [] jbs r ds = Ok ∅.
Proof.
  intros Hall. unfold block_placement.
  match goal with |- context [@merge_sort _ _ ?D jbs] => set (sj := @merge_sort _ _ D jbs) end.
  assert (Hsj : forall nb, In nb sj -> snd nb = []).
  { assert (Hp : Permutation sj jbs) by (unfold sj; apply merge_sort_Permutation).
    intros nb Hin. rewrite Forall_forall in Hall. apply Hall, list_elem_of_In.
    apply (Permutation_in _ Hp), Hin. }
  assert (Hfold : fold_left (fun acc '(job_name, j_blocks) =>
                     fold_left (place_block job_name r) j_blocks acc) sj (Ok ([], ds, ∅))
                  = Ok ([], ds, ∅)).
  { apply (fold_left_inv (fun acc => acc = Ok ([], ds, ∅))); [reflexivity|].
    intros acc [n bs] Hin ->. apply Hsj in Hin. simpl in Hin. subst bs. reflexivity. }
  rewrite Hfold. reflexivity.
Qed.

(** A negative block size dividing the torus is not rejected: the block
    path answers with an empty placement. *)
Lemma place_main_negative_block_empty (W L H B : Z) (jobs : list (string * (Z * Z * Z)))
    (policy : string) (r : bool) (ds : list Z) :
  B < 0 -> 0 <= H -> W mod B = 0 -> L mod B = 0 -> H mod B = 0 ->
  Forall (fun '(_, dims) => let '(a, b, c) := dims in 0 <= a /\ 0 <= b /\ 0 <= c) jobs ->
  sum_list (map (fun '(_, dims) => volume dims) jobs) <= W * L * H ->
  policy <> "firstfit"%string ->
  place_main (W, L, H) B jobs policy r ds = Ok ∅.
Proof.
  intros HB HH HmW HmL HmH Hjobs Hcap Hpol. unfold place_main.
  rewrite (proj2 (Z.ltb_ge _ _)) by (simpl; lia).
  rewrite (proj2 (String.eqb_neq _ _) Hpol).
  rewrite min_dim_check_nonpos by (auto; lia).
  rewrite init_torus_blocks_ok by (auto; lia).
  rewrite job_blocks_neg by auto.
  apply block_placement_no_blocks.
  unfold init_job_blocks. apply Forall_forall. intros nb Hin.
  apply list_elem_of_In, in_map_iff in Hin as ([n [[a b] c]] & <- & Hin).
  rewrite Forall_forall in Hjobs. apply list_elem_of_In in Hin.
  pose proof (Hjobs _ Hin) as Hj. simpl in Hj. simpl.
  apply job_blocks_neg; lia.
Qed.

(** Block size 0 on the block path: the torus check divides by it. *)
Lemma place_main_block_zero (W L H : Z) (jobs : list (string * (Z * Z * Z)))
    (policy : string) (r : bool) (ds : list Z) :
  Forall (fun '(_, dims) => let '(a, b, c) := dims in 0 <= a /\ 0 <= b /\ 0 <= c) jobs ->
  sum_list (map (fun '(_, dims) => volume dims) jobs) <= W * L * H ->
  policy <> "firstfit"%string ->
  place_main (W, L, H) 0 jobs policy r ds = Err ZeroDivisionError.
Proof.
  intros Hjobs Hcap Hpol. unfold place_main.
  rewrite (proj2 (Z.ltb_ge _ _)) by (simpl; lia).
  rewrite (proj2 (String.eqb_neq _ _) Hpol).
  rewrite min_dim_check_nonpos by (auto; lia).
  reflexivity.
Qed.

Lemma fold_left_ext {A S} (f g : S -> A -> S) (l : list A) (s : S) :
  (forall s x, f s x = g s x) -> fold_left f l s = fold_left g l s.
Proof. intros H. revert s. induction l as [|x l IH]; intros s; simpl; [|rewrite H]; auto. Qed.

Lemma fold_left_flat_map {A B S} (f : S -> B -> S) (g : A -> list B) (l : list A) (s : S) :
  fold_left f (flat_map g l) s = fold_left (fun s a => fold_left f (g a) s) l s.
Proof.
  revert s. induction l as [|a l IH]; intros s; simpl; [reflexivity|].
  rewrite fold_left_app. apply IH.
Qed.

Lemma fold_left_map' {A B S} (f : S -> B -> S) (g : A -> B) (l : list A) (s : S) :
  fold_left f (map g l) s = fold_left (fun s a => f s (g a)) l s.
Proof. revert s. induction l as [|a l IH]; intros s; simpl; auto. Qed.

(** The three nested loops of [FirstFit.allocate] run over
    [itertools.product(range(C), range(B), range(A))]. *)
Lemma fold3_product {S} (F : Z -> Z -> Z -> S -> S) (lc lb la : list Z) (s : S) :
  fold_left (fun acc c =>
    fold_left (fun acc b =>
      fold_left (fun acc a => F a b c acc) la acc) lb acc) lc s =
  fold_left (fun acc t => let '(c, b, a) := t in F a b c acc) (product3 lc lb la) s.
Proof.
  unfold product3. rewrite fold_left_flat_map. apply fold_left_ext. intros acc c.
  rewrite fold_left_flat_map. apply fold_left_ext. intros acc' b.
  rewrite fold_left_map'. reflexivity.
Qed.

Lemma classic_exists_key {T} (l : list T) (key : T -> Z) (j : Z) :
  (exists t, In t l /\ key t = j) \/ (forall t, In t l -> key t <> j).
Proof.
  induction l as [|t l [(t' & Ht' & Hk)|Hnone]].
  - right. intros t [].
  - left. exists t'. split; [right|]; assumption.
  - destruct (Z.eq_dec (key t) j) as [Hk|Hk].
    + left. exists t. split; [left; reflexivity|exact Hk].
    + right. intros t' [<-|Ht']; auto.
Qed.

Lemma fold_insert_lookup {T} (key val : T -> Z) (l : list T) :
  (forall t t', In t l -> In t' l -> key t = key t' -> val t = val t') ->
  forall (m0 : gmap Z Z) j v,
    fold_left (fun m t => <[key t := val t]> m) l m0 !! j = Some v <->
    (exists t, In t l /\ key t = j /\ val t = v) \/
    (m0 !! j = Some v /\ forall t, In t l -> key t <> j).
Proof.
  induction l as [|t l IH]; intros Hfun m0 j v; simpl.
  - split; [intros H; right; split; [exact H|tauto]|].
    intros [(t & [] & _)|[H _]]. exact H.
  - rewrite IH by (intros; apply Hfun; simpl; auto). split.
    + intros [(t' & Ht' & Hk & Hv)|[Hm Hk]].
      * left. exists t'. auto.
      * apply lookup_insert_Some in Hm. destruct Hm as [[Hkt Hvt]|[Hne Hm]].
        -- left. exists t. auto.
        -- right. split; [exact Hm|]. intros t' [<-|Ht']; auto.
    + intros [(t' & [<-|Ht'] & Hk & Hv)|[Hm Hk]].
      * destruct (classic_exists_key l key j) as [(t'' & Ht'' & Hk'')|Hnone].
        -- left. exists t''. split; [exact Ht''|]. split; [exact Hk''|].
           rewrite <- Hv. apply Hfun; simpl; auto; congruence.
        -- right. split; [|exact Hnone]. apply lookup_insert_Some. left. auto.
      * left. exists t'. auto.
      * right. split.
        -- apply lookup_insert_Some. right. split; [apply Hk; left; reflexivity|exact Hm].
        -- intros t' Ht'. apply Hk. right. exact Ht'.
Qed.

Lemma grid_set_iff (g : grid3) (px py pz x y z : Z) :
  grid_set g px py pz x y z = true <-> g x y z = true \/ (x = px /\ y = py /\ z = pz).
Proof.
  unfold grid_set.
  destruct (x =? px) eqn:Ex, (y =? py) eqn:Ey, (z =? pz) eqn:Ez; simpl;
    rewrite ?Z.eqb_eq, ?Z.eqb_neq in *; intuition congruence.
Qed.

Lemma fold_grid_set {T} (px py pz : T -> Z) (l : list T) :
  forall (g0 : grid3) x y z,
    fold_left (fun g t => grid_set g (px t) (py t) (pz t)) l g0 x y z = true <->
    g0 x y z = true \/ exists t, In t l /\ x = px t /\ y = py t /\ z = pz t.
Proof.
  induction l as [|t l IH]; intros g0 x y z; simpl.
  - split; [tauto|]. intros [H|(t & [] & _)]. exact H.
  - rewrite IH, grid_set_iff. split.
    + intros [[H|H]|(t' & Ht' & H)].
      * left. exact H.
      * right. exists t. auto.
      * right. exists t'. auto.
    + intros [H|(t' & [<-|Ht'] & H)].
      * left. left. exact H.
      * left. right. exact H.
      * right. exists t'. auto.
Qed.

Lemma ff_alloc_fold_split (st : FirstFit) (A B C x0 y0 z0 : Z) (l : list (Z * Z * Z)) :
  forall g m,
  fold_left (fun acc t => let '(c, b, a) := t in ff_alloc_cell st A B C x0 y0 z0 a b c acc)
    l (g, m) =
  (fold_left (fun g t => grid_set g (x0 + t.2) (y0 + t.1.2) (z0 + t.1.1)) l g,
   fold_left (fun m t => <[coord_to_linear_index t.2 t.1.2 t.1.1 (A, B, C) :=
                           coord_to_linear_index (x0 + t.2) (y0 + t.1.2) (z0 + t.1.1)
                             (ff_W st, ff_L st, ff_H st)]> m) l m).
Proof.
  induction l as [|[[c b] a] l IH]; intros g m; [reflexivity|].
  cbn [fold_left]. rewrite <- IH. reflexivity.
Qed.

(** The box [FirstFit.allocate] fills and the mapping it returns. *)
Lemma FirstFit_allocate_box_aux (st st' : FirstFit) (A B C : Z) (m : gmap Z Z) :
  0 < A -> 0 < B -> 0 < C ->
  FirstFit_allocate st (A, B, C) = (Some m, st') ->
  exists x0 y0 z0,
    find_placement st A B C = Some (x0, y0, z0) /\
    (forall j v, m !! j = Some v <->
       exists a b c, in_box A B C a b c /\ j = coord_to_linear_index a b c (A, B, C) /\
                     v = coord_to_linear_index (x0 + a) (y0 + b) (z0 + c)
                           (ff_W st, ff_L st, ff_H st)) /\
    (forall x y z, ff_grid st' x y z = true <->
       ff_grid st x y z = true \/
       (x0 <= x < x0 + A /\ y0 <= y < y0 + B /\ z0 <= z < z0 + C)) /\
    ff_W st' = ff_W st /\ ff_L st' = ff_L st /\ ff_H st' = ff_H st.
Proof.
  intros HA HB HC Halloc. unfold FirstFit_allocate in Halloc.
  destruct (find_placement st A B C) as [[[x0 y0] z0]|] eqn:Ef; [|discriminate].
  match type of Halloc with context [fold_left ?f (range C) ?s] =>
    remember (fold_left f (range C) s) as R eqn:ER end.
  destruct R as [g' m'].
  injection Halloc as Hm Hst. subst m st'.
  rewrite fold3_product, ff_alloc_fold_split in ER. injection ER as Eg Em.
  exists x0, y0, z0. split; [reflexivity|]. split; [|split; [|simpl; auto]].
  - intros j v. rewrite Em, fold_insert_lookup.
    + split.
      * intros [(t & Hin & Hk & Hv) | [H _]]; [|rewrite lookup_empty in H; discriminate].
        destruct t as [[c b] a].
        apply In_product3 in Hin as (Hc & Hb & Ha). apply In_range in Hc, Hb, Ha.
        simpl in Hk, Hv. exists a, b, c. unfold in_box. auto.
      * intros (a & b & c & Hbox & -> & ->). left. exists (c, b, a).
        split; [|simpl; auto]. apply In_product3. unfold in_box in Hbox.
        rewrite !In_range. lia.
    + intros [[c b] a] [[c' b'] a'] Ht Ht' Hk. simpl in Hk |- *.
      apply In_product3 in Ht as (Hc & Hb & Ha), Ht' as (Hc' & Hb' & Ha').
      apply In_range in Hc, Hb, Ha, Hc', Hb', Ha'.
      destruct (linear_index_inj A B C a b c a' b' c' HA HB) as (-> & -> & ->);
        unfold in_box; auto.
  - intros x y z. simpl. rewrite Eg, fold_grid_set. split.
    + intros [H|([[c b] a] & Hin & Hx & Hy & Hz)]; [left; exact H|right].
      apply In_product3 in Hin as (Hc & Hb & Ha). apply In_range in Hc, Hb, Ha.
      simpl in Hx, Hy, Hz. lia.
    + intros [H|(Hx & Hy & Hz)]; [left; exact H|right].
      exists (z - z0, y - y0, x - x0). simpl. split; [|lia].
      apply In_product3. rewrite !In_range. lia.
Qed.

Lemma product3_nil (l1 l2 l3 : list Z) :
  l1 = [] \/ l2 = [] \/ l3 = [] -> product3 l1 l2 l3 = [].
Proof.
  unfold product3. intros [ -> | [ -> | -> ]]; [reflexivity| |].
  - induction l1; simpl; auto.
  - induction l1 as [|a l1 IH]; cbn [flat_map]; [reflexivity|]. rewrite IH, app_nil_r.
    clear. induction l2; simpl; auto.
Qed.

(** The mapping [FirstFit.allocate] returns as a fold over the box cells. *)
Lemma FirstFit_allocate_mapping (st : FirstFit) (A B C : Z) :
  fst (FirstFit_allocate st (A, B, C)) =
  match find_placement st A B C with
  | None => None
  | Some (x0, y0, z0) =>
      Some (fold_left (fun m t => <[coord_to_linear_index t.2 t.1.2 t.1.1 (A, B, C) :=
                           coord_to_linear_index (x0 + t.2) (y0 + t.1.2) (z0 + t.1.1)
                             (ff_W st, ff_L st, ff_H st)]> m)
              (product3 (range C) (range B) (range A)) ∅)
  end.
Proof.
  unfold FirstFit_allocate.
  destruct (find_placement st A B C) as [[[x0 y0] z0]|]; [|reflexivity].
  rewrite fold3_product, ff_alloc_fold_split. reflexivity.
Qed.

Lemma FirstFit_allocate_degenerate (st : FirstFit) (A B C : Z) :
  A <= 0 \/ B <= 0 \/ C <= 0 ->
  fst (FirstFit_allocate st (A, B, C)) = None \/ fst (FirstFit_allocate st (A, B, C)) = Some ∅.
Proof.
  intros Hdim. rewrite FirstFit_allocate_mapping.
  destruct (find_placement st A B C) as [[[x0 y0] z0]|]; [right|left; reflexivity].
  rewrite product3_nil; [reflexivity|].
  destruct Hdim as [H|[H|H]]; rewrite (range_nonpos _ H); auto.
Qed.



(** A successful [FirstFit.allocate] of a shape [(A, B, C)] with positive
    sides has exactly the keys [0 .. A*B*C - 1]. *)
Lemma FirstFit_allocate_dom (st st' : FirstFit) (A B C : Z) (m : gmap Z Z) :
  0 < A -> 0 < B -> 0 < C ->
  FirstFit_allocate st (A, B, C) = (Some m, st') ->
  forall j, is_Some (m !! j) <-> 0 <= j < A * B * C.
Proof.
  intros HA HB HC Halloc j.
  destruct (FirstFit_allocate_box_aux st st' A B C m HA HB HC Halloc)
    as (x0 & y0 & z0 & _ & Hm & _).
  split.
  - intros [v Hv]. apply Hm in Hv as (a & b & c & Hbox & -> & _).
    apply linear_index_bounds. exact Hbox.
  - intros Hj. pose proof (linear_index_encode_decode A B C j HA HB Hj) as Hdec.
    destruct (linear_index_to_coord j (A, B, C)) as [[a b] c].
    destruct Hdec as [Hbox Henc].
    eexists. apply Hm. exists a, b, c. split; [exact Hbox|]. split; [symmetry; exact Henc|].
    reflexivity.
Qed.

Lemma merge_fold_keys (name : string) (m : gmap Z Z) (ks : list Z) :
  forall (t : gmap string Z) k,
    is_Some (fold_left (fun p j => <[placement_key name j := m !!! j]> p) ks t !! k) <->
    is_Some (t !! k) \/ exists j, In j ks /\ k = placement_key name j.
Proof.
  induction ks as [|j ks IH]; intros t k; simpl.
  - split; [tauto|]. intros [H|(j & [] & _)]. exact H.
  - rewrite IH, lookup_insert_is_Some. split.
    + intros [[<-|[_ H]]|(j' & Hj' & ->)].
      * right. exists j. auto.
      * left. exact H.
      * right. exists j'. auto.
    + intros [H|(j' & [<-|Hj'] & ->)].
      * destruct (decide (placement_key name j = k)) as [<-|Hne].
        -- left. left. reflexivity.
        -- left. right. auto.
      * left. left. reflexivity.
      * right. exists j'. auto.
Qed.

Lemma merge_job_keys (name : string) (m : gmap Z Z) (t : gmap string Z) k :
  is_Some (merge_job name m t !! k) <->
  is_Some (t !! k) \/ exists j, is_Some (m !! j) /\ k = placement_key name j.
Proof.
  unfold merge_job. rewrite merge_fold_keys.
  pose proof (merge_sort_Permutation Z.le (map_to_list m).*1) as Hperm.
  assert (Hks : forall j, In j (merge_sort Z.le (map_to_list m).*1) <-> is_Some (m !! j)).
  { intros j. split.
    - intros Hj. apply (Permutation_in _ Hperm) in Hj.
      apply list_elem_of_In in Hj. apply list_elem_of_fmap in Hj as ([j' v] & -> & Hin).
      apply elem_of_map_to_list in Hin. simpl. rewrite Hin. eexists; reflexivity.
    - intros [v Hv]. symmetry in Hperm. apply (Permutation_in _ Hperm).
      apply list_elem_of_In, list_elem_of_fmap. exists (j, v). split; [reflexivity|].
      apply elem_of_map_to_list. exact Hv. }
  split.
  - intros [H|(j & Hj & ->)]; [left; exact H|right; exists j; split; [apply Hks|]; auto].
  - intros [H|(j & Hj & ->)]; [left; exact H|right; exists j; split; [apply Hks|]; auto].
Qed.

Lemma firstfit_loop_keys (jobs : list (string * (Z * Z * Z))) :
  forall FF t t', firstfit_loop FF jobs t = Ok t' ->
  forall k, is_Some (t' !! k) <->
    is_Some (t !! k) \/
    exists name a b c j, In (name, (a, b, c)) jobs /\ 0 <= j < a * b * c /\
                         k = placement_key name j.
Proof.
  induction jobs as [|[name [[A B] C]] rest IH]; intros FF t t' Hrun k;
    cbn [firstfit_loop] in Hrun.
  - injection Hrun as <-. split; [tauto|]. intros [H|(? & ? & ? & ? & ? & [] & _)]. exact H.
  - destruct (FirstFit_allocate FF (A, B, C)) as [[m|] FF'] eqn:Ealloc; [|discriminate].
    destruct (decide (m = ∅)) as [|Hne]; [discriminate|].
    assert (Hpos : 0 < A /\ 0 < B /\ 0 < C).
    { destruct (Z_lt_le_dec 0 A), (Z_lt_le_dec 0 B), (Z_lt_le_dec 0 C); auto;
        exfalso; destruct (FirstFit_allocate_degenerate FF A B C ltac:(lia)) as [H|H];
        rewrite Ealloc in H; simpl in H; congruence. }
    destruct Hpos as (HA & HB & HC).
    pose proof (FirstFit_allocate_dom FF FF' A B C m HA HB HC Ealloc) as Hdom.
    rewrite (IH FF' _ t' Hrun k), merge_job_keys. split.
    + intros [[H|(j & Hj & ->)]|(n & a & b & c & j & Hin & Hj & ->)].
      * left. exact H.
      * right. exists name, A, B, C, j. split; [left; reflexivity|]. split; [apply Hdom, Hj|auto].
      * right. exists n, a, b, c, j. split; [right; exact Hin|auto].
    + intros [H|(n & a & b & c & j & [Heq|Hin] & Hj & ->)].
      * left. left. exact H.
      * injection Heq as -> -> -> ->. left. right. exists j. split; [apply Hdom, Hj|auto].
      * right. exists n, a, b, c, j. auto.
Qed.

Lemma skipn_nth_cons {A} (l : list A) (k : nat) (d : A) :
  (k < length l)%nat -> skipn k l = nth k l d :: skipn (S k) l.
Proof.
  revert k. induction l as [|a l IH]; intros k Hk; simpl in Hk; [lia|].
  destruct k as [|k]; [reflexivity|]. simpl. apply IH. lia.
Qed.

(** The loop of [SpaceFillingCurve.allocate] over [range(N)]. *)
Lemma sfc_fold_eq (W L H : Z) (alloc : list (Z * Z * Z)) (n : nat) :
  forall lo g ms, 0 <= lo -> (Z.to_nat lo + n <= length alloc)%nat ->
  fold_left (fun '(g, mapping) i =>
      let '(x, y, z) := nth (Z.to_nat i) alloc (0, 0, 0) in
      (grid_set g x y z, mapping ++ [coord_to_linear_index x y z (W, L, H)]))
    (zseq lo n) (g, ms) =
  (fold_left (fun g c => grid_set g c.1.1 c.1.2 c.2) (firstn n (skipn (Z.to_nat lo) alloc)) g,
   ms ++ map (fun c => coord_to_linear_index c.1.1 c.1.2 c.2 (W, L, H))
           (firstn n (skipn (Z.to_nat lo) alloc))).
Proof.
  induction n as [|n IH]; intros lo g ms Hlo Hn.
  - simpl. rewrite app_nil_r. reflexivity.
  - rewrite (skipn_nth_cons alloc (Z.to_nat lo) (0, 0, 0)) by lia.
    cbn [zseq fold_left firstn map].
    destruct (nth (Z.to_nat lo) alloc (0, 0, 0)) as [[x y] z] eqn:En.
    rewrite IH by lia. replace (Z.to_nat (lo + 1)) with (S (Z.to_nat lo)) by lia.
    simpl. rewrite <- app_assoc. reflexivity.
Qed.

Section SFC_alloc.

Variable distance_from_point : Z -> Z * Z * Z -> Z.
Variable point_from_distance : Z -> Z -> Z * Z * Z.

(** The Hilbert curve of order [p] decodes the distance of each point
    of its cube [[0, 2^p)^3] back to the point. *)
Hypothesis hilbert_roundtrip : forall p x y z,
  0 <= p -> 0 <= x < 2 ^ p -> 0 <= y < 2 ^ p -> 0 <= z < 2 ^ p ->
  point_from_distance p (distance_from_point p (x, y, z)) = (x, y, z).

(** A successful [SpaceFillingCurve.allocate] of [(A, B, C)] returns
    [A*B*C] distinct torus indices; the new grid is the old one with
    exactly the cells of these indices marked busy; the dimensions do
    not change. *)
Lemma SFC_allocate_result (st st' : SpaceFillingCurve) (A B C : Z) (m : list Z) :
  SFC_allocate distance_from_point point_from_distance st (A, B, C) = (Some m, st') ->
  length m = Z.to_nat (A * B * C) /\ NoDup m /\
  sfc_W st' = sfc_W st /\ sfc_L st' = sfc_L st /\ sfc_H st' = sfc_H st /\
  (forall x y z, sfc_grid st' x y z = true <->
     sfc_grid st x y z = true \/
     (in_box (sfc_W st) (sfc_L st) (sfc_H st) x y z /\
      In (coord_to_linear_index x y z (sfc_W st, sfc_L st, sfc_H st)) m)).
Proof.
  intros Hrun.
  set (free := argwhere_free (sfc_W st) (sfc_L st) (sfc_H st) (sfc_grid st)).
  set (P := sfc_iterations st).
  set (W := sfc_W st). set (L := sfc_L st). set (H := sfc_H st).
  assert (Hperm : fetch_availability distance_from_point st
                  ≡ₚ map (distance_from_point P) free)
    by apply merge_sort_Permutation.
  assert (Hlen : length (fetch_availability distance_from_point st) = length free)
    by (rewrite Hperm; apply length_map).
  assert (Hcube : forall x y z, In (x, y, z) free ->
            point_from_distance P (distance_from_point P (x, y, z)) = (x, y, z)).
  { intros x y z Hin. apply argwhere_free_In in Hin as ((Hx & Hy & Hz) & _).
    assert (HP : 0 <= P) by apply Z.log2_up_nonneg.
    assert (Hm : Z.max W (Z.max L H) <= 2 ^ P)
      by (apply pow2_log2_up; unfold W, L, H; lia).
    apply hilbert_roundtrip; lia. }
  assert (Hdec : forall d, In d (fetch_availability distance_from_point st) ->
            In (point_from_distance P d) free /\
            d = distance_from_point P (point_from_distance P d)).
  { intros d Hd. apply (Permutation_in _ Hperm) in Hd.
    apply in_map_iff in Hd as ([[x y] z] & <- & Hin).
    rewrite (Hcube x y z Hin). auto. }
  assert (Hnd_av : NoDup (fetch_availability distance_from_point st)).
  { rewrite Hperm. apply NoDup_map_inj; [|apply argwhere_free_NoDup].
    intros [[x y] z] [[x' y'] z'] Hin Hin' E.
    rewrite <- (Hcube x y z Hin), <- (Hcube x' y' z' Hin'), E. reflexivity. }
  unfold SFC_allocate in Hrun. fold P in Hrun.
  destruct (Z.of_nat (length (fetch_availability distance_from_point st)) <? A * B * C)
    eqn:E; [discriminate|].
  apply Z.ltb_ge in E.
  set (alloc := map (point_from_distance P)
                  (py_slice_to (fetch_availability distance_from_point st) (A * B * C)))
    in Hrun.
  assert (Halloc_len : (Z.to_nat (A * B * C) <= length alloc)%nat).
  { unfold alloc. rewrite length_map. destruct (Z_lt_le_dec (A * B * C) 0); [lia|].
    rewrite length_py_slice_to by lia. lia. }
  assert (Halloc_in : forall c, In c alloc -> In c free).
  { intros c Hc. unfold alloc in Hc. apply in_map_iff in Hc as (d & <- & Hd).
    apply In_py_slice_to, Hdec in Hd. apply Hd. }
  assert (Halloc_nd : NoDup alloc).
  { unfold alloc. apply NoDup_map_inj; [|apply NoDup_py_slice_to, Hnd_av].
    intros d d' Hd Hd' Ed. apply In_py_slice_to, Hdec in Hd, Hd'.
    rewrite (proj2 Hd), (proj2 Hd'), Ed. reflexivity. }
  unfold range in Hrun. fold W L H in Hrun.
  rewrite (sfc_fold_eq W L H alloc (Z.to_nat (A * B * C)) 0) in Hrun by (simpl; lia).
  change (Z.to_nat 0) with 0%nat in Hrun. rewrite !drop_0 in Hrun.
  injection Hrun as Hm Hst. subst m st'.
  set (cells := firstn (Z.to_nat (A * B * C)) alloc).
  assert (Hcells_in : forall c, In c cells -> In c free).
  { intros c Hc. apply Halloc_in. unfold cells in Hc.
    rewrite <- (firstn_skipn (Z.to_nat (A * B * C)) alloc). apply in_or_app. left. exact Hc. }
  assert (Hinj : forall c c', In c cells -> In c' cells ->
            coord_to_linear_index c.1.1 c.1.2 c.2 (W, L, H) =
            coord_to_linear_index c'.1.1 c'.1.2 c'.2 (W, L, H) -> c = c').
  { intros [[x y] z] [[x' y'] z'] Hc Hc' Ec. simpl in Ec.
    apply Hcells_in, argwhere_free_In in Hc as [Hb _].
    apply Hcells_in, argwhere_free_In in Hc' as [Hb' _].
    destruct (linear_index_inj W L H x y z x' y' z') as (-> & -> & ->); auto;
      unfold in_box in Hb; lia. }
  split; [rewrite length_map; unfold cells; rewrite length_firstn; lia|].
  split.
  { apply NoDup_map_inj; [exact Hinj|]. apply NoDup_firstn, Halloc_nd. }
  split; [reflexivity|]. split; [reflexivity|]. split; [reflexivity|].
  intros x y z. simpl. rewrite fold_grid_set. fold cells. split.
  - intros [Hg|(c & Hc & -> & -> & ->)]; [left; exact Hg|right].
    pose proof (Hcells_in c Hc) as Hf. destruct c as [[x y] z]. simpl.
    apply argwhere_free_In in Hf as [Hb _]. split; [exact Hb|].
    apply in_map_iff. exists (x, y, z). auto.
  - intros [Hg|(Hb & Hv)]; [left; exact Hg|right].
    apply in_map_iff in Hv as ([[x' y'] z'] & Ec & Hc). simpl in Ec.
    pose proof (Hcells_in _ Hc) as Hf. apply argwhere_free_In in Hf as [Hb' _].
    destruct (linear_index_inj W L H x' y' z' x y z) as (-> & -> & ->); auto;
      try (unfold in_box in Hb; lia).
    exists (x, y, z). auto.
Qed.

End SFC_alloc.

Lemma l1_grid_fold (st : L1Clustering) (l : list Z) :
  forall (g : grid3) (acc : list Z),
  fst (fold_left (fun '(g, mapping) idx =>
            let '(x, y, z) := l1_coord st idx in
            (grid_set g x y z,
             mapping ++ [coord_to_linear_index x y z (l1_W st, l1_L st, l1_H st)]))
          l (g, acc)) =
  fold_left (fun g idx => grid_set g (l1_coord st idx).1.1 (l1_coord st idx).1.2
                                     (l1_coord st idx).2) l g.
Proof.
  induction l as [|a l IH]; intros g acc; cbn [fold_left]; [reflexivity|].
  destruct (l1_coord st a) as [[x y] z]. rewrite IH. reflexivity.
Qed.

(** What [L1Clustering.allocate] returns with a selection. *)
Lemma L1_allocate_some_state (argpartition : list Z -> Z -> list Z) (st st' : L1Clustering)
    (A B C : Z) (m : list Z) :
  L1_allocate argpartition st (A, B, C) = (Some m, st') ->
  A * B * C <= Z.of_nat (length (where_false_from 0 (l1_flatten st))) /\
  exists c,
    let sel := merge_sort Z.le (l1_candidate argpartition st (A * B * C)
                                  (where_false_from 0 (l1_flatten st)) c) in
    m = map (l1_torus_index st) sel /\
    st' = mkL1 (l1_W st) (l1_L st) (l1_H st)
            (fold_left (fun g idx => grid_set g (l1_coord st idx).1.1 (l1_coord st idx).1.2
                                              (l1_coord st idx).2) sel (l1_grid st)).
Proof.
  unfold L1_allocate. intros H.
  destruct (_ <? A * B * C) eqn:E; [discriminate|]. apply Z.ltb_ge in E.
  split; [exact E|].
  destruct (fold_left (l1_eval_center argpartition st _ _) _ _) as [bc [sel|]] eqn:Ef;
    [|discriminate].
  pose proof (l1_mapping_fold st (merge_sort Z.le sel) (l1_grid st) []) as HM.
  pose proof (l1_grid_fold st (merge_sort Z.le sel) (l1_grid st) []) as HG.
  destruct (fold_left _ (merge_sort Z.le sel) _) as [g' mp] eqn:Em.
  injection H as Hm Hst. subst mp st'. simpl in HM, HG. subst m g'.
  assert (Hs : snd (bc, Some sel) = Some sel) by reflexivity. rewrite <- Ef in Hs.
  destruct (l1_fold_sel _ _ _ _ _ _ _ Hs) as [Hn|(c & Hc)]; [discriminate|].
  exists c. rewrite Hc. split; reflexivity.
Qed.

Lemma l1_candidate_length (argpartition : list Z -> Z -> list Z)
    (Hperm : forall l kth, argpartition l kth ≡ₚ range (Z.of_nat (length l)))
    (st : L1Clustering) (k : Z) (idle : list Z) (c : Z) :
  0 <= k <= Z.of_nat (length idle) ->
  length (l1_candidate argpartition st k idle c) = Z.to_nat k.
Proof.
  intros Hk. unfold l1_candidate, py_gather at 1. rewrite length_map.
  set (d := py_gather (get_torus_distance st (l1_coord st c)) idle).
  assert (Hd : length d = length idle) by (unfold d, py_gather; apply length_map).
  destruct (Z.of_nat (length d) =? k) eqn:E.
  - apply length_range.
  - apply length_py_slice_to. rewrite (Permutation_length (Hperm d (k - 1))), length_range.
    lia.
Qed.

Section L1_alloc.

Variable argpartition : list Z -> Z -> list Z.

(** [np.argpartition(a, kth)] returns a permutation of the positions
    [0 .. len(a) - 1] of its argument. *)
Hypothesis argpartition_perm :
  forall l kth, argpartition l kth ≡ₚ range (Z.of_nat (length l)).

(** A successful [L1Clustering.allocate] of [(A, B, C)] returns [A*B*C]
    distinct torus indices of cells that were free; the new grid is the
    old one with exactly these cells marked busy; the dimensions do not
    change. *)
Lemma L1_allocate_result (st st' : L1Clustering) (A B C : Z) (m : list Z) :
  0 < l1_W st -> 0 < l1_L st -> 0 < l1_H st -> 0 <= A * B * C ->
  L1_allocate argpartition st (A, B, C) = (Some m, st') ->
  length m = Z.to_nat (A * B * C) /\ NoDup m /\
  (forall v, In v m ->
     exists x y z, in_box (l1_W st) (l1_L st) (l1_H st) x y z /\ l1_grid st x y z = false /\
                   v = coord_to_linear_index x y z (l1_W st, l1_L st, l1_H st)) /\
  l1_W st' = l1_W st /\ l1_L st' = l1_L st /\ l1_H st' = l1_H st /\
  (forall x y z, l1_grid st' x y z = true <->
     l1_grid st x y z = true \/
     (in_box (l1_W st) (l1_L st) (l1_H st) x y z /\
      In (coord_to_linear_index x y z (l1_W st, l1_L st, l1_H st)) m)).
Proof.
  intros HW HL HH Hk Hrun.
  destruct (L1_allocate_some_state _ _ _ _ _ _ _ Hrun) as (Hle & c & Hm & Hst).
  set (idle := where_false_from 0 (l1_flatten st)) in *.
  set (cand := l1_candidate argpartition st (A * B * C) idle c) in *.
  set (sel := merge_sort Z.le cand) in *.
  assert (Hsel_perm : sel ≡ₚ cand) by apply merge_sort_Permutation.
  destruct (l1_candidate_ok argpartition argpartition_perm st (A * B * C) idle c
              (l1_idle_NoDup st)) as [Hcnd Hcin].
  assert (Hsel_in : forall idx, In idx sel ->
            0 <= idx < l1_ncells st /\
            (let '(x, y, z) := l1_coord st idx in l1_grid st x y z) = false).
  { intros idx Hidx. apply l1_idle_In, Hcin. apply (Permutation_in _ Hsel_perm), Hidx. }
  assert (Hsel_box : forall idx, In idx sel ->
            in_box (l1_W st) (l1_L st) (l1_H st)
              (l1_coord st idx).1.1 (l1_coord st idx).1.2 (l1_coord st idx).2).
  { intros idx Hidx. apply Hsel_in in Hidx as [Hb _].
    pose proof (l1_coord_bounds st idx HW HL HH Hb) as Hbox.
    destruct (l1_coord st idx) as [[x y] z]. exact Hbox. }
  assert (Htor : forall idx, l1_torus_index st idx =
            coord_to_linear_index (l1_coord st idx).1.1 (l1_coord st idx).1.2
              (l1_coord st idx).2 (l1_W st, l1_L st, l1_H st)).
  { intros idx. unfold l1_torus_index. destruct (l1_coord st idx) as [[x y] z]. reflexivity. }
  subst m st'. split.
  { rewrite length_map, (Permutation_length Hsel_perm).
    apply l1_candidate_length; [exact argpartition_perm|lia]. }
  split.
  { apply NoDup_map_inj.
    - intros a b Ha Hb E. apply Hsel_in in Ha, Hb.
      apply (l1_torus_index_inj st a b HW HL HH); tauto.
    - rewrite Hsel_perm. exact Hcnd. }
  split.
  { intros v Hv. apply in_map_iff in Hv as (idx & <- & Hidx).
    pose proof (Hsel_box idx Hidx) as Hbox. apply Hsel_in in Hidx as [_ Hg].
    rewrite Htor. destruct (l1_coord st idx) as [[x y] z].
    exists x, y, z. auto. }
  split; [reflexivity|]. split; [reflexivity|]. split; [reflexivity|].
  intros x y z. simpl.
  rewrite (fold_grid_set (fun idx => (l1_coord st idx).1.1) (fun idx => (l1_coord st idx).1.2)
             (fun idx => (l1_coord st idx).2)).
  split.
  - intros [Hg|(idx & Hidx & -> & -> & ->)]; [left; exact Hg|right].
    split; [apply Hsel_box, Hidx|]. apply in_map_iff. exists idx. auto.
  - intros [Hg|(Hb & Hv)]; [left; exact Hg|right].
    apply in_map_iff in Hv as (idx & Ev & Hidx). exists idx. split; [exact Hidx|].
    rewrite Htor in Ev. pose proof (Hsel_box idx Hidx) as Hb'.
    destruct (linear_index_inj (l1_W st) (l1_L st) (l1_H st) _ _ _ x y z HW HL Hb' Hb Ev)
      as (-> & -> & ->).
    auto.
Qed.

(** For a shape of at least one cell, [L1Clustering.allocate] returns
    [None] exactly when fewer than [A*B*C] cells are free. *)
Lemma L1_allocate_none_iff (st : L1Clustering) (A B C : Z) :
  0 < l1_W st -> 0 < l1_L st -> 0 < l1_H st -> 1 <= A * B * C ->
  fst (L1_allocate argpartition st (A, B, C)) = None <->
  Z.of_nat (length (argwhere_free (l1_W st) (l1_L st) (l1_H st) (l1_grid st))) < A * B * C.
Proof.
  intros HW HL HH Hk. rewrite <- (l1_idle_count st HW HL HH).
  destruct (Z_lt_le_dec (Z.of_nat (length (where_false_from 0 (l1_flatten st)))) (A * B * C))
    as [Hlt|Hge].
  - split; [intros _; exact Hlt|intros _].
    unfold L1_allocate. rewrite (proj2 (Z.ltb_lt _ _) Hlt). reflexivity.
  - split; [|lia]. intros Hnone.
    destruct (L1_allocate_some_exists argpartition st A B C Hge) as (m & st' & Hrun).
    + intros Hnil. rewrite Hnil in Hge. simpl in Hge. lia.
    + rewrite Hrun in Hnone. discriminate.
Qed.

End L1_alloc.

Lemma axis_distance_props (d a b c : Z) :
  0 <= a < d -> 0 <= b < d -> 0 <= c < d ->
  0 <= axis_distance d a b <= d / 2 /\
  (axis_distance d a b = 0 <-> a = b) /\
  axis_distance d a c <= axis_distance d a b + axis_distance d b c.
Proof.
  intros Ha Hb Hc. unfold axis_distance.
  pose proof (Z.div_mod d 2 ltac:(lia)). pose proof (Z.mod_pos_bound d 2 ltac:(lia)).
  split; [lia|]. split; [split; lia|]. lia.
Qed.

(** [_get_torus_distance] (the wrap-around L1 distance) is a metric on
    the cells of the torus, bounded by [W/2 + L/2 + H/2]: it is zero
    exactly between equal cells and obeys the triangle inequality. *)
Lemma torus_l1_distance_metric (W L H : Z) (a b c : Z * Z * Z) :
  in_box W L H a.1.1 a.1.2 a.2 -> in_box W L H b.1.1 b.1.2 b.2 -> in_box W L H c.1.1 c.1.2 c.2 ->
  0 <= torus_l1_distance (W, L, H) a b <= W / 2 + L / 2 + H / 2 /\
  (torus_l1_distance (W, L, H) a b = 0 <-> a = b) /\
  torus_l1_distance (W, L, H) a c <=
    torus_l1_distance (W, L, H) a b + torus_l1_distance (W, L, H) b c.
Proof.
  destruct a as [[ax ay] az], b as [[bx by_] bz], c as [[cx cy] cz].
  unfold in_box; simpl. intros (Hax & Hay & Haz) (Hbx & Hby & Hbz) (Hcx & Hcy & Hcz).
  unfold torus_l1_distance.
  destruct (axis_distance_props W ax bx cx Hax Hbx Hcx) as (Bx & Zx & Tx).
  destruct (axis_distance_props L ay by_ cy Hay Hby Hcy) as (By & Zy & Ty).
  destruct (axis_distance_props H az bz cz Haz Hbz Hcz) as (Bz & Zz & Tz).
  split; [lia|]. split; [|lia]. split.
  - intros E. assert (axis_distance W ax bx = 0) as ->%Zx by lia.
    assert (axis_distance L ay by_ = 0) as ->%Zy by lia.
    assert (axis_distance H az bz = 0) as ->%Zz by lia. reflexivity.
  - intros E. injection E as -> -> ->.
    rewrite (proj2 Zx eq_refl), (proj2 Zy eq_refl), (proj2 Zz eq_refl). reflexivity.
Qed.

(* --------------------------------------------------------------------- *)
(** ** The L1-Clustering search and the placement keys *)
(* --------------------------------------------------------------------- *)

Lemma l1_eval_center_eq (argpartition : list Z -> Z -> list Z) (st : L1Clustering)
    (k : Z) (idle : list Z) (bc : option Z) (bs : option (list Z)) (c : Z) :
  l1_eval_center argpartition st k idle (bc, bs) c =
  if match bc with None => true | Some b => l1_cost argpartition st k idle c <? b end
  then (Some (l1_cost argpartition st k idle c), Some (l1_candidate argpartition st k idle c))
  else (bc, bs).
Proof. reflexivity. Qed.

Lemma l1_fold_best (argpartition : list Z -> Z -> list Z) (st : L1Clustering)
    (k : Z) (idle : list Z) (centers : list Z) :
  forall seen best, l1_best_inv argpartition st k idle seen best ->
  l1_best_inv argpartition st k idle (seen ++ centers)
    (fold_left (l1_eval_center argpartition st k idle) centers best).
Proof.
  induction centers as [|c centers IH]; intros seen best Hinv; cbn [fold_left].
  { rewrite app_nil_r. exact Hinv. }
  replace (seen ++ c :: centers) with ((seen ++ [c]) ++ centers)
    by (rewrite <- app_assoc; reflexivity).
  apply IH.
  destruct Hinv as [[-> ->]|(b & Hb & -> & Hmin)].
  - right. exists c. rewrite l1_eval_center_eq. simpl. split; [left; reflexivity|].
    split; [reflexivity|]. intros c' [<-|[]]. apply Z.le_refl.
  - rewrite l1_eval_center_eq.
    destruct (l1_cost argpartition st k idle c <? l1_cost argpartition st k idle b) eqn:E.
    + apply Z.ltb_lt in E. right. exists c.
      split; [apply in_or_app; right; left; reflexivity|]. split; [reflexivity|].
      intros c' Hc'. apply in_app_or in Hc' as [Hc'|[<-|[]]]; [|lia].
      specialize (Hmin c' Hc'). lia.
    + apply Z.ltb_ge in E. right. exists b.
      split; [apply in_or_app; left; exact Hb|]. split; [reflexivity|].
      intros c' Hc'. apply in_app_or in Hc' as [Hc'|[<-|[]]]; [apply Hmin, Hc'|lia].
Qed.

(** [L1Clustering.allocate] returns the selection of one of the sampled
    centers [idle_indices[::step]], sorted and turned into torus indices,
    and no sampled center has a smaller [current_cost]. *)
Lemma L1_allocate_min_cost (argpartition : list Z -> Z -> list Z) (st st' : L1Clustering)
    (A B C : Z) (m : list Z) :
  L1_allocate argpartition st (A, B, C) = (Some m, st') ->
  let idle := where_false_from 0 (l1_flatten st) in
  let centers := py_stride idle (Z.max 1 (Z.of_nat (length idle) / 100)) in
  exists c, In c centers /\
    m = map (l1_torus_index st)
          (merge_sort Z.le (l1_candidate argpartition st (A * B * C) idle c)) /\
    forall c', In c' centers ->
      l1_cost argpartition st (A * B * C) idle c <= l1_cost argpartition st (A * B * C) idle c'.
Proof.
  intros Hrun idle centers.
  pose proof (l1_fold_best argpartition st (A * B * C) idle centers [] (None, None)
                ltac:(left; auto)) as Hinv.
  simpl app in Hinv.
  unfold L1_allocate in Hrun. fold idle centers in Hrun.
  destruct (_ <? A * B * C); [discriminate|].
  destruct (fold_left (l1_eval_center argpartition st (A * B * C) idle) centers (None, None))
    as [bc [sel|]] eqn:Ef; [|discriminate].
  pose proof (l1_mapping_fold st (merge_sort Z.le sel) (l1_grid st) []) as HM.
  destruct (fold_left _ (merge_sort Z.le sel) _) as [g' mp] eqn:Em.
  injection Hrun as Hm _. subst mp. simpl in HM. subst m.
  destruct Hinv as [[_ H]|(c & Hc & Hbest & Hmin)]; [discriminate|].
  injection Hbest as _ ->. exists c. auto.
Qed.

Lemma no_dash_cons (c : ascii) (s : string) :
  c <> "-"%char -> no_dash s -> no_dash (String c s).
Proof.
  intros Hc Hs s1 s2 E. destruct s1 as [|c1 s1]; simpl in E.
  - injection E as -> _. apply Hc. reflexivity.
  - injection E as -> E. exact (Hs s1 s2 E).
Qed.

Lemma pretty_N_go_no_dash (x : N) : forall s, no_dash s -> no_dash (pretty_N_go x s).
Proof.
  induction (N.lt_wf_0 x) as [x _ IH]; intros s Hs.
  assert (x = 0 \/ 0 < x)%N as [->|Hx] by lia; [rewrite pretty_N_go_0; exact Hs|].
  rewrite pretty_N_go_step by exact Hx. apply IH; [apply N.div_lt; lia|].
  apply no_dash_cons; [|exact Hs].
  unfold pretty_N_char. repeat case_match; discriminate.
Qed.

Lemma pretty_nonneg_no_dash (j : Z) : 0 <= j -> no_dash (pretty j).
Proof.
  intros Hj. destruct j as [|p|p]; [| |lia].
  - intros s1 s2 E. destruct s1 as [|c s1]; simpl in E; [discriminate|].
    injection E as _ E. destruct s1; discriminate.
  - change (pretty (Z.pos p)) with (pretty (N.pos p)).
    unfold pretty, pretty_N. case_decide; [discriminate|].
    apply pretty_N_go_no_dash. intros s1 s2 E. destruct s1; discriminate.
Qed.

Lemma append_dash_inj (n1 n2 d1 d2 : string) :
  no_dash d1 -> no_dash d2 -> n1 +:+ "-" +:+ d1 = n2 +:+ "-" +:+ d2 -> n1 = n2 /\ d1 = d2.
Proof.
  revert n2. induction n1 as [|c1 n1 IH]; intros [|c2 n2] H1 H2 E; cbn in E.
  - injection E as E. split; [reflexivity|exact E].
  - injection E as <- E. exfalso. exact (H1 n2 d2 E).
  - injection E as -> E. exfalso. exact (H2 n1 d1 (eq_sym E)).
  - injection E as -> E. destruct (IH n2 H1 H2 E) as [-> ->]. auto.
Qed.

(** The placement keys [f"{name}-{j}"] of non-negative job-local
    indices never collide: equal keys have equal names and indices. *)
Lemma placement_key_inj (n1 n2 : string) (j1 j2 : Z) :
  0 <= j1 -> 0 <= j2 -> placement_key n1 j1 = placement_key n2 j2 -> n1 = n2 /\ j1 = j2.
Proof.
  unfold placement_key. intros H1 H2 E.
  destruct (append_dash_inj n1 n2 (pretty j1) (pretty j2)
              (pretty_nonneg_no_dash j1 H1) (pretty_nonneg_no_dash j2 H2) E) as [-> Ep].
  split; [reflexivity|]. apply (inj pretty), Ep.
Qed.

(* --------------------------------------------------------------------- *)
(** ** Reading the jobspec file *)
(* --------------------------------------------------------------------- *)

Lemma parse_lines_app (py_int : string -> option Z) (l1 l2 : list string) :
  forall jobs, parse_lines py_int (l1 ++ l2) jobs =
  match parse_lines py_int l1 jobs with
  | inl jobs' => parse_lines py_int l2 jobs'
  | inr e => inr e
  end.
Proof.
  induction l1 as [|raw l1 IH]; intros jobs; [reflexivity|].
  cbn [app parse_lines].
  destruct (String.eqb (py_strip raw) EmptyString || String.prefix "#" (py_strip raw)); [apply IH|].
  destruct (py_split_comma (py_strip raw)) as [|name [|a [|b [|c [|d ws]]]]]; try reflexivity.
  destruct (py_int a), (py_int b), (py_int c); try reflexivity. apply IH.
Qed.

Lemma dict_set_keys {V} (k : string) (v : V) (d : list (string * V)) :
  map fst (dict_set k v d) = if decide (k ∈ map fst d) then map fst d else map fst d ++ [k].
Proof.
  induction d as [|[k' v'] d IH]; simpl.
  - destruct (decide (k ∈ [])) as [H|]; [apply elem_of_nil in H; destruct H|reflexivity].
  - destruct (String.eqb_spec k k') as [->|Hne].
    + destruct (decide (k' ∈ k' :: map fst d)) as [|H]; [reflexivity|].
      exfalso. apply H. left.
    + simpl. rewrite IH.
      destruct (decide (k ∈ map fst d)) as [H|H], (decide (k ∈ k' :: map fst d)) as [H'|H'];
        try reflexivity.
      * exfalso. apply H'. right. exact H.
      * exfalso. apply elem_of_cons in H' as [H'|H']; [congruence|tauto].
Qed.

Lemma dict_get_set {V} (k : string) (v : V) (d : list (string * V)) (n : string) :
  dict_get n (dict_set k v d) = if String.eqb n k then Some v else dict_get n d.
Proof.
  induction d as [|[k' v'] d IH]; simpl; [reflexivity|].
  destruct (String.eqb k k') eqn:Ekk; simpl.
  - apply String.eqb_eq in Ekk. subst k'. destruct (String.eqb n k); reflexivity.
  - rewrite IH.
    destruct (String.eqb n k) eqn:E1, (String.eqb n k') eqn:E2; try reflexivity.
    apply String.eqb_eq in E1, E2. subst. rewrite String.eqb_refl in Ekk. discriminate.
Qed.

Lemma dict_set_NoDup {V} (k : string) (v : V) (d : list (string * V)) :
  NoDup (map fst d) -> NoDup (map fst (dict_set k v d)).
Proof.
  intros Hnd. rewrite dict_set_keys. destruct (decide (k ∈ map fst d)) as [_|H]; [exact Hnd|].
  apply NoDup_app. split; [exact Hnd|]. split; [|apply NoDup_singleton].
  intros x Hx Hx'. apply list_elem_of_singleton in Hx'. subst. contradiction.
Qed.

Lemma parse_lines_NoDup (py_int : string -> option Z) (lines : list string) :
  forall jobs jobs', NoDup (map fst jobs) -> parse_lines py_int lines jobs = inl jobs' ->
  NoDup (map fst jobs').
Proof.
  induction lines as [|raw lines IH]; intros jobs jobs' Hnd Hrun; cbn [parse_lines] in Hrun.
  - injection Hrun as <-. exact Hnd.
  - destruct (String.eqb (py_strip raw) EmptyString || String.prefix "#" (py_strip raw));
      [exact (IH _ _ Hnd Hrun)|].
    destruct (py_split_comma (py_strip raw)) as [|name [|a [|b [|c [|d ws]]]]];
      try discriminate.
    destruct (py_int a), (py_int b), (py_int c); try discriminate.
    exact (IH _ _ (dict_set_NoDup _ _ _ Hnd) Hrun).
Qed.

(** A line that is blank or starts with [#] after [strip()] does not
    change what [parse_jobspec] returns. *)
Lemma parse_jobspec_skip_line (py_int : string -> option Z) (l1 l2 : list string) (raw : string) :
  (String.eqb (py_strip raw) EmptyString || String.prefix "#" (py_strip raw)) = true ->
  parse_jobspec py_int (l1 ++ raw :: l2) = parse_jobspec py_int (l1 ++ l2).
Proof.
  intros Hskip. unfold parse_jobspec. rewrite !parse_lines_app.
  destruct (parse_lines py_int l1 []) as [jobs|e]; [|reflexivity].
  cbn [parse_lines]. rewrite Hskip. reflexivity.
Qed.

(** The first line that is not skipped and does not split into four
    comma-separated columns makes [parse_jobspec] raise [RuntimeError]
    quoting the stripped line. *)
Lemma parse_jobspec_column_error (py_int : string -> option Z) (l1 l2 : list string)
    (raw : string) (jobs : list (string * (Z * Z * Z))) :
  parse_jobspec py_int l1 = inl jobs ->
  (String.eqb (py_strip raw) EmptyString || String.prefix "#" (py_strip raw)) = false ->
  length (py_split_comma (py_strip raw)) <> 4%nat ->
  parse_jobspec py_int (l1 ++ raw :: l2) = inr (ColumnCount (py_strip raw)).
Proof.
  unfold parse_jobspec. intros H1 Hskip Hlen. rewrite parse_lines_app, H1.
  cbn [parse_lines]. rewrite Hskip.
  destruct (py_split_comma (py_strip raw)) as [|name [|a [|b [|c [|d ws]]]]];
    try reflexivity.
  simpl in Hlen. lia.
Qed.

(** A well-formed line [name,a,b,c] sets the shape of [name], replacing
    an earlier one in place or adding [name] at the end of the keys; the
    keys stay distinct and the other entries are unchanged. *)
Lemma parse_jobspec_redefine (py_int : string -> option Z) (l1 : list string) (raw : string)
    (jobs : list (string * (Z * Z * Z))) (name a b c : string) (x y z : Z) :
  parse_jobspec py_int l1 = inl jobs ->
  (String.eqb (py_strip raw) EmptyString || String.prefix "#" (py_strip raw)) = false ->
  py_split_comma (py_strip raw) = [name; a; b; c] ->
  py_int a = Some x -> py_int b = Some y -> py_int c = Some z ->
  exists jobs', parse_jobspec py_int (l1 ++ [raw]) = inl jobs' /\
    NoDup (map fst jobs') /\
    map fst jobs' = (if decide (name ∈ map fst jobs) then map fst jobs
                     else map fst jobs ++ [name]) /\
    forall n, dict_get n jobs' = if String.eqb n name then Some (x, y, z) else dict_get n jobs.
Proof.
  unfold parse_jobspec. intros H1 Hskip Hsplit Ha Hb Hc.
  exists (dict_set name (x, y, z) jobs). rewrite parse_lines_app, H1.
  cbn [parse_lines]. rewrite Hskip, Hsplit, Ha, Hb, Hc. split; [reflexivity|].
  split; [apply dict_set_NoDup, (parse_lines_NoDup py_int l1 [] jobs); [constructor|exact H1]|].
  split; [apply dict_set_keys|]. intros n. apply dict_get_set.
Qed.

(* --------------------------------------------------------------------- *)
(** ** Further properties of the block path and of First-Fit *)
(* --------------------------------------------------------------------- *)

(** [init_torus_blocks] with a positive block size [B] dividing every
    dimension returns [(H/B)*(L/B)*(W/B)] blocks of [B^3] nodes each that
    together hold every node [0 .. W*L*H - 1] exactly once; a dimension
    that [B] does not divide makes it raise [ValueError]. *)
Theorem init_torus_blocks_spec (W L H B : Z) :
  0 < B -> 0 <= W -> 0 <= L -> 0 <= H ->
  (W mod B = 0 /\ L mod B = 0 /\ H mod B = 0 ->
   exists blocks, init_torus_blocks (W, L, H) B = Ok blocks /\
     (forall blk, In blk blocks -> length blk = Z.to_nat (B * B * B)) /\
     length blocks = Z.to_nat ((H / B) * (L / B) * (W / B)) /\
     concat blocks ≡ₚ range (W * L * H)) /\
  (W mod B <> 0 \/ L mod B <> 0 \/ H mod B <> 0 ->
   init_torus_blocks (W, L, H) B = Err (ValueError BlockNotDividingTorus)).
Proof.
  intros HB HW HL HH. split.
  - intros (Hw & Hl & Hh). exists (job_blocks_of (W, L, H) B).
    destruct (job_blocks_shape W L H B HB HW HL HH Hw Hl Hh) as [Hs Hc].
    split; [apply init_torus_blocks_ok; lia|].
    split; [exact Hs|]. split; [exact Hc|].
    apply job_blocks_partition; assumption.
  - intros Hnd. unfold init_torus_blocks.
    destruct (B =? 0) eqn:E0; [apply Z.eqb_eq in E0; lia|].
    replace (existsb _ [W; L; H]) with true; [reflexivity|].
    symmetry. apply existsb_exists.
    destruct Hnd as [E|[E|E]]; apply Z.eqb_neq in E;
      [exists W|exists L|exists H]; rewrite E; (split; [simpl; auto|reflexivity]).
Qed.


(** When the torus blocks hold no node twice, a successful
    [block_placement] maps distinct keys to distinct nodes, each taken
    from the torus blocks. *)
Theorem block_placement_injective (tb : list (list Z)) (jbs : list (string * list (list Z)))
    (r : bool) (ds : list Z) (p : gmap string Z) :
  NoDup (concat tb) -> block_placement tb jbs r ds = Ok p ->
  map_injective p /\ forall k v, p !! k = Some v -> In v (concat tb).
Proof. apply block_placement_injective_aux. Qed.

(** [FirstFit.allocate] of a shape with positive sides succeeds only at
    the origin [find_placement] returns; its mapping sends the job-local
    index of each cell [(a, b, c)] of the box to the torus index of
    [(x0 + a, y0 + b, z0 + c)]; the new grid is the old one with exactly
    that box marked busy; the dimensions do not change. *)
Theorem FirstFit_allocate_box (st st' : FirstFit) (A B C : Z) (m : gmap Z Z) :
  0 < A -> 0 < B -> 0 < C ->
  FirstFit_allocate st (A, B, C) = (Some m, st') ->
  exists x0 y0 z0,
    find_placement st A B C = Some (x0, y0, z0) /\
    (forall j v, m !! j = Some v <->
       exists a b c, in_box A B C a b c /\ j = coord_to_linear_index a b c (A, B, C) /\
                     v = coord_to_linear_index (x0 + a) (y0 + b) (z0 + c)
                           (ff_W st, ff_L st, ff_H st)) /\
    (forall x y z, ff_grid st' x y z = true <->
       ff_grid st x y z = true \/
       (x0 <= x < x0 + A /\ y0 <= y < y0 + B /\ z0 <= z < z0 + C)) /\
    ff_W st' = ff_W st /\ ff_L st' = ff_L st /\ ff_H st' = ff_H st.
Proof. apply FirstFit_allocate_box_aux. Qed.


(** The keys of a successful [firstfit_placement] are exactly the
    strings [f"{name}-{j}"] for a job [name] of shape [(a, b, c)] and a
    job-local index [0 <= j < a*b*c]. *)
Theorem firstfit_placement_keys (W L H : Z) (jobs : list (string * (Z * Z * Z)))
    (p : gmap string Z) :
  firstfit_placement (W, L, H) jobs = Ok p ->
  forall k, is_Some (p !! k) <->
    exists name a b c j, In (name, (a, b, c)) jobs /\ 0 <= j < a * b * c /\
                         k = placement_key name j.
Proof.
  unfold firstfit_placement. intros Hrun k.
  rewrite (firstfit_loop_keys jobs _ _ _ Hrun k), lookup_empty.
  split; [intros [[? Hk]|Hk]; [discriminate|exact Hk]|intros Hk; right; exact Hk].
Qed.

(* --------------------------------------------------------------------- *)
(** ** Witnesses of the further properties *)
(* --------------------------------------------------------------------- *)

Lemma init_torus_blocks_spec_witness :
  exists blocks, init_torus_blocks (4, 2, 2) 2 = Ok blocks /\ length blocks = 2%nat /\
                 concat blocks ≡ₚ range 16.
Proof.
  destruct (init_torus_blocks_spec 4 2 2 2) as [Hok _]; try lia.
  destruct Hok as (blocks & H1 & _ & H3 & H4); [split; [|split]; reflexivity|].
  exists blocks. split; [exact H1|]. split; [exact H3|exact H4].
Defined.


Lemma block_placement_count_witness :
  exists p, block_placement [[0; 1]; [2; 3]] [("a", [[0; 1]])] false [] = Ok p.
Proof.
  apply (block_placement_count [[0; 1]; [2; 3]] [("a", [[0; 1]])] false []).
  simpl. lia.
Defined.

Lemma block_placement_injective_witness :
  map_injective (<["a-1" := 1]> (<["a-0" := 0]> ∅) : gmap string Z).
Proof.
  apply (block_placement_injective [[0; 1]; [2; 3]] [("a", [[0; 1]])] false []).
  - apply NoDup_ListNoDup. repeat constructor; simpl; intuition lia.
  - vm_compute. reflexivity.
Defined.

Lemma place_main_block_values_witness :
  map_injective (<["a-1" := 1]> (<["a-0" := 0]> ∅) : gmap string Z).
Proof.
  apply (place_main_block_values 2 2 2 1 [("a", (1, 1, 2))] "block" false []); try lia.
  - discriminate.
  - vm_compute. reflexivity.
Defined.

Lemma place_main_negative_block_empty_witness :
  place_main (2, 2, 2) (-1) [("a", (1, 1, 2))] "block" false [] = Ok ∅.
Proof.
  apply place_main_negative_block_empty; try lia; try discriminate; try reflexivity.
  repeat constructor; simpl; lia.
Defined.

Lemma place_main_block_zero_witness :
  place_main (2, 2, 2) 0 [("a", (1, 1, 2))] "block" false [] = Err ZeroDivisionError.
Proof.
  apply place_main_block_zero; try lia; try discriminate.
  repeat constructor; simpl; lia.
Defined.

Lemma FirstFit_allocate_box_witness :
  exists x0 y0 z0, find_placement (FirstFit_init 2 2 2) 1 2 1 = Some (x0, y0, z0).
Proof.
  destruct (FirstFit_allocate_box (FirstFit_init 2 2 2)
              (snd (FirstFit_allocate (FirstFit_init 2 2 2) (1, 2, 1))) 1 2 1
              (match fst (FirstFit_allocate (FirstFit_init 2 2 2) (1, 2, 1)) with
               | Some m => m | None => ∅ end))
    as (x0 & y0 & z0 & H & _); try lia.
  - apply injective_projections; [vm_compute; reflexivity | reflexivity].
  - exists x0, y0, z0. exact H.
Defined.

Lemma FirstFit_allocate_dom_witness :
  is_Some (match fst (FirstFit_allocate (FirstFit_init 2 2 2) (1, 2, 1)) with
           | Some m => m | None => ∅ end !! 1) <-> 0 <= 1 < 1 * 2 * 1.
Proof.
  apply (FirstFit_allocate_dom (FirstFit_init 2 2 2)
           (snd (FirstFit_allocate (FirstFit_init 2 2 2) (1, 2, 1)))); try lia.
  apply injective_projections; [vm_compute; reflexivity | reflexivity].
Defined.


Lemma firstfit_placement_keys_witness :
  is_Some (match firstfit_placement (2, 2, 2) [("a", (1, 1, 2))] with
           | Ok p => p | Err _ => ∅ end !! "a-1"%string) <->
    exists name a b c j, In (name, (a, b, c)) [("a", (1, 1, 2))] /\ 0 <= j < a * b * c /\
                         "a-1"%string = placement_key name j.
Proof.
  apply (firstfit_placement_keys 2 2 2). vm_compute. reflexivity.
Defined.

Lemma SFC_allocate_result_witness :
  NoDup (match fst (SFC_allocate
            (fun p '(x, y, z) => coord_to_linear_index x y z (2 ^ p, 2 ^ p, 2 ^ p))
            (fun p d => linear_index_to_coord d (2 ^ p, 2 ^ p, 2 ^ p))
            (mkSFC 2 2 2 (grid_set empty_grid 0 0 0)) (2, 2, 1)) with
         | Some m => m | None => [] end).
Proof.
  assert (Hrt : forall p x y z, 0 <= p -> 0 <= x < 2 ^ p -> 0 <= y < 2 ^ p -> 0 <= z < 2 ^ p ->
     linear_index_to_coord (coord_to_linear_index x y z (2 ^ p, 2 ^ p, 2 ^ p))
       (2 ^ p, 2 ^ p, 2 ^ p) = (x, y, z)).
  { intros p x y z Hp Hx Hy Hz.
    assert (0 < 2 ^ p) by (apply Z.pow_pos_nonneg; lia).
    apply linear_index_decode; unfold in_box; lia. }
  refine (proj1 (proj2 (SFC_allocate_result
              (fun p '(x, y, z) => coord_to_linear_index x y z (2 ^ p, 2 ^ p, 2 ^ p))
              (fun p d => linear_index_to_coord d (2 ^ p, 2 ^ p, 2 ^ p))
              Hrt (mkSFC 2 2 2 (grid_set empty_grid 0 0 0))
              (snd (SFC_allocate
                      (fun p '(x, y, z) => coord_to_linear_index x y z (2 ^ p, 2 ^ p, 2 ^ p))
                      (fun p d => linear_index_to_coord d (2 ^ p, 2 ^ p, 2 ^ p))
                      (mkSFC 2 2 2 (grid_set empty_grid 0 0 0)) (2, 2, 1)))
              2 2 1 _ _))).
  apply injective_projections; [vm_compute; reflexivity | reflexivity].
Defined.

Lemma L1_allocate_result_witness :
  NoDup (match fst (L1_allocate (fun l _ => range (Z.of_nat (length l)))
                      (mkL1 2 1 2 (grid_set empty_grid 1 0 0)) (3, 1, 1)) with
         | Some m => m | None => [] end).
Proof.
  refine (proj1 (proj2 (L1_allocate_result (fun l _ => range (Z.of_nat (length l)))
              ltac:(intros; reflexivity) (mkL1 2 1 2 (grid_set empty_grid 1 0 0))
              (snd (L1_allocate (fun l _ => range (Z.of_nat (length l)))
                      (mkL1 2 1 2 (grid_set empty_grid 1 0 0)) (3, 1, 1)))
              3 1 1 _ _ _ _ _ _))); simpl; try lia.
  apply injective_projections; [vm_compute; reflexivity | reflexivity].
Defined.

Lemma L1_allocate_none_iff_witness :
  fst (L1_allocate (fun l _ => range (Z.of_nat (length l)))
         (mkL1 2 1 2 (grid_set empty_grid 1 0 0)) (2, 2, 1)) = None <->
  Z.of_nat (length (argwhere_free 2 1 2 (grid_set empty_grid 1 0 0))) < 2 * 2 * 1.
Proof.
  apply (L1_allocate_none_iff (fun l _ => range (Z.of_nat (length l)))
           (mkL1 2 1 2 (grid_set empty_grid 1 0 0))); simpl; lia.
Defined.

Lemma torus_l1_distance_metric_witness :
  torus_l1_distance (4, 2, 3) (0, 0, 0) (3, 1, 2) <=
  torus_l1_distance (4, 2, 3) (0, 0, 0) (2, 1, 1) + torus_l1_distance (4, 2, 3) (2, 1, 1) (3, 1, 2).
Proof.
  apply (torus_l1_distance_metric 4 2 3 (0, 0, 0) (2, 1, 1) (3, 1, 2));
    unfold in_box; simpl; lia.
Defined.

Lemma parse_jobspec_skip_line_witness :
  parse_jobspec (fun s => if String.eqb s "1" then Some 1
                          else if String.eqb s "2" then Some 2 else None)
    (["a,1,2,1"] ++ "  # comment" :: ["b,2,2,2"]) =
  parse_jobspec (fun s => if String.eqb s "1" then Some 1
                          else if String.eqb s "2" then Some 2 else None)
    (["a,1,2,1"] ++ ["b,2,2,2"]).
Proof. apply parse_jobspec_skip_line. vm_compute. reflexivity. Defined.

Lemma parse_jobspec_column_error_witness :
  parse_jobspec (fun s => if String.eqb s "1" then Some 1
                          else if String.eqb s "2" then Some 2 else None)
    (["a,1,2,1"] ++ "b,2,2" :: ["c,1,1,1"]) = inr (ColumnCount "b,2,2").
Proof.
  apply (parse_jobspec_column_error _ ["a,1,2,1"] ["c,1,1,1"] "b,2,2" [("a", (1, 2, 1))]); vm_compute;
    [reflexivity | reflexivity | discriminate].
Defined.

Lemma parse_jobspec_redefine_witness :
  exists jobs', parse_jobspec (fun s => if String.eqb s "1" then Some 1
                                        else if String.eqb s "2" then Some 2 else None)
                  (["a,1,2,1"; "b,2,2,2"] ++ [" a,2,2,2 "]) = inl jobs' /\
                map fst jobs' = ["a"; "b"]%string /\ dict_get "a" jobs' = Some (2, 2, 2).
Proof.
  destruct (parse_jobspec_redefine
              (fun s => if String.eqb s "1" then Some 1
                        else if String.eqb s "2" then Some 2 else None)
              ["a,1,2,1"; "b,2,2,2"] " a,2,2,2 " [("a", (1, 2, 1)); ("b", (2, 2, 2))]
              "a" "2" "2" "2" 2 2 2)
    as (j & H1 & _ & H3 & H4); try (vm_compute; reflexivity).
  exists j. split; [exact H1|]. split; [rewrite H3; vm_compute; reflexivity|].
  rewrite H4. reflexivity.
Defined.

Lemma L1_allocate_min_cost_witness :
  exists c, In c (py_stride (where_false_from 0 (l1_flatten (L1Clustering_init 2 2 1))) 1).
Proof.
  destruct (L1_allocate_min_cost (fun l _ => range (Z.of_nat (length l)))
              (L1Clustering_init 2 2 1)
              (snd (L1_allocate (fun l _ => range (Z.of_nat (length l)))
                      (L1Clustering_init 2 2 1) (1, 2, 1))) 1 2 1
              (match fst (L1_allocate (fun l _ => range (Z.of_nat (length l)))
                            (L1Clustering_init 2 2 1) (1, 2, 1)) with
               | Some m => m | None => [] end)) as (c & Hc & _).
  - apply injective_projections; [vm_compute; reflexivity | reflexivity].
  - exists c. exact Hc.
Defined.

Lemma placement_key_inj_witness : ("job" = "job")%string /\ 12 = 12.
Proof. apply (placement_key_inj "job" "job" 12 12); [lia | lia | reflexivity]. Defined.
